(** * Package state (lefelys/state): a Rocq model of the tree of states

    The Go package builds a tree of [State] nodes (group, shutdown, wait,
    error, error group, value, readiness, dependency, annotation, empty) and
    coordinates them through channels that are closed at most once.  This
    file embeds the data model and the operations of the package and proves
    the properties of its specification against them.

    Layout: the pieces of the Go runtime the package leans on (channels,
    errors, interface values, reflect's comparability, sync.WaitGroup); the
    tree; the read-only methods ([Err], [Value], [cause], [finishSig]); the
    goroutine programs of [close] with their interleaving semantics; the
    constructors ([merge] and the [with...] functions); the theorems. *)

From Stdlib Require Import ZArith String List Bool Lia.
From stdpp Require Import base option list gmap strings.

Set Warnings "-register-all,-clear-no-such-hyp".

Local Open Scope string_scope.
Local Open Scope list_scope.
Local Open Scope Z_scope.
Local Open Scope nat_scope.

(** ** Go runtime: channels *)

(** A [chan struct{}] of the package is only ever closed, never sent on: a
    channel is a name, and the heap records which ones have been closed. *)
Definition chan := nat.

(** [closedchan] is the package's reusable closed channel (state.go). *)
Definition closedchan : chan := 0.

(** ** Go runtime: errors *)

Inductive error : Type :=
| ErrTimeout                               (* var ErrTimeout = errors.New("timeout expired") *)
| errorString (s : string)                 (* errors.New(s) *)
| wrapError (msg : string) (err : error).  (* fmt.Errorf with a %w verb *)

#[global] Instance error_eq_dec : EqDecision error.
Proof. solve_decision. Defined.

(** The method [Error() string] of the three implementations. *)
Definition Error_string (e : error) : string :=
  match e with
  | ErrTimeout => "timeout expired"
  | errorString s => s
  | wrapError msg _ => msg
  end.

(** [fmt.Errorf("%s: %w", annotation, err)]. *)
Definition Errorf_annotate (annotation : string) (err : error) : error :=
  wrapError (annotation +:+ ": " +:+ Error_string err) err.

(** [errors.Is(err, target)]: equal to the target, or wrapping an error that is. *)
Fixpoint Is (err target : error) : bool :=
  bool_decide (err = target) ||
  match err with
  | wrapError _ inner => Is inner target
  | _ => false
  end.

(** ** Go runtime: interface values and reflect *)

Module reflect.

(** The types a key can have, by [reflect.Kind]. *)
Inductive rtype : Type :=
| tBool | tInt | tString | tInterface
| tFunc
| tChan (elem : rtype)
| tPtr (elem : rtype)
| tSlice (elem : rtype)
| tMap (key elem : rtype)
| tArray (len : nat) (elem : rtype)
| tStruct (fields : list rtype)
| tNamed (name : string) (underlying : rtype).

Lemma rtype_eq_dec : ∀ a b : rtype, {a = b} + {a ≠ b}.
Proof.
  fix IH 1.
  decide equality;
    try apply string_dec; try apply Nat.eq_dec; apply (List.list_eq_dec IH).
Defined.

(** [Type.Comparable()]: functions, maps and slices are not comparable,
    an array is when its elements are, a struct when all its fields are. *)
Fixpoint Comparable (t : rtype) : bool :=
  match t with
  | tFunc | tSlice _ | tMap _ _ => false
  | tArray _ elem => Comparable elem
  | tStruct fields => forallb Comparable fields
  | tNamed _ underlying => Comparable underlying
  | tBool | tInt | tString | tInterface | tChan _ | tPtr _ => true
  end.

End reflect.

#[global] Instance rtype_eq_dec : EqDecision reflect.rtype := reflect.rtype_eq_dec.

(** The data word of an interface value. *)
Inductive data : Type :=
| int (z : Z)
| str (s : string)
| ref (addr : nat).   (* pointers, channels, funcs: an address *)

#[global] Instance data_eq_dec : EqDecision data.
Proof. solve_decision. Defined.

(** A non-nil [interface{}] is a dynamic type with a data word. *)
Record eface : Type := Eface { typ : reflect.rtype; word : data }.

#[global] Instance eface_eq_dec : EqDecision eface.
Proof. solve_decision. Defined.

(** [interface{}]: [None] is the nil interface. *)
Definition iface : Type := option eface.

(** [a == b] on two interface values whose dynamic types are comparable:
    both nil, or the same dynamic type and equal data. *)
Definition iface_eq (a b : iface) : bool := bool_decide (a = b).

(** ** The heap *)

(** Addresses of the mutable cells the nodes point to. *)
Definition loc := nat.

Record heap : Type := Heap {
  closed : gset chan;    (* the channels that have been closed *)
  errs : gmap loc error; (* [errState.err]; absent is nil *)
  wgs : gmap loc Z;      (* counters of the embedded sync.WaitGroups *)
  next : nat;            (* next fresh channel or cell *)
}.

(** [select { case <-c: ... default: ... }] takes the first branch iff [c] is closed. *)
Definition is_closed (h : heap) (c : chan) : bool := bool_decide (c ∈ closed h).

Definition set_closed (c : chan) (h : heap) : heap :=
  {| closed := {[c]} ∪ closed h; errs := errs h; wgs := wgs h; next := next h |}.

(** ** The tree of states *)

(** [type group struct { states []State; toClose map[int]struct{};
    done, finished chan struct{}; ... }].  The lazily built [ready] channel
    serves [Ready()] only and is left out, as is the mutex, whose critical
    sections are the atomic steps of the goroutine programs below. *)
Record group_of (S : Type) : Type := mk_group {
  states : list S;
  toClose : gset nat;
  done : chan;
  finished : chan;
}.
Arguments mk_group {S} _ _ _ _.
Arguments states {S} _.
Arguments toClose {S} _.
Arguments done {S} _.
Arguments finished {S} _.

(** The implementations of the interface [State].  Every variant but
    [emptyState] and [dependState] embeds a [*group]. *)
Inductive State : Type :=
| emptyState
| groupState (g : group_of State)
| shutdownState (g : group_of State) (end_ done_ : chan)
| waitState (g : group_of State) (wg : loc)
| errState (g : group_of State) (err : loc)
| errGroupState (g : group_of State) (err : loc)   (* errGroupState{*errState} *)
| valueState (g : group_of State) (key value : iface)
| readinessState (g : group_of State) (ready : chan)
| dependState (children : group_of State) (parent : State) (finished_ : chan)
| annotationState (g : group_of State) (annotation : string).

Abbreviation group := (group_of State).

(** The embedded group of a node: the receiver of its promoted methods. *)
Definition group_of_state (s : State) : option group :=
  match s with
  | emptyState | dependState _ _ _ => None
  | groupState g | shutdownState g _ _ | waitState g _ | errState g _
  | errGroupState g _ | valueState g _ _ | readinessState g _
  | annotationState g _ => Some g
  end.

(** Induction over the tree, with the children of a group under [Forall]. *)
Section State_induction.
Variable P : State → Prop.
Hypothesis Hempty : P emptyState.
Hypothesis Hgroup : ∀ g, Forall P (states g) → P (groupState g).
Hypothesis Hshutdown : ∀ g e d, Forall P (states g) → P (shutdownState g e d).
Hypothesis Hwait : ∀ g w, Forall P (states g) → P (waitState g w).
Hypothesis Herr : ∀ g l, Forall P (states g) → P (errState g l).
Hypothesis HerrGroup : ∀ g l, Forall P (states g) → P (errGroupState g l).
Hypothesis Hvalue : ∀ g k v, Forall P (states g) → P (valueState g k v).
Hypothesis Hready : ∀ g r, Forall P (states g) → P (readinessState g r).
Hypothesis Hdepend : ∀ c p f, Forall P (states c) → P p → P (dependState c p f).
Hypothesis Hannot : ∀ g a, Forall P (states g) → P (annotationState g a).

Fixpoint State_tree_ind (s : State) : P s :=
  let all :=
    fix all (l : list State) : Forall P l :=
      match l with
      | [] => @List.Forall_nil _ P
      | x :: r => @List.Forall_cons _ P x r (State_tree_ind x) (all r)
      end in
  match s with
  | emptyState => Hempty
  | groupState g => Hgroup g (all (states g))
  | shutdownState g e d => Hshutdown g e d (all (states g))
  | waitState g w => Hwait g w (all (states g))
  | errState g l => Herr g l (all (states g))
  | errGroupState g l => HerrGroup g l (all (states g))
  | valueState g k v => Hvalue g k v (all (states g))
  | readinessState g r => Hready g r (all (states g))
  | dependState c p f => Hdepend c p f (all (states c)) (State_tree_ind p)
  | annotationState g a => Hannot g a (all (states g))
  end.
End State_induction.

(** ** Read-only methods *)

(** The loop shared by the scans of a group:
    [for _, s := range states { if r := f(s); r != nil { return r } }; return nil]. *)
Fixpoint first_non_nil {A B : Type} (f : A → option B) (l : list A) : option B :=
  match l with
  | [] => None
  | x :: rest =>
      match f x with
      | Some r => Some r
      | None => first_non_nil f rest
      end
  end.

(** [finishSig()]: the channel closed when the closing of a node is complete. *)
Definition finishSig (s : State) : chan :=
  match s with
  | emptyState => closedchan
  | shutdownState _ _ done_ => done_
  | dependState _ _ finished_ => finished_
  | groupState g | waitState g _ | errState g _ | errGroupState g _
  | valueState g _ _ | readinessState g _ | annotationState g _ => finished g
  end.

(** [Err()].  [errState.Err] returns its own field and shadows the group's
    scan; [annotationState.Err] and [dependState.Err] run their own loops;
    the other variants inherit [group.Err]. *)
Fixpoint Err (h : heap) (s : State) : option error :=
  match s with
  | emptyState => None
  | errState _ l | errGroupState _ l => errs h !! l
  | annotationState g annotation =>
      match first_non_nil (Err h) (states g) with
      | Some err => Some (Errorf_annotate annotation err)
      | None => None
      end
  | dependState children parent _ =>
      match Err h parent with
      | Some err => Some err
      | None => first_non_nil (Err h) (states children)
      end
  | groupState g | shutdownState g _ _ | waitState g _ | valueState g _ _
  | readinessState g _ => first_non_nil (Err h) (states g)
  end.

Definition group_Err (h : heap) (g : group) : option error :=
  first_non_nil (Err h) (states g).

(** [Value(key)].  Only [valueState] and [dependState] have a method of
    their own. *)
Fixpoint Value (s : State) (key : iface) : iface :=
  match s with
  | emptyState => None
  | valueState g k v =>
      if iface_eq k key then v
      else first_non_nil (λ c, Value c key) (states g)
  | dependState children parent _ =>
      match Value parent key with
      | Some v => Some v
      | None => first_non_nil (λ c, Value c key) (states children)
      end
  | groupState g | shutdownState g _ _ | waitState g _ | errState g _
  | errGroupState g _ | readinessState g _ | annotationState g _ =>
      first_non_nil (λ c, Value c key) (states g)
  end.

Definition group_Value (g : group) (key : iface) : iface :=
  first_non_nil (λ c, Value c key) (states g).

(** [cause()]: the walk down the tree made after a timeout, reading the
    channels as they are in [h].  [shutdownState], [annotationState] and
    [dependState] have their own; the others inherit [group.cause]. *)
Fixpoint cause (h : heap) (s : State) : option error :=
  match s with
  | emptyState => None
  | shutdownState g _ done_ =>
      match first_non_nil (cause h) (states g) with
      | Some err => Some err
      | None => if is_closed h done_ then None else Some ErrTimeout
      end
  | annotationState g annotation =>
      match first_non_nil (cause h) (states g) with
      | Some err => Some (Errorf_annotate annotation err)
      | None => None
      end
  | dependState children parent _ =>
      match first_non_nil (cause h) (states children) with
      | Some err => Some err
      | None => cause h parent
      end
  | groupState g | waitState g _ | errState g _ | errGroupState g _
  | valueState g _ _ | readinessState g _ => first_non_nil (cause h) (states g)
  end.

Definition group_cause (h : heap) (g : group) : option error :=
  first_non_nil (cause h) (states g).

(** ** Error group tail *)

(** [errGroupState.Error(err)]: under the lock, assign [err] unless it is
    nil or the state already has an error. *)
Definition Error (l : loc) (err : option error) (h : heap) : heap :=
  match err with
  | Some e =>
      match errs h !! l with
      | None => {| closed := closed h; errs := <[l := e]> (errs h);
                   wgs := wgs h; next := next h |}
      | Some _ => h
      end
  | None => h
  end.

(** [errGroupState.Errorf(format, a...)] is [Error(fmt.Errorf(format, a...))];
    [formatted] stands for the error [fmt.Errorf] built, which is never nil. *)
Definition Errorf (l : loc) (formatted : error) (h : heap) : heap :=
  Error l (Some formatted) h.

(** ** Goroutines *)

(** The statements the closing code is made of.  A goroutine is the list
    of the statements it still has to run; a call is the callee's list put in
    front of the caller's. *)
Inductive instr : Type :=
| Recv (c : chan)
    (* [<-c]: blocks until [c] is closed *)
| Close (c : chan)
    (* [close(c)]: panics when [c] is closed already *)
| CloseOnce (c : chan) (already fresh : list instr)
    (* [mu.Lock(); select { case <-c: already; default: close(c); fresh }],
       the test and the close being one step under the mutex *)
| Go (body : list instr)
    (* [go func() { body }()] *)
| Range (keys : gset nat) (sigs : list chan)
    (* [for i := range toClose { <-states[i].finishSig(); delete(toClose, i) }]
       with [keys] the entries not yet visited and [sigs] the finish
       channels of [states]; the map is read by this loop only *)
| Index (i : nat) (sigs : list chan)
    (* [<-states[i].finishSig()]: the bounds check, then the receive *)
| WgWait (l : loc).
    (* [sync.WaitGroup.Wait()]: blocks until the counter is zero *)

Abbreviation goroutine := (list instr).

(** [group.close()]. *)
Definition group_close (g : group) : goroutine :=
  [CloseOnce (done g) []
     [Range (toClose g) (map finishSig (states g)); Close (finished g)]].

(** [shutdownState.Done()] and [dependState.Done()]. *)
Definition Done (done_ : chan) : goroutine := [CloseOnce done_ [] []].

(** [close()] of every variant: [emptyState] does nothing, [shutdownState]
    and [dependState] have their own, the others inherit [group.close]. *)
Fixpoint close (s : State) : goroutine :=
  match s with
  | emptyState => []
  | shutdownState g end_ _ =>
      [Go (group_close g); Recv (finished g); CloseOnce end_ [] []]
  | dependState children parent finished_ =>
      group_close children ++ [Recv (finished children)] ++
      close parent ++ [Recv (finishSig parent)] ++ Done finished_
  | groupState g | waitState g _ | errState g _ | errGroupState g _
  | valueState g _ _ | readinessState g _ | annotationState g _ =>
      group_close g
  end.

(** [addToCloseStream(done, c)]: the goroutine [<-done; c.close()]. *)
Definition addToCloseStream (done_ : chan) (c : State) : goroutine :=
  Recv done_ :: close c.

(** The counter of a WaitGroup; a fresh one is zero. *)
Definition counter (h : heap) (l : loc) : Z := default 0%Z (wgs h !! l).

(** What one statement of a goroutine does to the heap. *)
Inductive outcome : Type :=
| Stepped (h : heap) (rest : goroutine) (spawned : list goroutine)
| Blocked
| Exited
| Panicked (msg : string).

(** The next step of a goroutine.  [choice] picks the entry a [range] over
    the map delivers next (Go leaves the order open). *)
Definition exec (choice : nat) (h : heap) (t : goroutine) : outcome :=
  match t with
  | [] => Exited
  | Recv c :: k => if is_closed h c then Stepped h k [] else Blocked
  | Close c :: k =>
      if is_closed h c then Panicked "close of closed channel"
      else Stepped (set_closed c h) k []
  | CloseOnce c already fresh :: k =>
      if is_closed h c then Stepped h (already ++ k) []
      else Stepped (set_closed c h) (fresh ++ k) []
  | Go body :: k => Stepped h k [body]
  | Range keys sigs :: k =>
      match elements keys with
      | [] => Stepped h k []
      | first :: _ =>
          let i := default first (elements keys !! choice) in
          Stepped h (Index i sigs :: Range (keys ∖ {[i]}) sigs :: k) []
      end
  | Index i sigs :: k =>
      match sigs !! i with
      | Some c => Stepped h (Recv c :: k) []
      | None => Panicked "index out of range"
      end
  | WgWait l :: k => if bool_decide (counter h l = 0%Z) then Stepped h k [] else Blocked
  end.

(** The running program: the heap, the goroutines, and the panic that
    stopped it, if one did. *)
Record config : Type := Config {
  mem : heap;
  pool : list goroutine;
  panicked : option string;
}.

(** Goroutine [tid] takes a step; [None] when it cannot (blocked, exited,
    absent, or the program has panicked). *)
Definition step_at (tid choice : nat) (cfg : config) : option config :=
  match panicked cfg, pool cfg !! tid with
  | None, Some t =>
      match exec choice (mem cfg) t with
      | Stepped h rest spawned =>
          Some (Config h (<[tid := rest]> (pool cfg) ++ spawned) None)
      | Panicked msg => Some (Config (mem cfg) (pool cfg) (Some msg))
      | Blocked | Exited => None
      end
  | _, _ => None
  end.

Definition step (cfg cfg' : config) : Prop :=
  ∃ tid choice, step_at tid choice cfg = Some cfg'.

(** Runs a schedule: a list of (goroutine, choice); a goroutine that cannot
    move when its turn comes is skipped. *)
Definition run (schedule : list (nat * nat)) (cfg : config) : config :=
  fold_left (λ c '(tid, choice), default c (step_at tid choice c)) schedule cfg.

(** ** Constructors *)

(** A call that may panic. *)
Inductive result (A : Type) : Type :=
| Ok (a : A)
| Panic (msg : string).
Arguments Ok {A} _.
Arguments Panic {A} _.

(** The heap once [init()] has closed [closedchan]. *)
Definition heap0 : heap :=
  {| closed := {[closedchan]}; errs := ∅; wgs := ∅; next := 1 |}.

Definition config0 : config := Config heap0 [] None.

(** [make(chan struct{})], and the address of a new struct field: [n]
    fresh names. *)
Definition alloc (n : nat) (h : heap) : heap :=
  {| closed := closed h; errs := errs h; wgs := wgs h; next := n + next h |}.

(** The loop of [merge] from index [i] on: the non-nil states in order,
    the keys put in [toClose], and the goroutines [addToCloseStream] starts.
    A nil entry is skipped, yet [i] counts it. *)
Fixpoint merge_range (h : heap) (done_ : chan) (i : nat)
    (sts : list (option State)) : list State * gset nat * list goroutine :=
  match sts with
  | [] => ([], ∅, [])
  | None :: rest => merge_range h done_ (S i) rest
  | Some s :: rest =>
      let '(ss, toClose_, spawned) := merge_range h done_ (S i) rest in
      if is_closed h (finishSig s) then (s :: ss, toClose_, spawned)
      else (s :: ss, {[i]} ∪ toClose_, addToCloseStream done_ s :: spawned)
  end.

(** [merge(states...)]. *)
Definition merge (sts : list (option State)) (cfg : config) : group * config :=
  match sts with
  | [] => (mk_group [] ∅ closedchan closedchan, cfg)
  | _ =>
      let done_ := next (mem cfg) in
      let finished_ := S (next (mem cfg)) in
      let '(ss, toClose_, spawned) := merge_range (mem cfg) done_ 0 sts in
      (mk_group ss toClose_ done_ finished_,
       Config (alloc 2 (mem cfg)) (pool cfg ++ spawned) (panicked cfg))
  end.

(** [Merge(states...)]. *)
Definition Merge (sts : list (option State)) (cfg : config) : State * config :=
  let '(g, cfg) := merge sts cfg in (groupState g, cfg).

Definition Empty : State := emptyState.

(** [withShutdown(children...)]: the group, then [done], then [end]. *)
Definition withShutdown (children : list (option State)) (cfg : config)
    : State * config :=
  let '(g, cfg) := merge children cfg in
  let done_ := next (mem cfg) in
  let end_ := S (next (mem cfg)) in
  (shutdownState g end_ done_,
   Config (alloc 2 (mem cfg)) (pool cfg) (panicked cfg)).

(** [withWait(children...)]: the embedded WaitGroup starts at zero. *)
Definition withWait (children : list (option State)) (cfg : config)
    : State * config :=
  let '(g, cfg) := merge children cfg in
  (waitState g (next (mem cfg)),
   Config (alloc 1 (mem cfg)) (pool cfg) (panicked cfg)).

Definition set_err (l : loc) (err : option error) (h : heap) : heap :=
  {| closed := closed h;
     errs := match err with Some e => <[l := e]> (errs h) | None => errs h end;
     wgs := wgs h; next := next h |}.

(** [withError(err, children...)]. *)
Definition withError (err : option error) (children : list (option State))
    (cfg : config) : State * config :=
  let '(g, cfg) := merge children cfg in
  let l := next (mem cfg) in
  (errState g l,
   Config (set_err l err (alloc 1 (mem cfg))) (pool cfg) (panicked cfg)).

(** [withErrorGroup(children...)] is [&errGroupState{withError(nil, children...)}]. *)
Definition withErrorGroup (children : list (option State)) (cfg : config)
    : State * config :=
  let '(g, cfg) := merge children cfg in
  (errGroupState g (next (mem cfg)),
   Config (alloc 1 (mem cfg)) (pool cfg) (panicked cfg)).

(** [reflect.TypeOf(key)] of a non-nil key. *)
Definition TypeOf (key : eface) : reflect.rtype := typ key.

(** [withValue(key, value, children...)]. *)
Definition withValue (key value : iface) (children : list (option State))
    (cfg : config) : result (State * config) :=
  match key with
  | None => Panic "nil state value key"
  | Some k =>
      if negb (reflect.Comparable (TypeOf k))
      then Panic "state value key is not comparable"
      else
        let '(g, cfg) := merge children cfg in
        Ok (valueState g key value, cfg)
  end.

(** [withReadiness(children...)]. *)
Definition withReadiness (children : list (option State)) (cfg : config)
    : State * config :=
  let '(g, cfg) := merge children cfg in
  (readinessState g (next (mem cfg)),
   Config (alloc 1 (mem cfg)) (pool cfg) (panicked cfg)).

(** [withAnnotation(message, children...)]. *)
Definition withAnnotation (message : string) (children : list (option State))
    (cfg : config) : State * config :=
  let '(g, cfg) := merge children cfg in (annotationState g message, cfg).

(** [withDependency(parent, children...)]; every [DependsOn] method is
    [withDependency] on its receiver. *)
Definition withDependency (parent : State) (children : list (option State))
    (cfg : config) : State * config :=
  let '(g, cfg) := merge children cfg in
  (dependState g parent (next (mem cfg)),
   Config (alloc 1 (mem cfg)) (pool cfg) (panicked cfg)).

Definition DependsOn (s : State) (children : list (option State))
    (cfg : config) : State * config :=
  withDependency s children cfg.

(** [go f()] from the caller of the package: one more goroutine. *)
Definition spawn (t : goroutine) (cfg : config) : config :=
  Config (mem cfg) (pool cfg ++ [t]) (panicked cfg).

(** ** Wait *)

(** [sync.WaitGroup.Add(delta)]: adds [delta] to the counter and panics
    when the counter goes negative. *)
Definition WaitGroup_Add (l : loc) (delta : Z) (h : heap) : result heap :=
  let v := (counter h l + delta)%Z in
  if (v <? 0)%Z then Panic "sync: negative WaitGroup counter"
  else Ok {| closed := closed h; errs := errs h;
             wgs := <[l := v]> (wgs h); next := next h |}.

(** [sync.WaitGroup.Done()] is [Add(-1)]. *)
Definition WaitGroup_Done (l : loc) (h : heap) : result heap :=
  WaitGroup_Add l (-1) h.

(** The calls a tail receives, one after the other, up to the first panic. *)
Fixpoint calls (cs : list (heap → result heap)) (h : heap) : result heap :=
  match cs with
  | [] => Ok h
  | c :: rest =>
      match c h with
      | Ok h' => calls rest h'
      | Panic msg => Panic msg
      end
  end.

(** [Wait()]: [waitState] waits on its own WaitGroup, then on its group;
    a group waits on its children in order; [dependState] on its children,
    then on its parent; [emptyState] returns at once. *)
Fixpoint Wait (s : State) : goroutine :=
  match s with
  | emptyState => []
  | waitState g wg => WgWait wg :: flat_map Wait (states g)
  | dependState children parent _ =>
      flat_map Wait (states children) ++ Wait parent
  | groupState g | shutdownState g _ _ | errState g _ | errGroupState g _
  | valueState g _ _ | readinessState g _ | annotationState g _ =>
      flat_map Wait (states g)
  end.

(** * Properties *)

(** ** Scans of a group *)

Section first_non_nil_facts.
Context {A B : Type} (f : A → option B).

Lemma first_non_nil_None (l : list A) :
  first_non_nil f l = None ↔ ∀ x, x ∈ l → f x = None.
Proof.
  induction l as [|x l IH]; simpl.
  - split; [intros _ x Hx; inversion Hx | done].
  - destruct (f x) eqn:Hfx.
    + split; [done|]. intros H. rewrite H in Hfx; [done | left].
    + rewrite IH. split.
      * intros H y Hy. apply elem_of_cons in Hy as [->|Hy]; auto.
      * intros H y Hy. apply H. by right.
Qed.

(** The scan returns [r] exactly when some element answers [r] and every
    element before it answers nil. *)
Lemma first_non_nil_Some (l : list A) (r : B) :
  first_non_nil f l = Some r ↔
  ∃ i x, l !! i = Some x ∧ f x = Some r ∧
         ∀ j y, j < i → l !! j = Some y → f y = None.
Proof.
  induction l as [|x l IH]; simpl.
  - split; [done | intros (i & y & Hi & _)]. by rewrite lookup_nil in Hi.
  - destruct (f x) eqn:Hfx.
    + split.
      * intros [= ->]. exists 0, x. repeat split; [done|]. intros j y Hj. lia.
      * intros (i & y & Hi & Hy & Hbefore). destruct i as [|i].
        -- simpl in Hi. injection Hi as ->. congruence.
        -- specialize (Hbefore 0 x ltac:(lia) eq_refl). congruence.
    + rewrite IH. split.
      * intros (i & y & Hi & Hy & Hbefore). exists (S i), y.
        repeat split; [done..|]. intros [|j] z Hj Hz.
        -- simpl in Hz. by injection Hz as <-.
        -- simpl in Hz. apply (Hbefore j); [lia | done].
      * intros (i & y & Hi & Hy & Hbefore). destruct i as [|i].
        -- simpl in Hi. injection Hi as ->. congruence.
        -- exists i, y. repeat split; [done..|]. intros j z Hj Hz.
           apply (Hbefore (S j)); [lia | done].
Qed.

Lemma first_non_nil_cons_None (x : A) (l : list A) :
  f x = None → first_non_nil f (x :: l) = first_non_nil f l.
Proof. intros H. simpl. by rewrite H. Qed.

Lemma first_non_nil_app (l1 l2 : list A) :
  first_non_nil f (l1 ++ l2) =
  match first_non_nil f l1 with
  | Some r => Some r
  | None => first_non_nil f l2
  end.
Proof.
  induction l1 as [|x l1 IH]; simpl; [done|]. by destruct (f x).
Qed.
End first_non_nil_facts.

(** ** Errors: groups and annotations *)

Lemma Is_refl (e : error) : Is e e = true.
Proof. destruct e; cbn [Is]; by rewrite bool_decide_eq_true_2. Qed.

Lemma Error_string_annotate (annotation : string) (err : error) :
  Error_string (Errorf_annotate annotation err) =
  annotation +:+ ": " +:+ Error_string err.
Proof. reflexivity. Qed.

(** C7.  [Err()] on a group is the first non-nil [Err()] of its children
    in merge order, and nil when every child answers nil.  [Err()] on an
    annotation is that same error wrapped so that its message is the label,
    a colon and a space, then the child's message; a nil result stays nil. *)
Theorem Err_group_first_annotation_prefix
    (h : heap) (g : group) (annotation : string) :
  (∀ err, Err h (groupState g) = Some err ↔
     ∃ i s, states g !! i = Some s ∧ Err h s = Some err ∧
            ∀ j s', j < i → states g !! j = Some s' → Err h s' = None) ∧
  (Err h (groupState g) = None ↔ ∀ s, s ∈ states g → Err h s = None) ∧
  Err h (annotationState g annotation) =
    Errorf_annotate annotation <$> Err h (groupState g) ∧
  (∀ err, Err h (groupState g) = Some err →
     ∃ err', Err h (annotationState g annotation) = Some err' ∧
             Error_string err' = annotation +:+ ": " +:+ Error_string err ∧
             Is err' err = true) ∧
  (Err h (groupState g) = None → Err h (annotationState g annotation) = None).
Proof.
  simpl. split; [|split; [|split; [|split]]].
  - intros err. apply first_non_nil_Some.
  - apply first_non_nil_None.
  - by destruct (first_non_nil (Err h) (states g)).
  - intros err ->. eexists. split; [done|]. split; [done|].
    unfold Errorf_annotate. cbn [Is]. rewrite Is_refl. apply orb_true_r.
  - by intros ->.
Qed.

(** ** Error group: the first error wins *)

(** The calls [Error(e)] of a list, one after the other. *)
Definition Errors (l : loc) (calls : list (option error)) (h : heap) : heap :=
  foldl (λ h e, Error l e h) h calls.

Lemma Error_keeps (l : loc) (e : error) (e' : option error) (h : heap) :
  errs h !! l = Some e → Error l e' h = h.
Proof. intros H. unfold Error. destruct e'; [|done]. by rewrite H. Qed.

Lemma Errors_keeps (l : loc) (e : error) (calls : list (option error)) (h : heap) :
  errs h !! l = Some e → Errors l calls h = h.
Proof.
  revert h. induction calls as [|e' calls IH]; intros h H; [done|].
  change (Errors l (e' :: calls) h) with (Errors l calls (Error l e' h)).
  rewrite (Error_keeps l e e' h H). by apply IH.
Qed.

(** C5.  An error group with no error answers nil; [Error(nil)] changes
    nothing; the first non-nil [Error(e)] assigns [e]; whatever is passed to
    [Error] afterwards is dropped, and [Err()] keeps answering [e]. *)
Theorem ErrorGroup_first_error_wins (g : group) (l : loc) (h : heap) :
  (errs h !! l = None → Err h (errGroupState g l) = None) ∧
  Error l None h = h ∧
  (∀ e, Err h (errGroupState g l) = None →
        Err (Error l (Some e) h) (errGroupState g l) = Some e) ∧
  (∀ e later, Err h (errGroupState g l) = Some e →
        Errors l later h = h ∧
        Err (Errors l later h) (errGroupState g l) = Some e) ∧
  (∀ e later, Err h (errGroupState g l) = None →
        Err (Errors l (Some e :: later) h) (errGroupState g l) = Some e).
Proof.
  cbn [Err]. repeat split.
  - done.
  - intros e H. unfold Error. rewrite H. simpl. by rewrite lookup_insert_eq.
  - by apply Errors_keeps with e.
  - by rewrite (Errors_keeps l e later h).
  - intros e later H.
    change (Errors l (Some e :: later) h)
      with (Errors l later (Error l (Some e) h)).
    assert (errs (Error l (Some e) h) !! l = Some e) as He.
    { unfold Error. rewrite H. simpl. by rewrite lookup_insert_eq. }
    by rewrite (Errors_keeps l e later _ He).
Qed.

(** ** Values *)

(** C9.  [withValue] panics exactly when the key is nil or its type is not
    comparable; with any other key it returns the node that stores the key
    and the value over the merged children. *)
Theorem withValue_panics_iff_bad_key
    (key value : iface) (children : list (option State)) (cfg : config) :
  ((∃ msg, withValue key value children cfg = Panic msg) ↔
     key = None ∨ ∃ k, key = Some k ∧ reflect.Comparable (TypeOf k) = false) ∧
  (∀ k, key = Some k → reflect.Comparable (TypeOf k) = true →
     withValue key value children cfg =
       Ok (valueState (merge children cfg).1 key value, (merge children cfg).2)).
Proof.
  split.
  - unfold withValue. destruct key as [k|].
    + destruct (reflect.Comparable (TypeOf k)) eqn:Hc; simpl.
      * destruct (merge children cfg). split; [intros [msg [=]]|].
        intros [[=]|(k' & [= <-] & Hk')]. congruence.
      * split; [|by eexists]. intros _. right. by exists k.
    + split; [by left | by eexists].
  - intros k -> Hc. unfold withValue. rewrite Hc. simpl.
    by destruct (merge children cfg).
Qed.

(** C10.  A value node that stores nil for its key answers nil when asked
    directly, whatever its children hold, yet a group that scans it takes
    that nil for "not found" and goes on to the later siblings.  So with a
    child holding [v] for the same key, the node hides [v] when asked
    directly, and a group holding the node and then the child returns [v]. *)
Theorem Value_nil_stored_depends_on_position (key : iface) :
  (∀ g, Value (valueState g key None) key = None) ∧
  (∀ g g', ∀ rest,
     states g' = valueState g key None :: rest →
     Value (groupState g') key = first_non_nil (λ c, Value c key) rest) ∧
  (∀ (v : eface) toClose_ done_ finished_ toClose' done' finished',
     let child := valueState (mk_group [] ∅ closedchan closedchan) key (Some v) in
     let node := valueState (mk_group [child] toClose_ done_ finished_) key None in
     Value child key = Some v ∧
     Value node key = None ∧
     Value (groupState (mk_group [node; child] toClose' done' finished')) key
       = Some v).
Proof.
  assert (iface_eq key key = true) as Hkey by by apply bool_decide_eq_true_2.
  split; [|split].
  - intros g. simpl. by rewrite Hkey.
  - intros g g' rest Hg'. simpl. rewrite Hg'. simpl. by rewrite Hkey.
  - intros. subst child node. simpl. by rewrite Hkey.
Qed.

(** The assignments of a tree in the order of the specification: a node
    before its children, the children from left to right, the parent of a
    dependency before its children. *)
Fixpoint assignments (s : State) : list (iface * iface) :=
  match s with
  | emptyState => []
  | valueState g k v => (k, v) :: flat_map assignments (states g)
  | dependState children parent _ =>
      assignments parent ++ flat_map assignments (states children)
  | groupState g | shutdownState g _ _ | waitState g _ | errState g _
  | errGroupState g _ | readinessState g _ | annotationState g _ =>
      flat_map assignments (states g)
  end.

(** The value of the first assignment of [key] in a list, nil without one. *)
Definition first_assignment (key : iface) (l : list (iface * iface)) : iface :=
  match find (λ kv, iface_eq kv.1 key) l with
  | Some (_, v) => v
  | None => None
  end.

(** The specification's answer: the topmost, left-most assignment. *)
Definition topmost_leftmost (s : State) (key : iface) : iface :=
  first_assignment key (assignments s).

(** No node of the tree assigns nil to [key]. *)
Definition assigns_non_nil (key : iface) (l : list (iface * iface)) : Prop :=
  ∀ v, (key, v) ∈ l → v ≠ None.

Lemma assigns_non_nil_app (key : iface) (l1 l2 : list (iface * iface)) :
  assigns_non_nil key (l1 ++ l2) ↔
  assigns_non_nil key l1 ∧ assigns_non_nil key l2.
Proof.
  unfold assigns_non_nil. split.
  - intros H. split; intros v Hv; apply H, elem_of_app; [by left | by right].
  - intros [H1 H2] v [Hv|Hv]%elem_of_app; [by apply H1 | by apply H2].
Qed.

Lemma first_assignment_app (key : iface) (l1 l2 : list (iface * iface)) :
  assigns_non_nil key l1 →
  first_assignment key (l1 ++ l2) =
  match first_assignment key l1 with
  | Some v => Some v
  | None => first_assignment key l2
  end.
Proof.
  unfold first_assignment. intros Hnn.
  induction l1 as [|[k v] l1 IH]; simpl; [done|].
  unfold iface_eq at 1 3. simpl. case_bool_decide as Hk.
  - subst k. destruct v as [v|]; [done|]. by destruct (Hnn None); [left|].
  - apply IH. intros w Hw. apply Hnn. by right.
Qed.

Lemma Value_children_topmost_leftmost (key : iface) (children : list State) :
  Forall (λ s, assigns_non_nil key (assignments s) →
               Value s key = topmost_leftmost s key) children →
  assigns_non_nil key (flat_map assignments children) →
  first_non_nil (λ c, Value c key) children =
  first_assignment key (flat_map assignments children).
Proof.
  induction 1 as [|c children Hc _ IH]; simpl; [done|].
  intros [Hnn1 Hnn2]%assigns_non_nil_app.
  rewrite first_assignment_app by done.
  rewrite (Hc Hnn1). unfold topmost_leftmost.
  destruct (first_assignment key (assignments c)); [done|]. by apply IH.
Qed.

Lemma Value_topmost_leftmost_non_nil (key : iface) (s : State) :
  assigns_non_nil key (assignments s) →
  Value s key = topmost_leftmost s key.
Proof.
  induction s as [|g IH|g e d IH|g w IH|g l IH|g l IH|g k v IH|g r IH
                 |c p f IHc IHp|g a IH] using State_tree_ind;
    unfold topmost_leftmost; cbn [Value assignments]; intros Hnn;
    try (by apply Value_children_topmost_leftmost); [done| |].
  - unfold first_assignment. cbn [find fst]. destruct (iface_eq k key); [done|].
    apply Value_children_topmost_leftmost; [done|].
    intros w Hw. apply Hnn. by right.
  - apply assigns_non_nil_app in Hnn as [Hp Hc].
    rewrite first_assignment_app by done.
    rewrite (IHp Hp). unfold topmost_leftmost.
    destruct (first_assignment key (assignments p)); [done|].
    by apply Value_children_topmost_leftmost.
Qed.

(** The tree on which the claim C6 fails as it is worded: a group of two
    value nodes for the same key, the left one storing nil. *)
Definition key_k : iface := Some (Eface (reflect.tNamed "key" reflect.tString) (str "k")).
Definition value_v : iface := Some (Eface reflect.tString (str "v")).
Definition no_children : group := mk_group [] ∅ closedchan closedchan.
Definition nil_then_v : State :=
  groupState (mk_group [valueState no_children key_k None;
                        valueState no_children key_k value_v] ∅ 1 2).

(** C6, as worded, fails: the left-most assignment of the key stores nil,
    and [Value] returns the value of the node to its right. *)
Lemma Value_not_topmost_leftmost_when_nil_stored :
  topmost_leftmost nil_then_v key_k = None ∧
  Value nil_then_v key_k = value_v ∧
  Value nil_then_v key_k ≠ topmost_leftmost nil_then_v key_k.
Proof. vm_compute. repeat split; congruence. Qed.

(** C6, amended.  A value node answers with its own value when its key is
    the one asked for, before any child is consulted; a group returns the
    first non-nil answer of its children from left to right; a dependency
    asks its parent before its children.  Hence, in a tree where no node
    assigns nil to the key, [Value] returns the topmost, left-most
    assignment. *)
Theorem Value_topmost_leftmost (key : iface) :
  (∀ g v, Value (valueState g key v) key = v) ∧
  (∀ g v, Value (groupState g) key = Some v ↔
     ∃ i s, states g !! i = Some s ∧ Value s key = Some v ∧
            ∀ j s', j < i → states g !! j = Some s' → Value s' key = None) ∧
  (∀ c p f, Value (dependState c p f) key =
     match Value p key with
     | Some v => Some v
     | None => Value (groupState c) key
     end) ∧
  (∀ s, assigns_non_nil key (assignments s) →
     Value s key = topmost_leftmost s key).
Proof.
  split; [|split; [|split]].
  - intros g v. cbn [Value]. unfold iface_eq. by rewrite bool_decide_eq_true_2.
  - intros g v. cbn [Value]. apply first_non_nil_Some.
  - done.
  - apply Value_topmost_leftmost_non_nil.
Qed.

(** ** Shutdown: the race against the deadline *)

(** The two cases of the [select] in [shutdown]. *)
Inductive selected : Type :=
| case_finishSig   (* [case <-c.finishSig(): return nil] *)
| case_ctx_Done.   (* [case <-ctx.Done(): return c.cause()] *)

(** Which case the [select] takes: the one that is ready; [pick] when both
    are (Go then chooses at random); none while neither is. *)
Definition select2 (finish_ready ctx_done : bool) (pick : selected)
    : option selected :=
  match finish_ready, ctx_done with
  | true, false => Some case_finishSig
  | false, true => Some case_ctx_Done
  | true, true => Some pick
  | false, false => None
  end.

(** [shutdown(ctx, c)], seen from its caller once [go c.close()] is on its
    way: [h] is the heap when the [select] fires, [ctx_done] whether the
    deadline has passed by then, [h'] the heap when [cause] looks at the
    tree.  [None]: the call is still blocked. *)
Definition shutdown (ctx_done : bool) (pick : selected) (h h' : heap)
    (c : State) : option (option error) :=
  match select2 (is_closed h (finishSig c)) ctx_done pick with
  | Some case_finishSig => Some None
  | Some case_ctx_Done => Some (cause h' c)
  | None => None
  end.

(** [Shutdown(ctx)] of every variant.  [emptyState] returns nil,
    [annotationState] annotates what its group's [Shutdown] returns,
    [shutdownState] and [dependState] pass themselves to [shutdown], the
    others inherit [group.Shutdown], which passes the embedded group. *)
Definition Shutdown (ctx_done : bool) (pick : selected) (h h' : heap)
    (s : State) : option (option error) :=
  match s with
  | emptyState => Some None
  | annotationState g annotation =>
      match shutdown ctx_done pick h h' (groupState g) with
      | Some (Some err) => Some (Some (Errorf_annotate annotation err))
      | Some None => Some None
      | None => None
      end
  | shutdownState _ _ _ | dependState _ _ _ => shutdown ctx_done pick h h' s
  | groupState g | waitState g _ | errState g _ | errGroupState g _
  | valueState g _ _ | readinessState g _ =>
      shutdown ctx_done pick h h' (groupState g)
  end.

(** Every non-nil cause is [ErrTimeout], bare or under annotations. *)
Lemma cause_Is_ErrTimeout (h : heap) (s : State) (err : error) :
  cause h s = Some err → Is err ErrTimeout = true.
Proof.
  revert err.
  assert (∀ l, Forall (λ s, ∀ err, cause h s = Some err → Is err ErrTimeout = true) l →
               ∀ err, first_non_nil (cause h) l = Some err → Is err ErrTimeout = true)
    as Hscan.
  { intros l Hl err (i & c & Hi & Hc & _)%first_non_nil_Some.
    rewrite Forall_forall in Hl. eapply Hl; [|done].
    by eapply list_elem_of_lookup_2. }
  induction s as [|g IH|g e d IH|g w IH|g l IH|g l IH|g k v IH|g r IH
                 |c p f IHc IHp|g a IH] using State_tree_ind;
    cbn [cause]; intros err; try (by apply Hscan); [done| | |].
  - destruct (first_non_nil (cause h) (states g)) eqn:Hg.
    + intros [= <-]. by apply (Hscan _ IH).
    + destruct (is_closed h d); [done|]. by intros [= <-].
  - destruct (first_non_nil (cause h) (states c)) eqn:Hc.
    + intros [= <-]. by apply (Hscan _ IHc).
    + apply IHp.
  - destruct (first_non_nil (cause h) (states g)) eqn:Hg; [|done].
    intros [= <-]. unfold Errorf_annotate. cbn [Is].
    rewrite (Hscan _ IH _ Hg). apply orb_true_r.
Qed.

(** What [Shutdown] returns when the deadline wins is [cause()] of the node. *)
Lemma Shutdown_deadline (pick : selected) (h h' : heap) (s : State) :
  is_closed h (finishSig s) = false →
  Shutdown true pick h h' s = Some (cause h' s).
Proof.
  intros Hfin.
  destruct s; cbn [Shutdown cause]; unfold shutdown; cbn [finishSig] in *;
    rewrite ?Hfin; cbn [select2 cause]; try done.
  by destruct (first_non_nil (cause h') (states g)).
Qed.

Lemma Shutdown_finished (pick : selected) (h h' : heap) (s : State) :
  is_closed h (finishSig s) = true →
  Shutdown false pick h h' s = Some None.
Proof.
  intros Hfin.
  destruct s; cbn [Shutdown]; unfold shutdown; cbn [finishSig] in *;
    rewrite ?Hfin; by cbn [select2].
Qed.

(** Every shutdown node of the tree has had its [Done] called. *)
Fixpoint all_done (h : heap) (s : State) : bool :=
  match s with
  | emptyState => true
  | shutdownState g _ done_ => forallb (all_done h) (states g) && is_closed h done_
  | dependState children parent _ =>
      forallb (all_done h) (states children) && all_done h parent
  | groupState g | waitState g _ | errState g _ | errGroupState g _
  | valueState g _ _ | readinessState g _ | annotationState g _ =>
      forallb (all_done h) (states g)
  end.

Lemma cause_children_nil (h : heap) (l : list State) :
  Forall (λ s, cause h s = None ↔ all_done h s = true) l →
  first_non_nil (cause h) l = None ↔ forallb (all_done h) l = true.
Proof.
  intros Hl. rewrite first_non_nil_None, forallb_forall, Forall_forall in *.
  setoid_rewrite <- list_elem_of_In.
  split; intros H x Hx; apply Hl; auto.
Qed.

(** [cause] answers nil exactly on a branch whose shutdown nodes are all done. *)
Lemma cause_nil_iff_all_done (h : heap) (s : State) :
  cause h s = None ↔ all_done h s = true.
Proof.
  induction s as [|g IH|g e d IH|g w IH|g l IH|g l IH|g k v IH|g r IH
                 |c p f IHc IHp|g a IH] using State_tree_ind;
    cbn [cause all_done]; try (by apply cause_children_nil); [done| | |].
  - rewrite andb_true_iff, <- (cause_children_nil h _ IH).
    destruct (first_non_nil (cause h) (states g)); [naive_solver|].
    destruct (is_closed h d); naive_solver.
  - rewrite andb_true_iff, <- (cause_children_nil h _ IHc), <- IHp.
    destruct (first_non_nil (cause h) (states c)); naive_solver.
  - rewrite <- (cause_children_nil h _ IH).
    by destruct (first_non_nil (cause h) (states g)).
Qed.

(** The state on which the claim C1 fails as it is worded: a shutdown node
    over a shutdown child; the owner of the node has called [Done] early,
    the child has not finished, and the deadline has passed. *)
Definition done_early : State * config :=
  let '(child, cfg) := withShutdown [] config0 in
  let '(node, cfg) := withShutdown [Some child] cfg in
  (node, run [(1, 0)] (spawn (Done (finishSig node)) cfg)).

(** C1, as worded, fails: the [done] channel of the node is closed at
    inspection time, yet [cause], and with it [Shutdown] once the deadline is
    taken, returns [ErrTimeout]. *)
Lemma cause_not_nil_though_done_closed :
  let '(node, cfg) := done_early in
  is_closed (mem cfg) (finishSig node) = true ∧
  cause (mem cfg) node = Some ErrTimeout ∧
  Shutdown true case_ctx_Done (mem cfg) (mem cfg) node = Some (Some ErrTimeout).
Proof. vm_compute. done. Qed.

(** C1, amended.  [Shutdown] returns nil when the finish channel is closed
    and the deadline has not passed; when the deadline has passed and the
    finish channel is not closed it returns [cause()].  For a shutdown node
    [cause()] is the first non-nil cause of its children if there is one,
    else nil when [done] is closed and [ErrTimeout] when it is not; it is nil
    exactly when every shutdown node of the branch is done, and any other
    answer is [ErrTimeout], bare or under the annotations of the path. *)
Theorem Shutdown_nil_or_cause (pick : selected) (h h' : heap) (s : State) :
  (is_closed h (finishSig s) = true →
     Shutdown false pick h h' s = Some None) ∧
  (is_closed h (finishSig s) = false →
     Shutdown true pick h h' s = Some (cause h' s)) ∧
  (∀ g e d, s = shutdownState g e d →
     cause h' s =
       match group_cause h' g with
       | Some err => Some err
       | None => if is_closed h' d then None else Some ErrTimeout
       end) ∧
  (∀ g e d, s = shutdownState g e d →
     is_closed h' d = true → group_cause h' g = None → cause h' s = None) ∧
  (∀ g e d, s = shutdownState g e d →
     is_closed h' d = false →
     ∃ err, cause h' s = Some err ∧ Is err ErrTimeout = true) ∧
  (cause h' s = None ↔ all_done h' s = true) ∧
  (∀ err, cause h' s = Some err → Is err ErrTimeout = true).
Proof.
  split; [apply Shutdown_finished|].
  split; [apply Shutdown_deadline|].
  split; [by intros g e d ->|].
  split.
  { intros g e d -> Hd Hg. cbn [cause]. unfold group_cause in Hg.
    by rewrite Hg, Hd. }
  split.
  { intros g e d -> Hd.
    destruct (cause h' (shutdownState g e d)) as [err|] eqn:Hc.
    - exists err. split; [done|]. by eapply cause_Is_ErrTimeout.
    - exfalso. cbn [cause] in Hc. rewrite Hd in Hc.
      by destruct (first_non_nil (cause h') (states g)). }
  split; [apply cause_nil_iff_all_done|].
  intros err. apply cause_Is_ErrTimeout.
Qed.

(** ** The wait barrier *)

Lemma counter_Add (l : loc) (delta : Z) (h h' : heap) :
  WaitGroup_Add l delta h = Ok h' → counter h' l = (counter h l + delta)%Z.
Proof.
  unfold WaitGroup_Add. destruct (_ <? 0)%Z; [done|]. intros [= <-].
  unfold counter at 1. simpl. by rewrite lookup_insert_eq.
Qed.

Lemma WaitGroup_Add_Ok (l : loc) (delta : Z) (h : heap) :
  (0 ≤ counter h l + delta)%Z →
  ∃ h', WaitGroup_Add l delta h = Ok h' ∧
        counter h' l = (counter h l + delta)%Z ∧
        closed h' = closed h.
Proof.
  intros Hge. unfold WaitGroup_Add.
  destruct (Z.ltb_spec (counter h l + delta) 0); [lia|].
  eexists. split; [done|]. split; [|done].
  unfold counter at 1. simpl. by rewrite lookup_insert_eq.
Qed.

Lemma WaitGroup_Done_negative (l : loc) (h : heap) :
  counter h l = 0%Z →
  WaitGroup_Done l h = Panic "sync: negative WaitGroup counter".
Proof. intros H. unfold WaitGroup_Done, WaitGroup_Add. by rewrite H. Qed.

(** The wait node of the counterexample: [withWait()] on a fresh program. *)
Definition fresh_wait : State * config := withWait [] config0.

(** C4, as worded, fails: the fourth [Done] makes the counter negative, and
    [sync.WaitGroup] panics. *)
Lemma fourth_Done_panics :
  let '(s, cfg) := fresh_wait in
  ∃ wg g, s = waitState g wg ∧
    calls [WaitGroup_Add wg 3; WaitGroup_Done wg; WaitGroup_Done wg;
           WaitGroup_Done wg; WaitGroup_Done wg] (mem cfg)
    = Panic "sync: negative WaitGroup counter".
Proof. vm_compute. by eexists _, _. Qed.

(** C4, amended.  On a wait node whose counter is zero, [Add(3)] and fewer
    than three [Done()] leave [Wait()] blocked on the node's barrier; the
    third [Done()] brings the counter to zero, [Wait()] passes the barrier
    and goes on to wait on the children (it returns when there are none); a
    fourth [Done()] releases nothing early, the barrier being open already,
    but it panics, as sync.WaitGroup does on a negative counter. *)
Theorem Wait_released_after_three_Done
    (g : group) (wg : loc) (h : heap) (choice : nat) :
  counter h wg = 0%Z →
  (∀ n, n < 3 →
     ∃ h', calls (WaitGroup_Add wg 3 :: replicate n (WaitGroup_Done wg)) h = Ok h' ∧
           counter h' wg = (3 - Z.of_nat n)%Z ∧
           exec choice h' (Wait (waitState g wg)) = Blocked) ∧
  (∃ h3, calls (WaitGroup_Add wg 3 :: replicate 3 (WaitGroup_Done wg)) h = Ok h3 ∧
         counter h3 wg = 0%Z ∧
         exec choice h3 (Wait (waitState g wg)) =
           Stepped h3 (flat_map Wait (states g)) [] ∧
         (states g = [] → run [(0, choice)] (Config h3 [Wait (waitState g wg)] None)
                          = Config h3 [[]] None) ∧
         WaitGroup_Done wg h3 = Panic "sync: negative WaitGroup counter") ∧
  calls (WaitGroup_Add wg 3 :: replicate 4 (WaitGroup_Done wg)) h
    = Panic "sync: negative WaitGroup counter".
Proof.
  intros H0.
  destruct (WaitGroup_Add_Ok wg 3 h) as (h1 & E1 & C1 & _); [lia|].
  destruct (WaitGroup_Add_Ok wg (-1) h1) as (h2 & E2 & C2 & _); [lia|].
  destruct (WaitGroup_Add_Ok wg (-1) h2) as (h3 & E3 & C3 & _); [lia|].
  destruct (WaitGroup_Add_Ok wg (-1) h3) as (h4 & E4 & C4 & _); [lia|].
  assert (counter h4 wg = 0%Z) as Hz by lia.
  pose proof (WaitGroup_Done_negative wg h4 Hz) as E5.
  unfold WaitGroup_Done in *.
  assert (∀ h' v, counter h' wg = v → v ≠ 0%Z →
                  exec choice h' (Wait (waitState g wg)) = Blocked) as Hblocked.
  { intros h' v Hv Hne. cbn [Wait exec].
    rewrite bool_decide_eq_false_2; [done | congruence]. }
  split; [|split].
  - intros n Hn. destruct n as [|[|[|n]]]; [| | |lia]; cbn [replicate calls].
    + rewrite E1. exists h1. split; [done|]. split; [lia|].
      apply (Hblocked h1 (counter h1 wg) eq_refl). lia.
    + rewrite E1, E2. exists h2. split; [done|]. split; [lia|].
      apply (Hblocked h2 (counter h2 wg) eq_refl). lia.
    + rewrite E1, E2, E3. exists h3. split; [done|]. split; [lia|].
      apply (Hblocked h3 (counter h3 wg) eq_refl). lia.
  - exists h4. cbn [replicate calls]. rewrite E1, E2, E3, E4.
    assert (exec choice h4 (Wait (waitState g wg)) =
            Stepped h4 (flat_map Wait (states g)) []) as Hexec.
    { cbn [Wait exec]. by rewrite bool_decide_eq_true_2. }
    repeat split; [done..| |done].
    intros Hg. unfold run. cbn [fold_left]. unfold step_at.
    cbn [panicked pool mem].
    change ([Wait (waitState g wg)] !! 0) with (Some (Wait (waitState g wg))).
    cbv beta iota. by rewrite Hexec, Hg.
  - cbn [replicate calls]. by rewrite E1, E2, E3, E4, E5.
Qed.

(** The amended C4 on the node [withWait()] returns at program start. *)
Lemma Wait_released_after_three_Done_witness :
  counter heap0 1 = 0%Z ∧
  calls (WaitGroup_Add 1 3 :: replicate 4 (WaitGroup_Done 1)) heap0
    = Panic "sync: negative WaitGroup counter".
Proof.
  split; [reflexivity|].
  apply (Wait_released_after_three_Done no_children 1 heap0 0). reflexivity.
Defined.

(** ** Closing twice *)

(** A statement that, in heap [h], runs without blocking, without closing
    anything and without a panic: every channel it receives from or would
    close once is closed already. *)
Fixpoint inert_instr (h : heap) (i : instr) : bool :=
  match i with
  | Recv c => is_closed h c
  | Close _ => false
  | CloseOnce c already _ => is_closed h c && forallb (inert_instr h) already
  | Go body => forallb (inert_instr h) body
  | Range keys _ => match elements keys with [] => true | _ => false end
  | Index i sigs =>
      match sigs !! i with
      | Some c => is_closed h c
      | None => false
      end
  | WgWait l => bool_decide (counter h l = 0%Z)
  end.

Definition inert (h : heap) (t : goroutine) : bool := forallb (inert_instr h) t.

Lemma inert_app (h : heap) (t1 t2 : goroutine) :
  inert h (t1 ++ t2) = inert h t1 && inert h t2.
Proof. apply forallb_app. Qed.

(** An inert goroutine that has statements left takes a step, which leaves
    the heap as it is, and what remains and what it starts is inert. *)
Lemma inert_exec (choice : nat) (h : heap) (t : goroutine) :
  inert h t = true → t ≠ [] →
  ∃ rest spawned,
    exec choice h t = Stepped h rest spawned ∧
    inert h rest = true ∧ Forall (λ t', inert h t' = true) spawned.
Proof.
  destruct t as [|i k]; [done|]. intros Hin _.
  change (inert h (i :: k)) with (inert_instr h i && inert h k) in Hin.
  apply andb_true_iff in Hin as [Hi Hk].
  destruct i as [c|c|c already fresh|body|keys sigs|j sigs|l];
    cbn [inert_instr] in Hi; cbn [exec].
  - rewrite Hi. by exists k, [].
  - done.
  - apply andb_true_iff in Hi as [Hc Ha]. rewrite Hc.
    exists (already ++ k), []. rewrite inert_app. fold (inert h already) in Ha.
    by rewrite Ha, Hk.
  - exists k, [body]. repeat split; [done|]. by constructor.
  - destruct (elements keys); [|done]. by exists k, [].
  - destruct (sigs !! j) as [c|]; [|done]. exists (Recv c :: k), [].
    repeat split; [|done].
    change (inert h (Recv c :: k)) with (is_closed h c && inert h k).
    by rewrite Hi, Hk.
  - rewrite Hi. by exists k, [].
Qed.

(** The state a returned [close()] leaves behind.  A group has its [done]
    closed.  A shutdown node has waited for its group to finish and closed
    [end]; [finished] is closed by [group.close] only, after [done], so
    [done] is closed too.  A dependency has gone through its children, then
    its parent, and closed its own [finished]. *)
Fixpoint close_returned (h : heap) (s : State) : bool :=
  match s with
  | emptyState => true
  | shutdownState g end_ _ =>
      is_closed h (done g) && is_closed h (finished g) && is_closed h end_
  | dependState children parent finished_ =>
      is_closed h (done children) && is_closed h (finished children) &&
      close_returned h parent && is_closed h (finishSig parent) &&
      is_closed h finished_
  | groupState g | waitState g _ | errState g _ | errGroupState g _
  | valueState g _ _ | readinessState g _ | annotationState g _ =>
      is_closed h (done g)
  end.

Lemma inert_group_close (h : heap) (g : group) :
  is_closed h (done g) = true → inert h (group_close g) = true.
Proof. intros H. unfold group_close, inert. cbn. by rewrite H. Qed.

Lemma inert_Done (h : heap) (c : chan) :
  is_closed h c = true → inert h (Done c) = true.
Proof. intros H. unfold Done, inert. cbn. by rewrite H. Qed.

(** After a returned [close()], a second [close()] is inert. *)
Lemma inert_close (h : heap) (s : State) :
  close_returned h s = true → inert h (close s) = true.
Proof.
  induction s as [|g _|g e d _|g w _|g l _|g l _|g k v _|g r _
                 |c p f _ IHp|g a _] using State_tree_ind;
    cbn [close_returned close]; intros H;
    try (by apply inert_group_close); [done| |].
  - apply andb_true_iff in H as [[Hd Hf]%andb_true_iff He].
    change (inert h (group_close g) && (is_closed h (finished g) &&
            ((is_closed h e && true) && true)) = true).
    by rewrite (inert_group_close h g Hd), Hf, He.
  - apply andb_true_iff in H as [[[[Hd Hf]%andb_true_iff Hp]%andb_true_iff
                                  Hs]%andb_true_iff Hfin].
    rewrite !inert_app, (inert_group_close h c Hd), (IHp Hp),
      (inert_Done h f Hfin).
    cbn. by rewrite Hf, Hs.
Qed.

(** A program in which nothing is left to happen: the heap is [h], no
    goroutine has panicked, and every goroutine is inert. *)
Definition quiet (h : heap) (cfg : config) : Prop :=
  mem cfg = h ∧ panicked cfg = None ∧
  Forall (λ t, inert h t = true) (pool cfg).

Lemma quiet_step (h : heap) (cfg cfg' : config) :
  quiet h cfg → step cfg cfg' → quiet h cfg'.
Proof.
  intros (Hmem & Hpanic & Hpool) (tid & choice & Hstep).
  unfold step_at in Hstep. rewrite Hpanic in Hstep.
  destruct (pool cfg !! tid) as [t|] eqn:Ht; [|done].
  assert (inert h t = true) as Hin.
  { rewrite Forall_forall in Hpool. apply Hpool.
    by eapply list_elem_of_lookup_2. }
  destruct t as [|i k]; [by rewrite Hmem in Hstep|].
  destruct (inert_exec choice h (i :: k) Hin) as (rest & spawned & He & Hr & Hs);
    [done|].
  rewrite Hmem, He in Hstep. injection Hstep as <-.
  repeat split; [done..|]. cbn [pool].
  apply Forall_app. split; [|done]. by apply Forall_insert.
Qed.

Lemma quiet_rtc (h : heap) (cfg cfg' : config) :
  quiet h cfg → rtc step cfg cfg' → quiet h cfg'.
Proof. intros Hq Hsteps. induction Hsteps; eauto using quiet_step. Qed.

(** In a quiet program every goroutine has ended, or one can move. *)
Lemma quiet_progress (h : heap) (cfg : config) :
  quiet h cfg →
  Forall (λ t, t = []) (pool cfg) ∨ ∃ cfg', step cfg cfg'.
Proof.
  intros (Hmem & Hpanic & Hpool).
  destruct (decide (Forall (λ t, t = []) (pool cfg))) as [|Hsome]; [by left|].
  right. apply not_Forall_Exists in Hsome; [|intros t; apply _].
  apply Exists_exists in Hsome as (t & Ht & Hne).
  apply list_elem_of_lookup in Ht as [tid Htid].
  assert (inert h t = true) as Hin.
  { rewrite Forall_forall in Hpool. apply Hpool.
    by eapply list_elem_of_lookup_2. }
  destruct (inert_exec 0 h t Hin Hne) as (rest & spawned & He & _).
  eexists. exists tid, 0. unfold step_at. by rewrite Hpanic, Htid, Hmem, He.
Qed.

Lemma run_rtc (schedule : list (nat * nat)) (cfg : config) :
  rtc step cfg (run schedule cfg).
Proof.
  revert cfg. induction schedule as [|[tid choice] schedule IH]; intros cfg.
  - apply rtc_refl.
  - unfold run. cbn [fold_left]. fold (run schedule).
    destruct (step_at tid choice cfg) as [cfg'|] eqn:Hstep; cbn [default].
    + eapply rtc_l; [by exists tid, choice | apply IH].
    + apply IH.
Qed.

(** ** Every execution ends *)

(** An upper bound on the steps a statement can still take: the loops of
    the package run over finite maps. *)
Fixpoint weight_instr (i : instr) : nat :=
  match i with
  | Recv _ | Close _ | WgWait _ => 1
  | CloseOnce _ already fresh =>
      1 + list_sum (map weight_instr already) + list_sum (map weight_instr fresh)
  | Go body => 1 + list_sum (map weight_instr body)
  | Range keys _ => 1 + 3 * size keys
  | Index _ _ => 2
  end.

Definition weight (t : goroutine) : nat := list_sum (map weight_instr t).

Definition weight_pool (p : list goroutine) : nat := list_sum (map weight p).

Lemma weight_app (t1 t2 : goroutine) : weight (t1 ++ t2) = weight t1 + weight t2.
Proof. unfold weight. by rewrite map_app, list_sum_app. Qed.

Lemma weight_pool_app (p1 p2 : list goroutine) :
  weight_pool (p1 ++ p2) = weight_pool p1 + weight_pool p2.
Proof. unfold weight_pool. by rewrite map_app, list_sum_app. Qed.

Lemma weight_pool_insert (p : list goroutine) (tid : nat) (t t' : goroutine) :
  p !! tid = Some t →
  weight_pool (<[tid := t']> p) + weight t = weight_pool p + weight t'.
Proof.
  revert tid. induction p as [|x p IH]; intros [|tid] Ht; try done.
  - injection Ht as ->.
    change (weight_pool (t' :: p) + weight t = weight_pool (t :: p) + weight t').
    unfold weight_pool. cbn [map list_sum fold_right]. lia.
  - specialize (IH tid Ht).
    change (weight_pool (x :: <[tid := t']> p) + weight t =
            weight_pool (x :: p) + weight t').
    unfold weight_pool, list_sum in *. cbn [map fold_right] in *. lia.
Qed.

Ltac weigh :=
  repeat (progress (unfold weight, weight_pool, list_sum in *;
                    cbn [map fold_right weight_instr] in * )).

(** A step of a goroutine takes one off the weight of what it leaves. *)
Lemma exec_weight (choice : nat) (h h' : heap) (t rest : goroutine)
    (spawned : list goroutine) :
  exec choice h t = Stepped h' rest spawned →
  weight rest + weight_pool spawned < weight t.
Proof.
  destruct t as [|i k]; [done|].
  destruct i as [c|c|c already fresh|body|keys sigs|j sigs|l]; cbn [exec].
  - destruct (is_closed h c); [|done]. intros [= <- <- <-]. weigh. lia.
  - destruct (is_closed h c); [done|]. intros [= <- <- <-]. weigh. lia.
  - destruct (is_closed h c); intros [= <- <- <-]; rewrite weight_app;
      weigh; lia.
  - intros [= <- <- <-]. weigh. lia.
  - destruct (elements keys) as [|first others] eqn:Hel.
    + intros [= <- <- <-]. weigh. lia.
    + intros [= <- <- <-].
      set (i := default first ((first :: others) !! choice)).
      assert (i ∈ keys) as Hi.
      { apply elem_of_elements. rewrite Hel. subst i.
        destruct ((first :: others) !! choice) as [x|] eqn:Hx; cbn.
        - by eapply list_elem_of_lookup_2.
        - by left. }
      assert (size (keys ∖ {[i]}) + 1 = size keys) as Hsize.
      { rewrite size_difference by set_solver. rewrite size_singleton.
        assert (size keys ≠ 0); [|lia].
        intros Hz. apply size_empty_inv in Hz. set_solver. }
      weigh. lia.
  - destruct (sigs !! j); [|done]. intros [= <- <- <-]. weigh. lia.
  - destruct (bool_decide _); [|done]. intros [= <- <- <-]. weigh. lia.
Qed.

(** The weight of a program: what its goroutines can still do, and one
    more step while it has not panicked. *)
Definition weight_config (cfg : config) : nat :=
  match panicked cfg with
  | None => S (weight_pool (pool cfg))
  | Some _ => 0
  end.

Lemma step_weight (cfg cfg' : config) :
  step cfg cfg' → weight_config cfg' < weight_config cfg.
Proof.
  intros (tid & choice & Hstep). unfold step_at in Hstep.
  unfold weight_config at 2.
  destruct (panicked cfg); [done|].
  destruct (pool cfg !! tid) as [t|] eqn:Ht; [|done].
  destruct (exec choice (mem cfg) t) as [h' rest spawned| | |msg] eqn:He;
    try done; injection Hstep as <-; unfold weight_config;
    cbn [panicked pool]; [|lia].
  apply exec_weight in He.
  pose proof (weight_pool_insert (pool cfg) tid t rest Ht).
  rewrite weight_pool_app. lia.
Qed.

Lemma nsteps_weight (n : nat) (cfg cfg' : config) :
  nsteps step n cfg cfg' → n + weight_config cfg' ≤ weight_config cfg.
Proof.
  induction 1 as [|n cfg1 cfg2 cfg3 Hstep _ IH]; [lia|].
  apply step_weight in Hstep. lia.
Qed.

(** ** Scenarios *)

(** A fair schedule: [rounds] turns for each of the first [threads]
    goroutines. *)
Definition round_robin (rounds threads : nat) : list (nat * nat) :=
  flat_map (λ _, map (λ t, (t, 0)) (seq 0 threads)) (seq 0 rounds).

(** The job behind a shutdown node, as the tests and examples write it:
    [<-tail.End(); tail.Done()]. *)
Definition owner (s : State) : goroutine :=
  match s with
  | shutdownState _ end_ done_ => Recv end_ :: Done done_
  | _ => []
  end.

(** Two jobs [p] and [a], [d := p.DependsOn(a)], and [d.close()] run to
    its end. *)
Definition closed_once : State * config :=
  let '(p, cfg) := withShutdown [] config0 in
  let '(a, cfg) := withShutdown [] cfg in
  let '(d, cfg) := withDependency p [Some a] cfg in
  let cfg := spawn (close d) (spawn (owner a) (spawn (owner p) cfg)) in
  (d, run (round_robin 30 6) cfg).

(** C8.  When [close()] has returned once on a node, whatever its variant,
    a second [close()] runs to its end in every interleaving (every
    execution is finite, and it can stop only when all its goroutines have
    ended), never panics, and leaves every channel as it is: nothing is
    closed a second time.  Likewise a [Done()] on a channel closed already
    changes nothing. *)
Theorem second_close_is_noop (s : State) (h : heap) :
  close_returned h s = true →
  (∀ cfg, rtc step (Config h [close s] None) cfg →
     mem cfg = h ∧ panicked cfg = None ∧
     (Forall (λ t, t = []) (pool cfg) ∨ ∃ cfg', step cfg cfg')) ∧
  (∀ n cfg, nsteps step n (Config h [close s] None) cfg →
     n ≤ S (weight (close s))) ∧
  (∀ c, is_closed h c = true →
     ∀ cfg, rtc step (Config h [Done c] None) cfg →
       mem cfg = h ∧ panicked cfg = None).
Proof.
  intros Hret.
  assert (quiet h (Config h [close s] None)) as Hq.
  { repeat split; [done..|]. constructor; [|done]. by apply inert_close. }
  split; [|split].
  - intros cfg Hsteps. pose proof (quiet_rtc h _ cfg Hq Hsteps) as Hq'.
    destruct Hq' as (Hmem & Hpanic & Hpool). repeat split; [done..|].
    by apply (quiet_progress h).
  - intros n cfg Hn. apply nsteps_weight in Hn.
    unfold weight_config in Hn at 2. cbn [panicked pool] in Hn.
    unfold weight_pool in Hn. cbn [map list_sum fold_right] in Hn.
    unfold list_sum in Hn. cbn [fold_right] in Hn. lia.
  - intros c Hc cfg Hsteps.
    assert (quiet h (Config h [Done c] None)) as Hq0.
    { repeat split; [done..|]. constructor; [|done]. by apply inert_Done. }
    by destruct (quiet_rtc h _ cfg Hq0 Hsteps) as (? & ? & _).
Qed.

(** C8 on the dependency of [closed_once]: its first [close()] has
    returned, and a second one changes nothing. *)
Lemma second_close_is_noop_witness :
  let '(d, cfg) := closed_once in
  close_returned (mem cfg) d = true ∧
  mem (run (round_robin 30 6) (Config (mem cfg) [close d] None)) = mem cfg ∧
  panicked (run (round_robin 30 6) (Config (mem cfg) [close d] None)) = None.
Proof.
  destruct closed_once as [d cfg] eqn:Hco.
  assert (close_returned (mem cfg) d = true) as Hret.
  { assert (d = closed_once.1) as -> by by rewrite Hco.
    assert (cfg = closed_once.2) as -> by by rewrite Hco.
    vm_compute. reflexivity. }
  split; [exact Hret|].
  destruct (second_close_is_noop d (mem cfg) Hret) as (Hsafe & _ & _).
  destruct (Hsafe _ (run_rtc (round_robin 30 6) _)) as (Hmem & Hpanic & _).
  by split.
Defined.

(** ** merge and nil entries *)

(** [ShutdownTail.End()]. *)
Definition End (s : State) : chan :=
  match s with
  | shutdownState _ end_ _ => end_
  | _ => closedchan
  end.

Lemma merge_range_states (h : heap) (done_ : chan) (i : nat)
    (sts : list (option State)) :
  (merge_range h done_ i sts).1.1 = omap id sts.
Proof.
  revert i. induction sts as [|[s|] sts IH]; intros i; cbn [merge_range omap];
    [done| |apply IH].
  specialize (IH (S i)). destruct (merge_range h done_ (S i) sts) as [[ss tc] sp].
  cbn in IH. subst ss. by destruct (is_closed h (finishSig s)).
Qed.

(** The group [merge] builds holds exactly the non-nil inputs, in order. *)
Lemma merge_states (sts : list (option State)) (cfg : config) :
  states (merge sts cfg).1 = omap id sts.
Proof.
  unfold merge. destruct sts as [|s sts]; [done|].
  pose proof (merge_range_states (mem cfg) (next (mem cfg)) 0 (s :: sts)) as H.
  destruct (merge_range (mem cfg) (next (mem cfg)) 0 (s :: sts)) as [[ss tc] sp].
  exact H.
Qed.

(** The keys of [toClose] are positions in the input, nil entries counted. *)
Lemma merge_range_toClose (h : heap) (done_ : chan) (i : nat)
    (sts : list (option State)) (k : nat) :
  k ∈ (merge_range h done_ i sts).1.2 ↔
  ∃ j s, k = i + j ∧ sts !! j = Some (Some s) ∧
         is_closed h (finishSig s) = false.
Proof.
  revert i. induction sts as [|[s|] sts IH]; intros i; cbn [merge_range].
  - split; [set_solver|]. intros (j & s & _ & Hj & _).
    by rewrite lookup_nil in Hj.
  - specialize (IH (S i)).
    destruct (merge_range h done_ (S i) sts) as [[ss tc] sp]. cbn in IH.
    destruct (is_closed h (finishSig s)) eqn:Hs; cbn.
    + rewrite IH. split.
      * intros (j & s' & -> & Hj & Hc). exists (S j), s'.
        split; [lia|]. by split.
      * intros ([|j] & s' & -> & Hj & Hc).
        -- cbn in Hj. injection Hj as <-. congruence.
        -- exists j, s'. split; [lia|]. by split.
    + rewrite elem_of_union, elem_of_singleton, IH. split.
      * intros [->|(j & s' & -> & Hj & Hc)].
        -- exists 0, s. split; [lia|]. by split.
        -- exists (S j), s'. split; [lia|]. by split.
      * intros ([|j] & s' & -> & Hj & Hc).
        -- left. lia.
        -- right. exists j, s'. split; [lia|]. by split.
  - specialize (IH (S i)). rewrite IH. split.
    + intros (j & s' & -> & Hj & Hc). exists (S j), s'. split; [lia|]. by split.
    + intros ([|j] & s' & -> & Hj & Hc); [done|].
      exists j, s'. split; [lia|]. by split.
Qed.

(** [merge(nil, s)] for a job [s] that is still running. *)
Definition nil_then_running : group * config :=
  let '(s, cfg) := withShutdown [] config0 in
  merge [None; Some s] cfg.

(** [merge(nil, a, Empty())] for a job [a] that is still running, then
    [close()] on the group while [a] never calls [Done]. *)
Definition nil_running_empty : State * group * config :=
  let '(a, cfg) := withShutdown [] config0 in
  let '(g, cfg) := merge [None; Some a; Some Empty] cfg in
  (a, g, run (round_robin 10 3) (spawn (group_close g) cfg)).

(** C3, on the code.  [merge(nil, s)] holds the one state [s] but records
    it under key 1, its position among the inputs; [close()] then indexes
    [states[1]] and panics.  And [merge(nil, a, Empty())] records [a] under
    key 1, where the group holds [Empty()]: [close()] closes [finished]
    while [a] has not finished. *)
Theorem close_after_merge_with_nil :
  (let '(g, cfg) := nil_then_running in
   length (states g) = 1 ∧ elements (toClose g) = [1] ∧
   panicked (run (round_robin 4 2) (spawn (group_close g) cfg))
     = Some "index out of range") ∧
  (let '(a, g, cfg) := nil_running_empty in
   states g = [a; Empty] ∧ elements (toClose g) = [1] ∧
   panicked cfg = None ∧
   is_closed (mem cfg) (finished g) = true ∧
   is_closed (mem cfg) (finishSig a) = false).
Proof. vm_compute. repeat split. Qed.

(** ** Dependencies *)

(** [d := p.DependsOn(nil, a, Empty())] for two running jobs; [p] follows
    the protocol, [a] is told to end and never calls [Done]; [d.close()]. *)
Definition parent_closed_first : State * State * State * config :=
  let '(p, cfg) := withShutdown [] config0 in
  let '(a, cfg) := withShutdown [] cfg in
  let '(d, cfg) := withDependency p [None; Some a; Some Empty] cfg in
  (p, a, d, run (round_robin 30 5) (spawn (close d) (spawn (owner p) cfg))).

(** C2, on the code.  With a nil entry before it, the child [a] is not the
    state the children group waits for: [d.close()] goes on to close the
    parent, the parent ends and finishes, and [d] reports finished, all
    while the child [a] has not finished. *)
Theorem dependency_closes_parent_before_child :
  let '(p, a, d, cfg) := parent_closed_first in
  (∃ children finished_, d = dependState children p finished_ ∧
                         a ∈ states children) ∧
  panicked cfg = None ∧
  is_closed (mem cfg) (End a) = true ∧
  is_closed (mem cfg) (finishSig a) = false ∧
  is_closed (mem cfg) (End p) = true ∧
  is_closed (mem cfg) (finishSig p) = true ∧
  is_closed (mem cfg) (finishSig d) = true.
Proof.
  vm_compute. split; [|by repeat split].
  eexists _, _. split; [reflexivity|]. left.
Qed.

(** ** What a returned close() guarantees *)

(** Induction over statements, with the nested blocks under [Forall]. *)
Section instr_induction.
Variable P : instr → Prop.
Hypothesis HRecv : ∀ c, P (Recv c).
Hypothesis HClose : ∀ c, P (Close c).
Hypothesis HCloseOnce : ∀ c already fresh,
  Forall P already → Forall P fresh → P (CloseOnce c already fresh).
Hypothesis HGo : ∀ body, Forall P body → P (Go body).
Hypothesis HRange : ∀ keys sigs, P (Range keys sigs).
Hypothesis HIndex : ∀ i sigs, P (Index i sigs).
Hypothesis HWgWait : ∀ l, P (WgWait l).

Fixpoint instr_nested_ind (i : instr) : P i :=
  let all :=
    fix all (l : list instr) : Forall P l :=
      match l with
      | [] => @List.Forall_nil _ P
      | x :: r => @List.Forall_cons _ P x r (instr_nested_ind x) (all r)
      end in
  match i with
  | Recv c => HRecv c
  | Close c => HClose c
  | CloseOnce c already fresh => HCloseOnce c already fresh (all already) (all fresh)
  | Go body => HGo body (all body)
  | Range keys sigs => HRange keys sigs
  | Index j sigs => HIndex j sigs
  | WgWait l => HWgWait l
  end.
End instr_induction.

Section discipline.

(** For a channel, the channels that must be closed before it is: the
    [finished] of a group comes after its [done] and after the finish
    channels its loop waits for. *)
Variable guards : gmap chan (gset chan).

(** [wp_instr i Q A]: when the closed channels are at least [A], the
    statement [i] closes no guarded channel too early, nor do the goroutines
    it starts, and if it completes, [Q] holds of the channels closed by
    then.  Other goroutines may close channels at any time. *)
Fixpoint wp_instr (i : instr) (Q : gset chan → Prop) (A : gset chan) : Prop :=
  ∀ A', A ⊆ A' →
    match i with
    | Recv c => c ∈ A' → Q A'
    | Close c => (∀ G, guards !! c = Some G → G ⊆ A') ∧ Q ({[c]} ∪ A')
    | CloseOnce c already fresh =>
        (c ∈ A' → fold_right wp_instr Q already A') ∧
        (c ∉ A' → (∀ G, guards !! c = Some G → G ⊆ A') ∧
                  fold_right wp_instr Q fresh ({[c]} ∪ A'))
    | Go body => fold_right wp_instr (λ _, True) body A' ∧ Q A'
    | Range keys sigs =>
        (∀ k, k ∈ keys → ∃ c, sigs !! k = Some c ∧ c ∈ A') → Q A'
    | Index k sigs => (∃ c, sigs !! k = Some c ∧ c ∈ A') → Q A'
    | WgWait _ => Q A'
    end.

Definition wp (t : goroutine) (Q : gset chan → Prop) (A : gset chan) : Prop :=
  fold_right wp_instr Q t A.

Lemma wp_cons (i : instr) (t : goroutine) (Q : gset chan → Prop) (A : gset chan) :
  wp (i :: t) Q A = wp_instr i (wp t Q) A.
Proof. reflexivity. Qed.

Lemma wp_app (t1 t2 : goroutine) (Q : gset chan → Prop) (A : gset chan) :
  wp (t1 ++ t2) Q A = wp t1 (wp t2 Q) A.
Proof. unfold wp. by rewrite fold_right_app. Qed.

Lemma wp_instr_unfold (i : instr) (Q : gset chan → Prop) (A : gset chan) :
  wp_instr i Q A ↔
  ∀ A', A ⊆ A' →
    match i with
    | Recv c => c ∈ A' → Q A'
    | Close c => (∀ G, guards !! c = Some G → G ⊆ A') ∧ Q ({[c]} ∪ A')
    | CloseOnce c already fresh =>
        (c ∈ A' → wp already Q A') ∧
        (c ∉ A' → (∀ G, guards !! c = Some G → G ⊆ A') ∧
                  wp fresh Q ({[c]} ∪ A'))
    | Go body => wp body (λ _, True) A' ∧ Q A'
    | Range keys sigs =>
        (∀ k, k ∈ keys → ∃ c, sigs !! k = Some c ∧ c ∈ A') → Q A'
    | Index k sigs => (∃ c, sigs !! k = Some c ∧ c ∈ A') → Q A'
    | WgWait _ => Q A'
    end.
Proof. by destruct i. Qed.

(** A postcondition that more closed channels cannot undo. *)
Definition upclosed (Q : gset chan → Prop) : Prop :=
  ∀ A A', A ⊆ A' → Q A → Q A'.

Lemma wp_instr_weaken (i : instr) (Q : gset chan → Prop) (A A' : gset chan) :
  A ⊆ A' → wp_instr i Q A → wp_instr i Q A'.
Proof.
  intros HA H. destruct i; cbn in *; intros B HB; apply H; set_solver.
Qed.

Lemma wp_weaken (t : goroutine) (Q : gset chan → Prop) (A A' : gset chan) :
  upclosed Q → A ⊆ A' → wp t Q A → wp t Q A'.
Proof.
  intros HQ HA. destruct t as [|i t]; [by apply HQ|].
  rewrite !wp_cons. by apply wp_instr_weaken.
Qed.

Lemma wp_upclosed (t : goroutine) (Q : gset chan → Prop) :
  upclosed Q → upclosed (wp t Q).
Proof. intros HQ A A' HA. by apply wp_weaken. Qed.

(** A weaker postcondition keeps [wp]. *)
Lemma wp_conseq (t : goroutine) :
  ∀ (Q Q' : gset chan → Prop) (A : gset chan),
    (∀ B, A ⊆ B → Q B → Q' B) → wp t Q A → wp t Q' A.
Proof.
  assert (∀ j, ∀ (Q Q' : gset chan → Prop) (A : gset chan),
            (∀ B, A ⊆ B → Q B → Q' B) → wp_instr j Q A → wp_instr j Q' A)
    as Hinstr.
  { induction j as [c|c|c already fresh IHa IHf|body _|keys sigs|k sigs|l]
      using instr_nested_ind; intros Q Q' A HQ H;
      rewrite wp_instr_unfold in *; intros B HB; specialize (H B HB).
    - intros Hc. apply HQ; auto.
    - destruct H as [HG H]. split; [done|]. apply HQ; [set_solver|done].
    - assert (∀ l, Forall (λ j, ∀ (Q Q' : gset chan → Prop) (A : gset chan),
                 (∀ B, A ⊆ B → Q B → Q' B) → wp_instr j Q A → wp_instr j Q' A) l →
               ∀ C, B ⊆ C → wp l Q C → wp l Q' C) as Hl.
      { induction 1 as [|j l Hj _ IHl]; intros C HC.
        - apply HQ. set_solver.
        - rewrite !wp_cons. apply Hj. intros D HD. apply IHl. set_solver. }
      destruct H as [Ha Hf]. split.
      + intros Hc. apply (Hl _ IHa); [done|]. by apply Ha.
      + intros Hc. destruct (Hf Hc) as [Hg Hw]. split; [done|].
        apply (Hl _ IHf); [set_solver|done].
    - destruct H as [Hb H]. split; [done|]. apply HQ; auto.
    - intros Hk. apply HQ; auto.
    - intros Hk. apply HQ; auto.
    - apply HQ; auto. }
  induction t as [|j t IH]; intros Q Q' A HQ.
  - apply HQ. done.
  - rewrite !wp_cons. apply Hinstr. intros B HB. apply IH.
    intros C HC. apply HQ. set_solver.
Qed.

(** The heap respects the guards: a guarded channel is closed only after
    the channels it waits for. *)
Definition guarded (h : heap) : Prop :=
  ∀ c G, guards !! c = Some G → c ∈ closed h → G ⊆ closed h.

Lemma is_closed_true (h : heap) (c : chan) : is_closed h c = true ↔ c ∈ closed h.
Proof. apply bool_decide_eq_true. Qed.

Lemma is_closed_false (h : heap) (c : chan) : is_closed h c = false ↔ c ∉ closed h.
Proof. apply bool_decide_eq_false. Qed.

(** A step of a goroutine that satisfies [wp] keeps the heap guarded, and
    what is left of the goroutine and what it started satisfy [wp]. *)
Lemma exec_wp (choice : nat) (h h' : heap) (t rest : goroutine)
    (spawned : list goroutine) (Q : gset chan → Prop) :
  exec choice h t = Stepped h' rest spawned →
  guarded h → wp t Q (closed h) →
  closed h ⊆ closed h' ∧ guarded h' ∧ wp rest Q (closed h') ∧
  Forall (λ t', wp t' (λ _, True) (closed h')) spawned.
Proof.
  destruct t as [|i k]; [done|]. intros He Hg Hwp.
  rewrite wp_cons in Hwp.
  pose proof (proj1 (wp_instr_unfold _ _ _) Hwp) as Hall.
  pose proof (Hall (closed h) ltac:(done)) as Hh.
  clear Hwp. rename Hh into Hwp.
  destruct i as [c|c|c already fresh|body|keys sigs|j sigs|l]; cbn [exec] in He.
  - destruct (is_closed h c) eqn:Hc; [|done]. injection He as <- <- <-.
    apply is_closed_true in Hc. by repeat split; auto.
  - destruct (is_closed h c) eqn:Hc; [done|]. injection He as <- <- <-.
    destruct Hwp as [HG Hk]. cbn [set_closed closed].
    repeat split; [set_solver| |done|done].
    intros c0 G0 HG0 [->%elem_of_singleton|Hc0]%elem_of_union.
    + specialize (HG G0 HG0). set_solver.
    + specialize (Hg c0 G0 HG0 Hc0). set_solver.
  - destruct Hwp as [Ha Hf].
    destruct (is_closed h c) eqn:Hc; injection He as <- <- <-.
    + apply is_closed_true in Hc. rewrite wp_app. by repeat split; auto.
    + apply is_closed_false in Hc. destruct (Hf Hc) as [HG Hw].
      cbn [set_closed closed]. rewrite wp_app.
      repeat split; [set_solver| |done|done].
      intros c0 G0 HG0 [->%elem_of_singleton|Hc0]%elem_of_union.
      * specialize (HG G0 HG0). set_solver.
      * specialize (Hg c0 G0 HG0 Hc0). set_solver.
  - injection He as <- <- <-. destruct Hwp as [Hb Hk].
    repeat split; [done..|]. by constructor.
  - destruct (elements keys) as [|first others] eqn:Hel.
    + injection He as <- <- <-. repeat split; [done..| |done].
      apply Hwp. intros i Hi. apply elem_of_elements in Hi.
      rewrite Hel in Hi. inversion Hi.
    + injection He as <- <- <-. repeat split; [done..| |done].
      set (i := default first ((first :: others) !! choice)).
      rewrite wp_cons. apply (proj2 (wp_instr_unfold _ _ _)).
      intros A1 HA1 (c & Hsig & Hc).
      rewrite wp_cons. apply (proj2 (wp_instr_unfold _ _ _)).
      intros A2 HA2 Hrest. apply (Hall A2); [set_solver|].
      intros i' Hi'. destruct (decide (i' = i)) as [->|Hne].
      * exists c. split; [done|set_solver].
      * apply Hrest. set_solver.
  - destruct (sigs !! j) as [c|] eqn:Hj; [|done]. injection He as <- <- <-.
    repeat split; [done..| |done].
    rewrite wp_cons. apply (proj2 (wp_instr_unfold _ _ _)). intros A1 HA1 Hc.
    apply (Hall A1); [done|]. by exists c.
  - destruct (bool_decide _); [|done]. injection He as <- <- <-.
    by repeat split.
Qed.

Lemma exec_app (choice : nat) (h : heap) (q rest : goroutine) :
  q ≠ [] →
  exec choice h (q ++ rest) =
  match exec choice h q with
  | Stepped h' r spawned => Stepped h' (r ++ rest) spawned
  | o => o
  end.
Proof.
  destruct q as [|i k]; [done|]. intros _.
  destruct i as [c|c|c already fresh|body|keys sigs|j sigs|l];
    cbn [exec app].
  - by destruct (is_closed h c).
  - by destruct (is_closed h c).
  - destruct (is_closed h c); by rewrite app_assoc.
  - done.
  - by destruct (elements keys).
  - by destruct (sigs !! j).
  - by destruct (bool_decide _).
Qed.

(** A program that respects the guards: [closedchan] is closed, the heap is
    guarded, and no goroutine will close a guarded channel too early. *)
Definition disciplined (cfg : config) : Prop :=
  closedchan ∈ closed (mem cfg) ∧ guarded (mem cfg) ∧
  Forall (λ t, wp t (λ _, True) (closed (mem cfg))) (pool cfg).

Lemma upclosed_True : upclosed (λ _, True).
Proof. by intros A A' _ _. Qed.

Lemma Forall_wp_weaken (p : list goroutine) (Q : gset chan → Prop)
    (A A' : gset chan) :
  upclosed Q → A ⊆ A' → Forall (λ t, wp t Q A) p → Forall (λ t, wp t Q A') p.
Proof.
  intros HQ HA H. eapply Forall_impl; [exact H|]. intros t. by apply wp_weaken.
Qed.

Lemma disciplined_step (cfg cfg' : config) :
  disciplined cfg → step cfg cfg' →
  disciplined cfg' ∧ closed (mem cfg) ⊆ closed (mem cfg').
Proof.
  intros (H0 & Hg & Hpool) (tid & choice & Hstep). unfold step_at in Hstep.
  destruct (panicked cfg); [done|].
  destruct (pool cfg !! tid) as [t|] eqn:Ht; [|done].
  destruct (exec choice (mem cfg) t) as [h' rest spawned| | |msg] eqn:He;
    try done; injection Hstep as <-; cbn [mem pool]; [|done].
  assert (wp t (λ _, True) (closed (mem cfg))) as Hwp.
  { rewrite Forall_forall in Hpool. apply Hpool.
    by eapply list_elem_of_lookup_2. }
  destruct (exec_wp _ _ _ _ _ _ _ He Hg Hwp) as (Hsub & Hg' & Hrest & Hsp).
  split; [|done]. repeat split; [set_solver|done|].
  apply Forall_app. split; [|done]. apply Forall_insert; [|done].
  by apply (Forall_wp_weaken _ _ (closed (mem cfg))); [apply upclosed_True|..].
Qed.

Lemma disciplined_rtc (cfg cfg' : config) :
  disciplined cfg → rtc step cfg cfg' →
  disciplined cfg' ∧ closed (mem cfg) ⊆ closed (mem cfg').
Proof.
  intros Hd Hsteps. induction Hsteps as [|cfg1 cfg2 cfg3 Hs _ IH]; [done|].
  destruct (disciplined_step _ _ Hd Hs) as [Hd2 Hsub].
  destruct (IH Hd2) as [Hd3 Hsub']. split; [done|set_solver].
Qed.

(** Goroutine [tid] is in a call [q] that will establish [Q] before it goes
    on with [rest], or it is past that point. *)
Definition in_call (tid : nat) (rest : goroutine) (Q : gset chan → Prop)
    (cfg : config) : Prop :=
  (∃ q, pool cfg !! tid = Some (q ++ rest) ∧ wp q Q (closed (mem cfg))) ∨
  (∃ t, pool cfg !! tid = Some t ∧ weight t < weight rest).

Lemma in_call_step (tid : nat) (rest : goroutine) (Q : gset chan → Prop)
    (cfg cfg' : config) :
  upclosed Q → disciplined cfg → in_call tid rest Q cfg → step cfg cfg' →
  in_call tid rest Q cfg'.
Proof.
  intros HQ (H0 & Hg & Hpool) Hin (tid' & choice & Hstep).
  unfold step_at in Hstep.
  destruct (panicked cfg); [done|].
  destruct (pool cfg !! tid') as [t|] eqn:Ht; [|done].
  destruct (exec choice (mem cfg) t) as [h' rest' spawned| | |msg] eqn:He;
    try done; injection Hstep as <-; [|exact Hin].
  pose proof (lookup_lt_Some _ _ _ Ht) as Hlen.
  assert (closed (mem cfg) ⊆ closed h') as Hsub.
  { assert (wp t (λ _, True) (closed (mem cfg))) as Hwp.
    { rewrite Forall_forall in Hpool. apply Hpool.
      by eapply list_elem_of_lookup_2. }
    by destruct (exec_wp _ _ _ _ _ _ _ He Hg Hwp) as (Hsub & _). }
  unfold in_call. cbn [pool mem].
  destruct (decide (tid = tid')) as [->|Hne].
  - rewrite lookup_app_l by by rewrite length_insert.
    rewrite list_lookup_insert_eq by done.
    destruct Hin as [(q & Hq & Hwp)|(t' & Ht' & Hw)].
    + rewrite Ht in Hq. injection Hq as ->.
      destruct q as [|i k].
      * right. exists rest'. split; [done|].
        apply exec_weight in He. cbn [app] in He. lia.
      * left. rewrite exec_app in He by done.
        destruct (exec choice (mem cfg) (i :: k)) as [h1 r sp| | |] eqn:He1;
          try done. injection He as <- <- <-.
        exists r. split; [done|].
        by destruct (exec_wp _ _ _ _ _ _ _ He1 Hg Hwp) as (_ & _ & Hr & _).
    + right. rewrite Ht in Ht'. injection Ht' as ->.
      exists rest'. split; [done|]. apply exec_weight in He. lia.
  - assert (tid < length (pool cfg) ∨ pool cfg !! tid = None) as [Hlt|Hnone].
    { destruct (pool cfg !! tid) eqn:E; [left; by eapply lookup_lt_Some | by right]. }
    + rewrite lookup_app_l by by rewrite length_insert.
      rewrite list_lookup_insert_ne by done.
      destruct Hin as [(q & Hq & Hwp)|(t' & Ht' & Hw)].
      * left. exists q. split; [done|]. by eapply wp_weaken.
      * right. by exists t'.
    + destruct Hin as [(q & Hq & _)|(t' & Ht' & _)]; congruence.
Qed.

(** When the goroutine is back at [rest], the call has established [Q]. *)
Lemma in_call_returned (tid : nat) (rest : goroutine) (Q : gset chan → Prop)
    (cfg : config) :
  in_call tid rest Q cfg → pool cfg !! tid = Some rest → Q (closed (mem cfg)).
Proof.
  intros [(q & Hq & Hwp)|(t & Ht & Hw)] Hrest.
  - rewrite Hq in Hrest. injection Hrest as Hrest.
    assert (q = []) as ->.
    { apply (f_equal length) in Hrest. rewrite length_app in Hrest.
      destruct q; [done|]. cbn in Hrest. lia. }
    exact Hwp.
  - rewrite Ht in Hrest. injection Hrest as ->. lia.
Qed.

Lemma in_call_rtc (tid : nat) (rest : goroutine) (Q : gset chan → Prop)
    (cfg cfg' : config) :
  upclosed Q → disciplined cfg → in_call tid rest Q cfg → rtc step cfg cfg' →
  in_call tid rest Q cfg'.
Proof.
  intros HQ Hd Hin Hsteps.
  induction Hsteps as [|cfg1 cfg2 cfg3 Hs _ IH]; [done|].
  apply IH.
  - by destruct (disciplined_step _ _ Hd Hs).
  - by eapply in_call_step.
Qed.

(** The finish channels the loop of [group.close] waits for: those of the
    states its keys index. *)
Definition awaited (g : group) : gset chan :=
  list_to_set (omap (λ i, map finishSig (states g) !! i) (elements (toClose g))).

Lemma elem_of_awaited (g : group) (c : chan) :
  c ∈ awaited g ↔ ∃ i, i ∈ toClose g ∧ map finishSig (states g) !! i = Some c.
Proof.
  unfold awaited. rewrite elem_of_list_to_set, list_elem_of_omap.
  by setoid_rewrite elem_of_elements.
Qed.

(** The guards know the group: it is the group of no states, on
    [closedchan], or its [done] is not guarded and its [finished] is guarded
    by [done] and by what its loop waits for. *)
Definition group_ok (g : group) : Prop :=
  (done g = closedchan ∧ finished g = closedchan ∧ toClose g = ∅) ∨
  (guards !! done g = None ∧
   guards !! finished g = Some ({[done g]} ∪ awaited g)).

(** The guard of [c], if it has one, asks for channels of [X] only. *)
Definition guard_within (c : chan) (X : gset chan) : Prop :=
  ∀ G, guards !! c = Some G → G ⊆ X.

(** The guards know the node, as far as its [close()] goes: [end] of a
    shutdown node may be guarded by the [finished] of its group, [finished]
    of a dependency by the finish channels of its children and parent. *)
Fixpoint node_ok (s : State) : Prop :=
  match s with
  | emptyState => True
  | shutdownState g end_ _ => group_ok g ∧ guard_within end_ {[finished g]}
  | dependState children parent finished_ =>
      group_ok children ∧ node_ok parent ∧
      guard_within finished_ {[finished children; finishSig parent]}
  | groupState g | waitState g _ | errState g _ | errGroupState g _
  | valueState g _ _ | readinessState g _ | annotationState g _ => group_ok g
  end.

(** What the statements of [close()] have seen or done when it returns. *)
Fixpoint close_post (s : State) (A : gset chan) : Prop :=
  match s with
  | emptyState => True
  | shutdownState g end_ _ => finished g ∈ A ∧ end_ ∈ A
  | dependState children parent finished_ =>
      done children ∈ A ∧ finished children ∈ A ∧ close_post parent A ∧
      finishSig parent ∈ A ∧ finished_ ∈ A
  | groupState g | waitState g _ | errState g _ | errGroupState g _
  | valueState g _ _ | readinessState g _ | annotationState g _ => done g ∈ A
  end.

Lemma close_post_upclosed (s : State) : upclosed (close_post s).
Proof.
  induction s as [|g _|g e d _|g w _|g l _|g l _|g k v _|g r _
                 |c p f _ IHp|g a _] using State_tree_ind;
    intros A A' HA; cbn [close_post]; set_solver.
Qed.

Lemma wp_group_close (g : group) (A : gset chan) :
  group_ok g → closedchan ∈ A → wp (group_close g) (λ B, done g ∈ B) A.
Proof.
  intros Hok H0. unfold group_close. rewrite wp_cons.
  apply (proj2 (wp_instr_unfold _ _ _)). intros A1 HA1. split; [done|].
  intros Hopen. destruct Hok as [[Hd _]|[Hd Hf]]; [rewrite Hd in Hopen; set_solver|].
  split; [by intros G; rewrite Hd|]. rewrite wp_cons. apply (proj2 (wp_instr_unfold _ _ _)).
  intros A2 HA2 Hkeys. rewrite wp_cons. apply (proj2 (wp_instr_unfold _ _ _)).
  intros A3 HA3. split; [|cbn; set_solver].
  intros G HG. rewrite Hf in HG. injection HG as <-.
  apply union_subseteq. split; [set_solver|].
  intros c (i & Hi & Hc)%elem_of_awaited.
  destruct (Hkeys i Hi) as (c' & Hc' & Hin). rewrite Hc in Hc'.
  injection Hc' as <-. set_solver.
Qed.

Lemma wp_Done (c : chan) (A : gset chan) :
  guard_within c A → wp (Done c) (λ B, c ∈ B) A.
Proof.
  intros Hc. unfold Done. rewrite wp_cons.
  apply (proj2 (wp_instr_unfold _ _ _)). intros A1 HA1.
  split; [done|]. intros _. split; [|cbn; set_solver].
  intros G HG. specialize (Hc G HG). set_solver.
Qed.

Lemma wp_Recv (c : chan) (t : goroutine) (Q : gset chan → Prop) (A : gset chan) :
  (∀ B, A ⊆ B → c ∈ B → wp t Q B) → wp (Recv c :: t) Q A.
Proof.
  intros H. rewrite wp_cons. apply (proj2 (wp_instr_unfold _ _ _)).
  intros B HB Hc. by apply H.
Qed.

Lemma wp_seq (t1 t2 : goroutine) (Q1 Q : gset chan → Prop) (A : gset chan) :
  wp t1 Q1 A → (∀ B, A ⊆ B → Q1 B → wp t2 Q B) → wp (t1 ++ t2) Q A.
Proof. intros H1 H2. rewrite wp_app. by eapply wp_conseq. Qed.

(** [close()] respects the guards of a node they know, and establishes
    [close_post]. *)
Lemma wp_close (s : State) :
  ∀ A, node_ok s → closedchan ∈ A → wp (close s) (close_post s) A.
Proof.
  induction s as [|g _|g e d _|g w _|g l _|g l _|g k v _|g r _
                 |c p f _ IHp|g a _] using State_tree_ind;
    intros A Hok H0; cbn [close close_post node_ok] in *;
    try (by apply wp_group_close); [done| |].
  - destruct Hok as [Hg He]. rewrite wp_cons.
    apply (proj2 (wp_instr_unfold _ _ _)). intros A1 HA1. split.
    + eapply wp_conseq; [|apply wp_group_close; [done|set_solver]]. done.
    + apply wp_Recv. intros A2 HA2 Hfin.
      eapply wp_conseq; [|apply (wp_Done e)].
      * intros B HB Hend. cbn beta in Hend. set_solver.
      * intros G HG. specialize (He G HG). set_solver.
  - destruct Hok as (Hc & Hp & Hf).
    eapply wp_seq; [by apply wp_group_close|]. intros B1 HB1 Hdone.
    apply wp_Recv. intros B2 HB2 Hfin.
    eapply wp_seq; [apply IHp; [done|set_solver]|]. intros B3 HB3 Hpost.
    apply wp_Recv. intros B4 HB4 Hsig.
    eapply wp_conseq; [|apply (wp_Done f)].
    + intros B5 HB5 Hfd. cbn beta in Hfd.
      repeat split; try set_solver.
      eapply close_post_upclosed; [|done]. set_solver.
    + intros G HG. specialize (Hf G HG). set_solver.
Qed.

(** On a guarded heap, what [close()] has seen and done is the state
    [close_returned] describes. *)
Lemma close_post_returned (s : State) (h : heap) :
  node_ok s → guarded h → closedchan ∈ closed h →
  close_post s (closed h) → close_returned h s = true.
Proof.
  intros Hok Hg H0.
  assert (∀ g, group_ok g → finished g ∈ closed h → done g ∈ closed h) as Hdone.
  { intros g [[-> _]|[_ Hf]] Hfin; [done|].
    specialize (Hg _ _ Hf Hfin). set_solver. }
  induction s as [|g _|g e d _|g w _|g l _|g l _|g k v _|g r _
                 |c p f _ IHp|g a _] using State_tree_ind;
    cbn [close_post close_returned node_ok] in *;
    try (by intros ?%is_closed_true); [done| |].
  - destruct Hok as [Hgok _]. intros [Hfin Hend].
    rewrite !andb_true_iff, !is_closed_true. auto.
  - destruct Hok as (Hc & Hp & _). intros (Hd & Hfin & Hpost & Hsig & Hf).
    rewrite !andb_true_iff, !is_closed_true. auto.
Qed.

End discipline.

(** In a program that respects its guards, a goroutine that called
    [close()] on a node the guards know and has returned from it finds the
    node in the state [close_returned]. *)
Theorem close_returns_closed (guards : gmap chan (gset chan)) (s : State)
    (tid : nat) (rest : goroutine) (cfg0 cfg : config) :
  disciplined guards cfg0 → node_ok guards s →
  pool cfg0 !! tid = Some (close s ++ rest) →
  rtc step cfg0 cfg →
  pool cfg !! tid = Some rest →
  close_returned (mem cfg) s = true.
Proof.
  intros Hd Hok Htid Hsteps Hrest.
  destruct (disciplined_rtc guards _ _ Hd Hsteps) as [(H0 & Hg & _) _].
  apply (close_post_returned guards); [done..|].
  apply (in_call_returned guards tid rest); [|done].
  eapply (in_call_rtc guards); [apply close_post_upclosed|done| |done].
  left. exists (close s). split; [done|].
  apply wp_close; [done|]. by destruct Hd.
Qed.

(** ** What the guards tell about a group and a dependency *)


Lemma omap_id_Some (ss : list State) : omap id (Some <$> ss) = ss.
Proof. induction ss as [|s ss IH]; [done|]. cbn. by rewrite IH. Qed.

(** The keys of [toClose] after [merge]: the positions, among the inputs,
    of the states that were unfinished. *)
Lemma merge_toClose (sts : list (option State)) (cfg : config) (k : nat) :
  k ∈ toClose (merge sts cfg).1 ↔
  ∃ s, sts !! k = Some (Some s) ∧ is_closed (mem cfg) (finishSig s) = false.
Proof.
  unfold merge. destruct sts as [|s0 sts].
  - cbn. split; [set_solver|by intros (? & ? & _)].
  - pose proof (merge_range_toClose (mem cfg) (next (mem cfg)) 0 (s0 :: sts) k)
      as H.
    destruct (merge_range (mem cfg) (next (mem cfg)) 0 (s0 :: sts))
      as [[ss tc] sp]. cbn in *. rewrite H. split.
    + intros (j & s & -> & Hj & Hc). by exists s.
    + intros (s & Hk & Hc). by exists k, s.
Qed.


Lemma withDependency_fields (p : State) (sts : list (option State))
    (cfg : config) :
  (withDependency p sts cfg).1 =
  dependState (merge sts cfg).1 p (next (mem (merge sts cfg).2)).
Proof. unfold withDependency. by destruct (merge sts cfg). Qed.

Section ordering.

Variable guards : gmap chan (gset chan).



(** The goroutines the package and its callers start respect the guards. *)
Lemma wp_addToCloseStream (done_ : chan) (s : State) (A : gset chan) :
  node_ok guards s → closedchan ∈ A →
  wp guards (addToCloseStream done_ s) (λ _, True) A.
Proof.
  intros Hok H0. apply wp_Recv. intros B HB _.
  eapply wp_conseq; [|apply wp_close; [done|set_solver]]. done.
Qed.

Lemma wp_owner (s : State) (A : gset chan) :
  (∀ g e d, s = shutdownState g e d → guards !! d = None) →
  wp guards (owner s) (λ _, True) A.
Proof.
  intros Hs. destruct s; try done. cbn [owner].
  apply wp_Recv. intros B HB _.
  eapply wp_conseq; [|apply wp_Done]; [done|].
  intros G HG. by rewrite (Hs _ _ _ eq_refl) in HG.
Qed.

Lemma wp_close_True (s : State) (A : gset chan) :
  node_ok guards s → closedchan ∈ A → wp guards (close s) (λ _, True) A.
Proof. intros Hok H0. eapply wp_conseq; [|by apply wp_close]. done. Qed.

End ordering.

(** Two running jobs. *)
Definition two_jobs : State * State * config :=
  let '(p, cfg) := withShutdown [] config0 in
  let '(a, cfg) := withShutdown [] cfg in
  (p, a, cfg).

(** [d := p.DependsOn(a)] for the two jobs, their owners, and a goroutine
    that calls [d.close()]. *)
Definition dependency_started : State * config :=
  let '(p, a, cfg) := two_jobs in
  let '(d, cfg) := withDependency p [Some a] cfg in
  (d, spawn (close d) (spawn (owner a) (spawn (owner p) cfg))).

(** The guards of that program: the [finished] channel of the children of
    [d], and the [finished] channel of [d]. *)
Definition dependency_guards : gmap chan (gset chan) :=
  match dependency_started.1 with
  | dependState c p f =>
      <[f := {[finished c; finishSig p]}]>
        {[finished c := {[done c]} ∪ awaited c]}
  | _ => ∅
  end.

Lemma dependency_started_disciplined :
  node_ok dependency_guards dependency_started.1 ∧
  disciplined dependency_guards dependency_started.2.
Proof.
  set (p := two_jobs.1.1). set (a := two_jobs.1.2).
  set (c := (merge [Some a] two_jobs.2).1).
  set (d := dependState c p 7).
  assert (dependency_started.1 = d) as Hd by reflexivity.
  assert (pool dependency_started.2 =
          [addToCloseStream (done c) a; owner p; owner a; close d]) as Hpool
    by reflexivity.
  assert (closed (mem dependency_started.2) = {[closedchan]}) as Hmem
    by reflexivity.
  assert (∀ ch, ch ≠ 6 → ch ≠ 7 → dependency_guards !! ch = None) as Hnone.
  { intros ch H6 H7. unfold dependency_guards. rewrite Hd. unfold d.
    rewrite lookup_insert_ne by done. by rewrite lookup_singleton_ne. }
  assert (dependency_guards !! 6 = Some ({[done c]} ∪ awaited c)) as H6.
  { unfold dependency_guards. rewrite Hd. unfold d.
    rewrite lookup_insert_ne by done. by rewrite lookup_singleton_eq. }
  assert (dependency_guards !! 7 = Some {[finished c; finishSig p]}) as H7.
  { unfold dependency_guards. rewrite Hd. unfold d.
    by rewrite lookup_insert_eq. }
  assert (node_ok dependency_guards p) as Hp.
  { split; [left; by repeat split|]. intros G HG. by rewrite Hnone in HG. }
  assert (node_ok dependency_guards a) as Ha.
  { split; [left; by repeat split|]. intros G HG. by rewrite Hnone in HG. }
  assert (node_ok dependency_guards d) as Hdok.
  { split; [|split; [done|]].
    - right. split; [by apply Hnone|exact H6].
    - intros G HG. change (dependency_guards !! 7 = Some G) in HG.
      rewrite H7 in HG. by injection HG as <-. }
  rewrite Hd. split; [done|]. unfold disciplined, guarded.
  rewrite Hmem, Hpool. split; [set_solver|split].
  - intros ch G HG ->%elem_of_singleton. by rewrite Hnone in HG.
  - repeat apply Forall_cons_2; [| | | |apply Forall_nil_2].
    + apply wp_addToCloseStream; [done|set_solver].
    + apply wp_owner. intros g e dn [= _ _ <-]. by apply Hnone.
    + apply wp_owner. intros g e dn [= _ _ <-]. by apply Hnone.
    + apply wp_close_True; [done|set_solver].
Qed.




(** On [dependency_started], run to its end: [d.close()] has returned and
    [d] is closed. *)
Lemma close_returns_closed_witness :
  close_returned (mem (run (round_robin 30 4) dependency_started.2))
    dependency_started.1 = true.
Proof.
  apply (close_returns_closed dependency_guards dependency_started.1 3 []
           dependency_started.2).
  - apply dependency_started_disciplined.
  - apply dependency_started_disciplined.
  - reflexivity.
  - apply run_rtc.
  - vm_compute. reflexivity.
Defined.




(** ** Errors over the whole tree *)

(** The calls of [Error] the tails of a tree receive, each on its cell. *)
Definition Error_calls (calls : list (loc * option error)) (h : heap) : heap :=
  foldl (λ h c, Error c.1 c.2 h) h calls.

Lemma Error_errs_subseteq (l : loc) (e : option error) (h : heap) :
  errs h ⊆ errs (Error l e h).
Proof.
  unfold Error. destruct e as [e|]; [|done].
  destruct (errs h !! l) eqn:Hl; [done|]. cbn [errs].
  by apply insert_subseteq.
Qed.

Lemma Error_calls_errs_subseteq (calls : list (loc * option error)) (h : heap) :
  errs h ⊆ errs (Error_calls calls h).
Proof.
  revert h. induction calls as [|c calls IH]; intros h; [done|].
  change (Error_calls (c :: calls) h)
    with (Error_calls calls (Error c.1 c.2 h)).
  etrans; [apply Error_errs_subseteq|apply IH].
Qed.

Lemma first_non_nil_is_Some {A B : Type} (f f' : A → option B) (l : list A) :
  Forall (λ x, is_Some (f x) → is_Some (f' x)) l →
  is_Some (first_non_nil f l) → is_Some (first_non_nil f' l).
Proof.
  intros Hl [r (i & x & Hi & Hx & _)%first_non_nil_Some].
  destruct (first_non_nil f' l) eqn:Hnone; [done|].
  rewrite first_non_nil_None in Hnone.
  rewrite Forall_forall in Hl.
  assert (x ∈ l) as Hin by by eapply list_elem_of_lookup_2.
  destruct (Hl x Hin) as [r' Hr']; [by exists r|].
  rewrite (Hnone x Hin) in Hr'. done.
Qed.

(** A heap with more errors assigned makes no [Err()] nil again. *)
Lemma Err_mono (h h' : heap) (s : State) :
  errs h ⊆ errs h' → is_Some (Err h s) → is_Some (Err h' s).
Proof.
  intros Hsub.
  induction s as [|g IH|g e d IH|g w IH|g l IH|g l IH|g k v IH|g r IH
                 |c p f IHc IHp|g a IH] using State_tree_ind;
    cbn [Err]; try (by apply first_non_nil_is_Some); [done| | | |].
  - intros [e He]. exists e. by eapply lookup_weaken.
  - intros [e He]. exists e. by eapply lookup_weaken.
  - destruct (Err h p) eqn:Hp.
    + destruct IHp as [e' ->]; [done|]. done.
    + intros Hc. destruct (Err h' p); [done|].
      by apply (first_non_nil_is_Some (Err h)).
  - destruct (first_non_nil (Err h) (states g)) eqn:Hg; [|by intros [? ?]].
    intros _.
    destruct (first_non_nil_is_Some (Err h) (Err h') (states g) IH) as [e' ->];
      [by rewrite Hg|done].
Qed.

(** Two error groups [a] and [b] merged, and [b] has its error. *)
Definition two_error_groups : State * config :=
  let '(a, cfg) := withErrorGroup [] config0 in
  let '(b, cfg) := withErrorGroup [] cfg in
  let '(s, cfg) := Merge [Some a; Some b] cfg in
  (s, Config (Error 2 (Some (errorString "b failed")) (mem cfg))
             (pool cfg) (panicked cfg)).

(** Once [Err()] of a tree has answered an error it never answers nil
    again, whatever its error tails are sent afterwards (the answer itself
    may change). *)
Theorem Err_never_nil_again (s : State) (calls : list (loc * option error))
    (h : heap) (e : error) :
  Err h s = Some e → ∃ e', Err (Error_calls calls h) s = Some e'.
Proof.
  intros He.
  destruct (Err_mono h (Error_calls calls h) s) as [e' He'];
    [apply Error_calls_errs_subseteq|by exists e|by exists e'].
Qed.

(** On [two_error_groups]: the tree answers the error of [b]; once [a] is
    sent an error the answer is another one, and not nil. *)
Lemma Err_never_nil_again_witness :
  Err (mem two_error_groups.2) two_error_groups.1 =
    Some (errorString "b failed") ∧
  ∃ e', Err (Error_calls [(1, Some (errorString "a failed"))]
               (mem two_error_groups.2)) two_error_groups.1 = Some e'.
Proof.
  split; [reflexivity|].
  exact (Err_never_nil_again two_error_groups.1
           [(1, Some (errorString "a failed"))] (mem two_error_groups.2)
           (errorString "b failed") eq_refl).
Defined.

(** ** Fresh cells and channels *)

(** Nothing at or beyond [next] is in use: every channel there is open,
    every cell empty.  [make] and the address of a new struct keep it so. *)
Definition fresh_from (h : heap) : Prop :=
  ∀ l, next h ≤ l → errs h !! l = None ∧ wgs h !! l = None ∧ l ∉ closed h.

Lemma fresh_from_heap0 : fresh_from heap0.
Proof.
  intros l Hl. cbn in *. repeat split; try done.
  intros ->%elem_of_singleton. unfold closedchan in Hl. lia.
Qed.

Lemma fresh_from_alloc (n : nat) (h : heap) :
  fresh_from h → fresh_from (alloc n h).
Proof. intros Hf l Hl. cbn in *. apply Hf. lia. Qed.

(** [merge] allocates, and touches nothing else of the heap. *)
Lemma merge_mem (sts : list (option State)) (cfg : config) :
  mem (merge sts cfg).2 =
  alloc (match sts with [] => 0 | _ => 2 end) (mem cfg).
Proof.
  unfold merge. destruct sts as [|s sts].
  - cbn. by destruct (mem cfg).
  - by destruct (merge_range (mem cfg) (next (mem cfg)) 0 (s :: sts))
      as [[ss tc] sp].
Qed.

Lemma fresh_from_merge (sts : list (option State)) (cfg : config) :
  fresh_from (mem cfg) → fresh_from (mem (merge sts cfg).2).
Proof. intros Hf. rewrite merge_mem. by apply fresh_from_alloc. Qed.

(** An error node [e] over a child [c] that reports an error. *)
Definition error_over_failed_child : State * State * config :=
  let '(c, cfg) := withError (Some (errorString "child failed")) [] config0 in
  let '(e, cfg) := withError None [Some c] cfg in
  (c, e, cfg).

(** An error node answers its own error and nothing else:
    [WithError(err, children...)] answers [err], nil included, whatever its
    children report; an error group answers nil until its tail is sent an
    error, and then that error. *)
Theorem error_node_answers_own_error (err : option error)
    (children : list (option State)) (cfg : config) :
  fresh_from (mem cfg) →
  Err (mem (withError err children cfg).2) (withError err children cfg).1 = err ∧
  Err (mem (withErrorGroup children cfg).2) (withErrorGroup children cfg).1 = None ∧
  ∀ g l e, (withErrorGroup children cfg).1 = errGroupState g l →
    Err (Error l (Some e) (mem (withErrorGroup children cfg).2))
      (withErrorGroup children cfg).1 = Some e.
Proof.
  intros Hf. pose proof (fresh_from_merge children cfg Hf) as Hm.
  unfold withError, withErrorGroup.
  destruct (merge children cfg) as [g cfg1]. cbn [fst snd] in *.
  destruct (Hm (next (mem cfg1)) ltac:(done)) as (Hnone & _ & _).
  split; [|split].
  - cbn. destruct err as [e|]; cbn; [by rewrite lookup_insert_eq|done].
  - done.
  - intros g' l e [= <- <-]. cbn [Err mem]. unfold Error, alloc. cbn [errs].
    destruct (errs (mem cfg1) !! _) eqn:E; [done|].
    cbn [errs]. by rewrite lookup_insert_eq.
Qed.

(** On [error_over_failed_child]: the child answers its error, the node
    over it, built with a nil error, answers nil. *)
Lemma error_node_answers_own_error_witness :
  Err (mem error_over_failed_child.2) error_over_failed_child.1.1 =
    Some (errorString "child failed") ∧
  Err (mem error_over_failed_child.2) error_over_failed_child.1.2 = None.
Proof.
  split; [reflexivity|].
  refine (proj1 (error_node_answers_own_error None
            [Some error_over_failed_child.1.1]
            (withError (Some (errorString "child failed")) [] config0).2 _)).
  intros l Hl. cbn in *. rewrite lookup_insert_ne by lia.
  repeat split; try done.
  intros ->%elem_of_singleton. unfold closedchan in Hl. lia.
Defined.

(** ** What [Err()] and [cause()] answer *)

(** The cells of the error nodes of a tree, and its annotations. *)
Fixpoint err_cells (s : State) : list loc :=
  match s with
  | emptyState => []
  | errState g l | errGroupState g l => l :: flat_map err_cells (states g)
  | dependState children parent _ =>
      err_cells parent ++ flat_map err_cells (states children)
  | groupState g | shutdownState g _ _ | waitState g _ | valueState g _ _
  | readinessState g _ | annotationState g _ => flat_map err_cells (states g)
  end.

Fixpoint annotations (s : State) : list string :=
  match s with
  | emptyState => []
  | annotationState g a => a :: flat_map annotations (states g)
  | dependState children parent _ =>
      annotations parent ++ flat_map annotations (states children)
  | groupState g | shutdownState g _ _ | waitState g _ | errState g _
  | errGroupState g _ | valueState g _ _ | readinessState g _ =>
      flat_map annotations (states g)
  end.

(** [err] under the annotations of [path], the outermost first. *)
Definition annotated (path : list string) (err : error) : error :=
  foldr Errorf_annotate err path.

(** The message of an annotated error: the annotations, each followed by a
    colon and a space, then the message of the error. *)
Lemma Error_string_annotated (path : list string) (err : error) :
  Error_string (annotated path err) =
  foldr (λ a r, a +:+ ": " +:+ r) (Error_string err) path.
Proof.
  induction path as [|a path IH]; [done|].
  change (annotated (a :: path) err)
    with (Errorf_annotate a (annotated path err)).
  by rewrite Error_string_annotate, IH.
Qed.

(** [errors.Is] looks through the annotations. *)
Lemma Is_annotated (path : list string) (err target : error) :
  Is err target = true → Is (annotated path err) target = true.
Proof.
  intros H. induction path as [|a path IH]; [done|].
  change (annotated (a :: path) err)
    with (Errorf_annotate a (annotated path err)).
  unfold Errorf_annotate. cbn [Is]. rewrite IH. apply orb_true_r.
Qed.

Lemma elem_of_flat_map {A B : Type} (f : A → list B) (l : list A) (y : B) :
  y ∈ flat_map f l ↔ ∃ x, x ∈ l ∧ y ∈ f x.
Proof.
  rewrite list_elem_of_In, in_flat_map.
  by setoid_rewrite list_elem_of_In.
Qed.

Lemma first_non_nil_elem {A B : Type} (f : A → option B) (l : list A) (r : B) :
  first_non_nil f l = Some r → ∃ x, x ∈ l ∧ f x = Some r.
Proof.
  intros (i & x & Hi & Hx & _)%first_non_nil_Some. exists x.
  split; [by eapply list_elem_of_lookup_2|done].
Qed.

(** [e] is the error of a cell of [cells], under annotations of [notes]. *)
Definition stored_error (h : heap) (cells : list loc) (notes : list string)
    (e : error) : Prop :=
  ∃ l e0 path, l ∈ cells ∧ errs h !! l = Some e0 ∧ path ⊆ notes ∧
    e = annotated path e0.

Lemma stored_error_weaken (h : heap) (cells cells' : list loc)
    (notes notes' : list string) (e : error) :
  cells ⊆ cells' → notes ⊆ notes' →
  stored_error h cells notes e → stored_error h cells' notes' e.
Proof.
  intros Hc Hn (l & e0 & path & Hl & He0 & Hp & ->).
  exists l, e0, path. split_and!; [by apply Hc|done|by etrans|done].
Qed.

Lemma stored_error_scan (h : heap) (l : list State) (e : error) :
  Forall (λ s, ∀ e, Err h s = Some e →
               stored_error h (err_cells s) (annotations s) e) l →
  first_non_nil (Err h) l = Some e →
  stored_error h (flat_map err_cells l) (flat_map annotations l) e.
Proof.
  intros Hl (s & Hs & He)%first_non_nil_elem.
  rewrite Forall_forall in Hl.
  eapply stored_error_weaken; [| |by apply (Hl s Hs)].
  - intros x Hx. apply elem_of_flat_map. by exists s.
  - intros x Hx. apply elem_of_flat_map. by exists s.
Qed.

Lemma Err_stored_error (h : heap) (s : State) (e : error) :
  Err h s = Some e → stored_error h (err_cells s) (annotations s) e.
Proof.
  revert e.
  induction s as [|g IH|g e' d IH|g w IH|g l IH|g l IH|g k v IH|g r IH
                 |c p f IHc IHp|g a IH] using State_tree_ind;
    intros e; cbn [Err err_cells annotations];
    try (by apply stored_error_scan); [done| | | |].
  - intros He. exists l, e, []. split_and!; [set_solver|done|set_solver|done].
  - intros He. exists l, e, []. split_and!; [set_solver|done|set_solver|done].
  - destruct (Err h p) as [ep|] eqn:Hp.
    + intros [= <-]. eapply stored_error_weaken; [| |by apply IHp];
        set_solver.
    + intros He. eapply stored_error_weaken;
        [| |by apply (stored_error_scan h (states c))]; set_solver.
  - destruct (first_non_nil (Err h) (states g)) as [eg|] eqn:Hg; [|done].
    intros [= <-].
    destruct (stored_error_scan h (states g) eg IH Hg)
      as (l & e0 & path & Hl & He0 & Hp & ->).
    exists l, e0, (a :: path). split_and!; [done|done|set_solver|done].
Qed.

(** An error node under two annotations. *)
Definition annotated_failure : State * config :=
  let '(c, cfg) := withError (Some (errorString "refused")) [] config0 in
  let '(a, cfg) := withAnnotation "db" [Some c] cfg in
  withAnnotation "app" [Some a] cfg.

(** What [Err()] answers is an error stored in an error node of the tree,
    under annotations of the tree: [errors.Is] still finds the stored
    error, and the message is the annotations, each followed by a colon and
    a space, then the message of the stored error. *)
Theorem Err_answers_stored_error (h : heap) (s : State) (e : error) :
  Err h s = Some e →
  ∃ l e0 path, l ∈ err_cells s ∧ errs h !! l = Some e0 ∧
    path ⊆ annotations s ∧ Is e e0 = true ∧
    Error_string e = foldr (λ a r, a +:+ ": " +:+ r) (Error_string e0) path.
Proof.
  intros (l & e0 & path & Hl & He0 & Hp & ->)%Err_stored_error.
  exists l, e0, path. split_and!; [done..| |].
  - apply Is_annotated, Is_refl.
  - apply Error_string_annotated.
Qed.

Lemma Err_answers_stored_error_witness :
  Error_string
    (default ErrTimeout (Err (mem annotated_failure.2) annotated_failure.1)) =
    "app: db: refused" ∧
  ∃ l e0 path, l ∈ err_cells annotated_failure.1 ∧
    errs (mem annotated_failure.2) !! l = Some e0 ∧
    path ⊆ annotations annotated_failure.1 ∧
    Is (annotated ["app"; "db"] (errorString "refused")) e0 = true ∧
    Error_string (annotated ["app"; "db"] (errorString "refused")) =
      foldr (λ a r, a +:+ ": " +:+ r) (Error_string e0) path.
Proof.
  split; [reflexivity|].
  exact (Err_answers_stored_error (mem annotated_failure.2)
           annotated_failure.1
           (annotated ["app"; "db"] (errorString "refused")) eq_refl).
Defined.

Lemma timeout_scan (h : heap) (l : list State) (e : error) :
  Forall (λ s, ∀ e, cause h s = Some e →
               ∃ path, path ⊆ annotations s ∧ e = annotated path ErrTimeout) l →
  first_non_nil (cause h) l = Some e →
  ∃ path, path ⊆ flat_map annotations l ∧ e = annotated path ErrTimeout.
Proof.
  intros Hl (s & Hs & He)%first_non_nil_elem.
  rewrite Forall_forall in Hl.
  destruct (Hl s Hs e He) as (path & Hp & ->). exists path. split; [|done].
  intros x Hx. apply elem_of_flat_map. exists s. split; [done|by apply Hp].
Qed.

(** A running job under two annotations. *)
Definition annotated_job : State * config :=
  let '(j, cfg) := withShutdown [] config0 in
  let '(a, cfg) := withAnnotation "worker" [Some j] cfg in
  withAnnotation "app" [Some a] cfg.

(** What [cause()] answers, when it is not nil, is [ErrTimeout] under
    annotations of the tree: its message is those annotations, each followed
    by a colon and a space, then the message of [ErrTimeout]. *)
Theorem cause_is_annotated_timeout (h : heap) (s : State) (e : error) :
  cause h s = Some e →
  ∃ path, path ⊆ annotations s ∧ e = annotated path ErrTimeout ∧
    Error_string e = foldr (λ a r, a +:+ ": " +:+ r) "timeout expired" path.
Proof.
  assert (∀ e, cause h s = Some e →
            ∃ path, path ⊆ annotations s ∧ e = annotated path ErrTimeout) as H.
  { clear e.
    induction s as [|g IH|g e' d IH|g w IH|g l IH|g l IH|g k v IH|g r IH
                   |c p f IHc IHp|g a IH] using State_tree_ind;
      intros e; cbn [cause annotations];
      try (by apply timeout_scan); [done| | |].
    - destruct (first_non_nil (cause h) (states g)) as [eg|] eqn:Hg.
      + intros [= <-]. by apply (timeout_scan h (states g)).
      + destruct (is_closed h d); [done|]. intros [= <-]. exists []. split; [set_solver|done].
    - destruct (first_non_nil (cause h) (states c)) as [ec|] eqn:Hc.
      + intros [= <-].
        destruct (timeout_scan h (states c) ec IHc Hc) as (path & Hp & ->).
        exists path. split; [set_solver|done].
      + intros (path & Hp & ->)%IHp. exists path. split; [set_solver|done].
    - destruct (first_non_nil (cause h) (states g)) as [eg|] eqn:Hg; [|done].
      intros [= <-].
      destruct (timeout_scan h (states g) eg IH Hg) as (path & Hp & ->).
      exists (a :: path). split; [set_solver|done]. }
  intros (path & Hp & ->)%H. exists path. split_and!; [done..|].
  apply Error_string_annotated.
Qed.

Lemma cause_is_annotated_timeout_witness :
  ∃ path, path ⊆ annotations annotated_job.1 ∧
    annotated ["app"; "worker"] ErrTimeout = annotated path ErrTimeout ∧
    Error_string (annotated ["app"; "worker"] ErrTimeout) =
      foldr (λ a r, a +:+ ": " +:+ r) "timeout expired" path.
Proof.
  exact (cause_is_annotated_timeout (mem annotated_job.2) annotated_job.1
           (annotated ["app"; "worker"] ErrTimeout) eq_refl).
Defined.

(** ** Merge *)

(** A group among the children of a group may be replaced by its own
    children: [Err], [Value], [cause] and [Wait] scan the same nodes in the
    same order.  (Closing is another matter: the inner group has channels
    of its own.) *)
Theorem Merge_flattens_for_scans (h : heap) (key : iface)
    (before after : list State) (inner : group)
    (tc tc' : gset nat) (d f d' f' : chan) :
  let nested := groupState (mk_group (before ++ groupState inner :: after) tc d f) in
  let flat := groupState (mk_group (before ++ states inner ++ after) tc' d' f') in
  Err h nested = Err h flat ∧ Value nested key = Value flat key ∧
  cause h nested = cause h flat ∧ Wait nested = Wait flat.
Proof.
  cbn zeta. cbn [Err Value cause Wait states].
  rewrite !first_non_nil_app, !flat_map_app. cbn [first_non_nil flat_map].
  cbn [Err Value cause Wait]. rewrite ?first_non_nil_app, ?flat_map_app.
  by split_and!.
Qed.

Lemma merge_range_spawned (h : heap) (done_ : chan) (i : nat)
    (sts : list (option State)) :
  (merge_range h done_ i sts).2 =
  map (addToCloseStream done_)
    (List.filter (λ s, negb (is_closed h (finishSig s))) (omap id sts)).
Proof.
  revert i. induction sts as [|[s|] sts IH]; intros i;
    cbn [merge_range omap]; [done| |apply IH].
  specialize (IH (S i)).
  destruct (merge_range h done_ (S i) sts) as [[ss tc] sp]. cbn in IH.
  subst sp. cbn [id List.filter].
  destruct (is_closed h (finishSig s)) eqn:E; cbn; by rewrite E.
Qed.

(** [merge] keeps the inputs that are not nil, in their order, and starts
    one watcher, [<-done; c.close()], for each of them that has not finished
    yet, and for those only.  It closes no channel and touches nothing else
    of the heap; the goroutines that were running are as they were. *)
Theorem merge_keeps_inputs_and_starts_watchers (sts : list (option State))
    (cfg : config) :
  states (merge sts cfg).1 = omap id sts ∧
  pool (merge sts cfg).2 =
    pool cfg ++
    map (addToCloseStream (done (merge sts cfg).1))
      (List.filter (λ s, negb (is_closed (mem cfg) (finishSig s)))
         (omap id sts)) ∧
  closed (mem (merge sts cfg).2) = closed (mem cfg) ∧
  errs (mem (merge sts cfg).2) = errs (mem cfg) ∧
  wgs (mem (merge sts cfg).2) = wgs (mem cfg) ∧
  panicked (merge sts cfg).2 = panicked cfg.
Proof.
  split; [apply merge_states|]. rewrite merge_mem. unfold merge.
  destruct sts as [|s0 sts]; [by rewrite app_nil_r|].
  pose proof (merge_range_spawned (mem cfg) (next (mem cfg)) 0 (s0 :: sts))
    as Hsp.
  destruct (merge_range (mem cfg) (next (mem cfg)) 0 (s0 :: sts))
    as [[ss tc] sp]. cbn in Hsp. subst sp. done.
Qed.

(** ** Values *)

(** An answer of [Value(key)] that is not nil is a value some node of the
    tree binds to [key]; no node binding [key], the answer is nil. *)
Theorem Value_found_is_assigned (s : State) (key : iface) (v : eface) :
  Value s key = Some v → (key, Some v) ∈ assignments s.
Proof.
  assert (∀ l, Forall (λ s, Value s key = Some v →
                           (key, Some v) ∈ assignments s) l →
               first_non_nil (λ c, Value c key) l = Some v →
               (key, Some v) ∈ flat_map assignments l) as Hscan.
  { intros l Hl (c & Hc & Hv)%first_non_nil_elem.
    rewrite Forall_forall in Hl. apply elem_of_flat_map. exists c.
    split; [done|by apply Hl]. }
  induction s as [|g IH|g e d IH|g w IH|g l IH|g l IH|g k v' IH|g r IH
                 |c p f IHc IHp|g a IH] using State_tree_ind;
    cbn [Value assignments]; try (by apply Hscan); [done| |].
  - unfold iface_eq. case_bool_decide as Hk.
    + intros ->. subst k. left.
    + intros Hv. right. by apply Hscan.
  - destruct (Value p key) as [vp|] eqn:Hp.
    + intros [= <-]. apply elem_of_app. left. by apply IHp.
    + intros Hv. apply elem_of_app. right. by apply Hscan.
Qed.

(** A value node over a child that binds another key. *)
Definition two_keys : State :=
  valueState
    (mk_group [valueState no_children (Some (Eface reflect.tString (str "port")))
                 (Some (Eface reflect.tInt (int 8080)))]
       ∅ closedchan closedchan)
    (Some (Eface reflect.tString (str "host")))
    (Some (Eface reflect.tString (str "localhost"))).

Lemma Value_found_is_assigned_witness :
  (Some (Eface reflect.tString (str "port")),
   Some (Eface reflect.tInt (int 8080))) ∈ assignments two_keys.
Proof.
  exact (Value_found_is_assigned two_keys
           (Some (Eface reflect.tString (str "port")))
           (Eface reflect.tInt (int 8080)) eq_refl).
Defined.



(** ** Wait groups *)





(** The wait groups of a tree, in the order [Wait()] visits them. *)
Fixpoint waitgroups (s : State) : list loc :=
  match s with
  | emptyState => []
  | waitState g wg => wg :: flat_map waitgroups (states g)
  | dependState children parent _ =>
      flat_map waitgroups (states children) ++ waitgroups parent
  | groupState g | shutdownState g _ _ | errState g _ | errGroupState g _
  | valueState g _ _ | readinessState g _ | annotationState g _ =>
      flat_map waitgroups (states g)
  end.

Lemma flat_map_Wait (l : list State) :
  Forall (λ s, Wait s = map WgWait (waitgroups s)) l →
  flat_map Wait l = map WgWait (flat_map waitgroups l).
Proof.
  induction 1 as [|s l Hs _ IH]; [done|].
  cbn [flat_map]. by rewrite map_app, Hs, IH.
Qed.

Lemma Wait_waitgroups (s : State) : Wait s = map WgWait (waitgroups s).
Proof.
  induction s as [|g IH|g e d IH|g w IH|g l IH|g l IH|g k v IH|g r IH
                 |c p f IHc IHp|g a IH] using State_tree_ind;
    cbn [Wait waitgroups]; try (by apply flat_map_Wait); [done| |].
  - by rewrite flat_map_Wait.
  - by rewrite map_app, flat_map_Wait, IHp.
Qed.

Lemma waits_end (h : heap) (ws : list loc) (cfg : config) :
  rtc step (Config h [map WgWait ws] None) cfg →
  pool cfg !! 0 = Some [] →
  Forall (λ wg, counter h wg = 0%Z) ws.
Proof.
  intros Hsteps. remember (Config h [map WgWait ws] None) as cfg0 eqn:E0.
  revert ws E0.
  induction Hsteps as [cfg|cfg1 cfg2 cfg3 Hs _ IH]; intros ws ->.
  - cbn. intros [= Hnil]. by destruct ws.
  - destruct Hs as (tid & choice & Hs). unfold step_at in Hs.
    cbn [panicked pool mem] in Hs.
    destruct tid as [|tid]; [|done]. cbn in Hs.
    destruct ws as [|wg ws]; [done|]. cbn in Hs.
    case_bool_decide as Hz; [|done]. injection Hs as <-.
    intros Hend. constructor; [done|]. by apply IH.
Qed.

Lemma waits_pass (h : heap) (ws : list loc) :
  Forall (λ wg, counter h wg = 0%Z) ws →
  rtc step (Config h [map WgWait ws] None) (Config h [[]] None).
Proof.
  induction 1 as [|wg ws Hz _ IH]; [done|].
  eapply rtc_l; [|exact IH]. exists 0, 0. unfold step_at. cbn.
  by rewrite bool_decide_eq_true_2.
Qed.

(** A goroutine in [Wait()] on a tree, the counters staying as they are,
    returns exactly when every wait group of the tree is at zero; on a tree
    without wait groups it returns at once. *)
Theorem Wait_returns_iff_counters_zero (h : heap) (s : State) :
  (∃ cfg, rtc step (Config h [Wait s] None) cfg ∧ pool cfg !! 0 = Some []) ↔
  Forall (λ wg, counter h wg = 0%Z) (waitgroups s).
Proof.
  rewrite Wait_waitgroups. split.
  - intros (cfg & Hsteps & Hend). by eapply waits_end.
  - intros Hz. exists (Config h [[]] None). split; [by apply waits_pass|done].
Qed.

(** ** New nodes *)

Lemma withShutdown_fields (sts : list (option State)) (cfg : config) :
  withShutdown sts cfg =
  (shutdownState (merge sts cfg).1 (S (next (mem (merge sts cfg).2)))
     (next (mem (merge sts cfg).2)),
   Config (alloc 2 (mem (merge sts cfg).2)) (pool (merge sts cfg).2)
     (panicked (merge sts cfg).2)).
Proof. unfold withShutdown. by destruct (merge sts cfg). Qed.

(** A new shutdown node has neither finished nor been told to end, and a
    new dependency has not finished, whatever their children are; a group
    merged from at least one input, be it nil or finished, has not finished
    either: it takes a [close()] to finish them. *)
Theorem new_nodes_are_unfinished (p : State) (children : list (option State))
    (cfg : config) :
  fresh_from (mem cfg) →
  (is_closed (mem (withShutdown children cfg).2)
     (finishSig (withShutdown children cfg).1) = false ∧
   is_closed (mem (withShutdown children cfg).2)
     (End (withShutdown children cfg).1) = false) ∧
  is_closed (mem (withDependency p children cfg).2)
    (finishSig (withDependency p children cfg).1) = false ∧
  (children ≠ [] →
   is_closed (mem (Merge children cfg).2)
     (finishSig (Merge children cfg).1) = false).
Proof.
  intros Hf. pose proof (fresh_from_merge children cfg Hf) as Hm.
  split_and!.
  - rewrite withShutdown_fields. cbn [fst snd mem finishSig alloc closed].
    apply is_closed_false. unfold alloc. cbn [closed]. by apply Hm.
  - rewrite withShutdown_fields. cbn [fst snd mem End].
    apply is_closed_false. unfold alloc. cbn [closed]. apply Hm. lia.
  - rewrite withDependency_fields. unfold withDependency.
    destruct (merge children cfg) as [g cfg1]. cbn [fst snd mem finishSig] in *.
    apply is_closed_false. unfold alloc. cbn [closed]. by apply Hm.
  - intros Hne. unfold Merge, merge. destruct children as [|c children]; [done|].
    destruct (merge_range _ _ _ _) as [[ss tc] sp].
    cbn [fst snd mem finishSig finished]. apply is_closed_false.
    unfold alloc. cbn [closed]. apply Hf. lia.
Qed.

(** At program start: [Merge(nil)] has not finished. *)
Lemma new_nodes_are_unfinished_witness :
  is_closed (mem (Merge [None] config0).2)
    (finishSig (Merge [None] config0).1) = false.
Proof.
  refine (proj2 (proj2 (new_nodes_are_unfinished Empty [None] config0
                          fresh_from_heap0)) _).
  discriminate.
Defined.

(** ** A shutdown node ends after its children *)






(** ** Who may close a channel *)

Section ownership.

(** [owners] maps a channel that is closed by a plain [close(c)] to the
    channel whose first closing gives the right to do so: the [finished]
    channel of a group to its [done] channel, [closedchan] to itself. *)
Variable owners : gmap chan chan.

(** How many [close(c)] a statement may still run, not counting those it
    would run on being the first to close the owner of [c]. *)
Fixpoint closes (c : chan) (i : instr) : nat :=
  match i with
  | Close c' => if decide (c' = c) then 1 else 0
  | Go body => list_sum (map (closes c) body)
  | CloseOnce k already fresh =>
      list_sum (map (closes c) already) +
      (if decide (owners !! c = Some k) then 0
       else list_sum (map (closes c) fresh))
  | Recv _ | Range _ _ | Index _ _ | WgWait _ => 0
  end.

Definition closes_in (c : chan) (t : goroutine) : nat :=
  list_sum (map (closes c) t).

Definition closes_pool (c : chan) (p : list goroutine) : nat :=
  list_sum (map (closes_in c) p).

(** A statement that closes once only channels without an owner, runs at
    most one [close(c)] on being the first to close the owner of [c], and
    indexes within bounds. *)
Fixpoint careful (i : instr) : Prop :=
  match i with
  | CloseOnce k already fresh =>
      (owners !! k = None ∨ k = closedchan) ∧
      (∀ c, owners !! c = Some k → list_sum (map (closes c) fresh) ≤ 1) ∧
      fold_right (λ i P, careful i ∧ P) True already ∧
      fold_right (λ i P, careful i ∧ P) True fresh
  | Go body => fold_right (λ i P, careful i ∧ P) True body
  | Range keys sigs => ∀ i, i ∈ keys → i < length sigs
  | Index i sigs => i < length sigs
  | Recv _ | Close _ | WgWait _ => True
  end.

Lemma careful_fold (t : goroutine) :
  fold_right (λ i P, careful i ∧ P) True t ↔ Forall careful t.
Proof.
  induction t as [|i t IH]; cbn [fold_right]; [by split; [constructor|]|].
  rewrite Forall_cons. by rewrite IH.
Qed.

Lemma closes_in_cons (c : chan) (i : instr) (t : goroutine) :
  closes_in c (i :: t) = closes c i + closes_in c t.
Proof. done. Qed.

Lemma closes_in_app (c : chan) (t1 t2 : goroutine) :
  closes_in c (t1 ++ t2) = closes_in c t1 + closes_in c t2.
Proof. unfold closes_in. by rewrite map_app, list_sum_app. Qed.

Lemma closes_pool_app (c : chan) (p1 p2 : list goroutine) :
  closes_pool c (p1 ++ p2) = closes_pool c p1 + closes_pool c p2.
Proof. unfold closes_pool. by rewrite map_app, list_sum_app. Qed.

Lemma closes_pool_insert (c : chan) (p : list goroutine) (tid : nat)
    (t t' : goroutine) :
  p !! tid = Some t →
  closes_pool c (<[tid := t']> p) + closes_in c t =
  closes_pool c p + closes_in c t'.
Proof.
  revert tid. induction p as [|x p IH]; intros [|tid] Ht; try done.
  - injection Ht as ->.
    change (closes_pool c (t' :: p) + closes_in c t =
            closes_pool c (t :: p) + closes_in c t').
    unfold closes_pool. cbn [map list_sum fold_right]. lia.
  - specialize (IH tid Ht).
    change (closes_pool c (x :: <[tid := t']> p) + closes_in c t =
            closes_pool c (x :: p) + closes_in c t').
    unfold closes_pool, list_sum in *. cbn [map fold_right] in *. lia.
Qed.

(** What a step does to the count: the goroutine [tid] goes from [t] to
    [t'] and starts [spawned]. *)
Lemma closes_pool_step (c : chan) (p spawned : list goroutine) (tid : nat)
    (t t' : goroutine) :
  p !! tid = Some t →
  closes_pool c (<[tid := t']> p ++ spawned) + closes_in c t =
  closes_pool c p + closes_in c t' + closes_pool c spawned.
Proof.
  intros Ht. rewrite closes_pool_app.
  pose proof (closes_pool_insert c p tid t t' Ht). lia.
Qed.

(** The channel [c] is closed at most once: while its owner is open it is
    open and nobody is about to close it; afterwards at most one
    [close(c)] is still to run, and none once [c] is closed. *)
Definition closed_once_only (h : heap) (p : list goroutine) (c : chan) : Prop :=
  match owners !! c with
  | None => closes_pool c p = 0
  | Some k =>
      (k ∉ closed h → (c ∉ closed h) ∧ closes_pool c p = 0) ∧
      closes_pool c p + (if decide (c ∈ closed h) then 1 else 0) ≤ 1
  end.

Definition safe (cfg : config) : Prop :=
  panicked cfg = None ∧ closedchan ∈ closed (mem cfg) ∧
  Forall (Forall careful) (pool cfg) ∧
  ∀ c, closed_once_only (mem cfg) (pool cfg) c.

(** With the heap as it is, fewer pending [close(c)] are as good. *)
Lemma closed_once_only_fewer (h : heap) (p p' : list goroutine) (c : chan) :
  closes_pool c p' ≤ closes_pool c p →
  closed_once_only h p c → closed_once_only h p' c.
Proof.
  unfold closed_once_only. intros Hle. destruct (owners !! c) as [k|]; [|lia].
  intros [H1 H2]. split; [|lia]. intros Hk. destruct (H1 Hk). split; [done|lia].
Qed.

(** Closing a channel that was open and is not [c], no [close(c)] being
    added, keeps [c] closed at most once. *)
Lemma closed_once_only_other (h : heap) (p p' : list goroutine) (c k : chan) :
  c ≠ k → k ∉ closed h →
  closes_pool c p' ≤ closes_pool c p →
  closed_once_only h p c → closed_once_only (set_closed k h) p' c.
Proof.
  unfold closed_once_only. intros Hck Hk Hle.
  destruct (owners !! c) as [k'|]; [|lia].
  cbn [set_closed closed]. intros [H1 H2].
  destruct (decide (k' = k)) as [->|Hk'].
  - destruct (H1 Hk) as [Hc Hz]. split; [set_solver|].
    destruct (decide (c ∈ {[k]} ∪ closed h)); [set_solver|lia].
  - split.
    + intros Hopen. destruct H1 as [H1 H1']; [set_solver|].
      split; [set_solver|lia].
    + destruct (decide (c ∈ closed h)), (decide (c ∈ {[k]} ∪ closed h));
        try lia; set_solver.
Qed.

Lemma closes_in_le_pool (c : chan) (p : list goroutine) (tid : nat)
    (t : goroutine) :
  p !! tid = Some t → closes_in c t ≤ closes_pool c p.
Proof.
  intros Ht. pose proof (closes_pool_insert c p tid t [] Ht) as H.
  change (closes_in c []) with 0 in H. lia.
Qed.

Lemma careful_update (p spawned : list goroutine) (tid : nat) (t : goroutine) :
  Forall (Forall careful) p → Forall careful t →
  Forall (Forall careful) spawned →
  Forall (Forall careful) (<[tid := t]> p ++ spawned).
Proof.
  intros Hp Ht Hs. apply Forall_app. split; [|done].
  by apply Forall_insert.
Qed.

(** A step that leaves the heap as it is and adds no [close]. *)
Lemma safe_same_heap (cfg : config) (tid : nat) (t r : goroutine)
    (spawned : list goroutine) :
  safe cfg → pool cfg !! tid = Some t →
  Forall careful r → Forall (Forall careful) spawned →
  (∀ c, closes_in c r + closes_pool c spawned ≤ closes_in c t) →
  safe (Config (mem cfg) (<[tid := r]> (pool cfg) ++ spawned) None).
Proof.
  intros (Hp & H0 & Hcare & Hown) Ht Hr Hsp Hle.
  split_and!; [done|done|by apply careful_update|].
  intros c. cbn [mem pool].
  eapply closed_once_only_fewer; [|apply Hown].
  pose proof (closes_pool_step c (pool cfg) spawned tid t r Ht).
  specialize (Hle c). lia.
Qed.

(** A step of a safe program does not panic, and leaves it safe. *)
Lemma safe_step (cfg cfg' : config) : safe cfg → step cfg cfg' → safe cfg'.
Proof.
  intros Hsafe (tid & choice & Hstep).
  pose proof Hsafe as (Hp & H0 & Hcare & Hown).
  unfold step_at in Hstep. rewrite Hp in Hstep.
  destruct (pool cfg !! tid) as [t|] eqn:Ht; [|done].
  assert (Forall careful t) as Ht_care by (by eapply Forall_lookup_1).
  destruct t as [|i rest]; [done|].
  apply Forall_cons in Ht_care as [Hi Hrest].
  destruct i as [c|c|k already fresh|body|keys sigs|j sigs|l];
    cbn [exec] in Hstep.
  - (* Recv *)
    destruct (is_closed (mem cfg) c); [|done]. injection Hstep as <-.
    eapply safe_same_heap; [done..|]. intros c0.
    rewrite closes_in_cons. change (closes_pool c0 []) with 0. lia.
  - (* Close *)
    pose proof (closes_in_le_pool c _ _ _ Ht) as Hge.
    rewrite closes_in_cons in Hge. cbn [closes] in Hge.
    rewrite decide_True in Hge by done.
    pose proof (Hown c) as Hc. unfold closed_once_only in Hc.
    destruct (owners !! c) as [k|] eqn:Hk; [|lia].
    destruct Hc as [Hc1 Hc2].
    destruct (decide (k ∈ closed (mem cfg))) as [Hkc|Hkc];
      [|destruct (Hc1 Hkc); lia].
    destruct (is_closed (mem cfg) c) eqn:Hcl.
    { apply is_closed_true in Hcl. rewrite decide_True in Hc2 by done. lia. }
    apply is_closed_false in Hcl. rewrite decide_False in Hc2 by done.
    injection Hstep as <-.
    split_and!; [done|cbn; set_solver|by apply careful_update|].
    intros c0. cbn [mem pool].
    pose proof (closes_pool_step c0 (pool cfg) [] tid _ rest Ht) as Hsum.
    rewrite closes_in_cons in Hsum. cbn [closes] in Hsum.
    change (closes_pool c0 []) with 0 in Hsum.
    destruct (decide (c0 = c)) as [->|Hne].
    + rewrite decide_True in Hsum by done.
      unfold closed_once_only. rewrite Hk. cbn [set_closed closed]. split.
      * intros Hopen. set_solver.
      * rewrite decide_True by set_solver. lia.
    + rewrite decide_False in Hsum by done.
      apply (closed_once_only_other _ (pool cfg)); [done|done|lia|apply Hown].
  - (* CloseOnce *)
    destruct Hi as (Hkown & Hone & Ha%careful_fold & Hf%careful_fold).
    destruct (is_closed (mem cfg) k) eqn:Hcl; injection Hstep as <-.
    + eapply safe_same_heap; [done..|by apply Forall_app|done|].
      intros c0. rewrite closes_in_cons, closes_in_app. cbn [closes].
      change (closes_pool c0 []) with 0. fold (closes_in c0 already). lia.
    + apply is_closed_false in Hcl.
      assert (owners !! k = None) as Hknone.
      { destruct Hkown as [?| ->]; [done|]. done. }
      split_and!; [done|cbn; set_solver| |].
      { apply careful_update; [done|by apply Forall_app|done]. }
      intros c0. cbn [mem pool].
      pose proof (closes_pool_step c0 (pool cfg) [] tid _ (fresh ++ rest) Ht)
        as Hsum.
      pose proof (closes_in_le_pool c0 _ _ _ Ht) as Hge.
      rewrite closes_in_cons in Hsum, Hge. rewrite closes_in_app in Hsum.
      cbn [closes] in Hsum, Hge.
      fold (closes_in c0 already) (closes_in c0 fresh) in Hsum, Hge.
      change (closes_pool c0 []) with 0 in Hsum.
      destruct (decide (owners !! c0 = Some k)) as [Hc0|Hc0].
      * specialize (Hone c0 Hc0). fold (closes_in c0 fresh) in Hone.
        pose proof (Hown c0) as Hinv. unfold closed_once_only in *.
        rewrite Hc0 in *. destruct Hinv as [H1 _].
        destruct (H1 Hcl) as [Hopen Hz].
        assert (c0 ≠ k) as Hne by congruence.
        cbn [set_closed closed]. split; [set_solver|].
        rewrite decide_False by set_solver. lia.
      * destruct (decide (c0 = k)) as [->|Hne].
        -- pose proof (Hown k) as Hinv. unfold closed_once_only in *.
           rewrite Hknone in *. lia.
        -- apply (closed_once_only_other _ (pool cfg));
             [done|done|lia|apply Hown].
  - (* Go *)
    injection Hstep as <-. apply careful_fold in Hi.
    eapply safe_same_heap; [done..|by constructor|].
    intros c0. rewrite closes_in_cons. cbn [closes].
    unfold closes_pool. cbn [map list_sum fold_right].
    fold (closes_in c0 body). unfold list_sum. cbn [fold_right]. lia.
  - (* Range *)
    destruct (elements keys) as [|first others] eqn:Hel;
      injection Hstep as <-.
    + eapply safe_same_heap; [done..|]. intros c0.
      rewrite closes_in_cons. change (closes_pool c0 []) with 0. lia.
    + set (i := default first ((first :: others) !! choice)).
      assert (i ∈ keys) as Hin.
      { apply elem_of_elements. rewrite Hel. unfold i.
        destruct ((first :: others) !! choice) as [x|] eqn:Hx; cbn.
        - by eapply list_elem_of_lookup_2.
        - left. }
      eapply safe_same_heap; [done..| |done|].
      * constructor; [by apply Hi|]. constructor; [|done].
        intros i' Hi'. apply Hi. set_solver.
      * intros c0. rewrite !closes_in_cons. cbn [closes].
        change (closes_pool c0 []) with 0. lia.
  - (* Index *)
    cbn [careful] in Hi. apply lookup_lt_is_Some_2 in Hi as [c Hc].
    rewrite Hc in Hstep. injection Hstep as <-.
    eapply safe_same_heap; [done..|by constructor|done|]. intros c0.
    rewrite !closes_in_cons. cbn [closes].
    change (closes_pool c0 []) with 0. lia.
  - (* WgWait *)
    destruct (bool_decide _); [|done]. injection Hstep as <-.
    eapply safe_same_heap; [done..|]. intros c0.
    rewrite closes_in_cons. change (closes_pool c0 []) with 0. lia.
Qed.

Lemma safe_rtc (cfg cfg' : config) : safe cfg → rtc step cfg cfg' → safe cfg'.
Proof.
  intros Hs Hsteps. induction Hsteps as [|cfg1 cfg2 cfg3 Hst _ IH]; [done|].
  apply IH. by eapply safe_step.
Qed.

Hypothesis closedchan_owned : owners !! closedchan = Some closedchan.

(** The group indexes its children within bounds, and [owners] knows it:
    it is the group of no states, on [closedchan], or its [done] has no
    owner and owns its [finished]. *)
Definition group_owned (g : group) : Prop :=
  (∀ i, i ∈ toClose g → i < length (states g)) ∧
  ((done g = closedchan ∧ finished g = closedchan) ∨
   (owners !! done g = None ∧ owners !! finished g = Some (done g))).

Fixpoint node_owned (s : State) : Prop :=
  match s with
  | emptyState => True
  | shutdownState g end_ done_ =>
      group_owned g ∧ owners !! end_ = None ∧ owners !! done_ = None
  | dependState children parent finished_ =>
      group_owned children ∧ node_owned parent ∧ owners !! finished_ = None
  | groupState g | waitState g _ | errState g _ | errGroupState g _
  | valueState g _ _ | readinessState g _ | annotationState g _ =>
      group_owned g
  end.

Lemma careful_group_close (g : group) :
  group_owned g → Forall careful (group_close g).
Proof.
  intros [Hin Hg]. unfold group_close. constructor; [|done].
  cbn [careful fold_right]. split_and!; try done.
  - destruct Hg as [[-> _]|[Hd _]]; [by right|by left].
  - intros c _. cbn. destruct (decide (finished g = c)); lia.
  - intros i Hi. rewrite length_map. by apply Hin.
Qed.

Lemma closes_group_close (g : group) (c : chan) :
  group_owned g → closes_in c (group_close g) = 0.
Proof.
  intros [_ Hg]. unfold group_close, closes_in. cbn.
  destruct (decide (owners !! c = Some (done g))) as [|Hne]; [done|].
  destruct (decide (finished g = c)) as [<-|]; [|done].
  destruct Hg as [[Hd Hf]|[_ Hf]]; [|done].
  rewrite Hd, Hf in Hne. done.
Qed.

Lemma careful_Done (c : chan) : owners !! c = None → Forall careful (Done c).
Proof.
  intros Hc. constructor; [|done]. cbn [careful fold_right].
  split_and!; [by left|intros; cbn; lia|done|done].
Qed.

Lemma closes_Done (c c' : chan) : closes_in c (Done c') = 0.
Proof. unfold closes_in. cbn. by destruct (decide _). Qed.

Lemma careful_close (s : State) : node_owned s → Forall careful (close s).
Proof.
  induction s as [|g _|g e d _|g w _|g l _|g l _|g k v _|g r _
                 |c p f _ IHp|g a _] using State_tree_ind;
    cbn [close node_owned]; try (by apply careful_group_close); [done| |].
  - intros (Hg & He & _). constructor; [|constructor; [done|]].
    + cbn [careful]. apply careful_fold. by apply careful_group_close.
    + by apply careful_Done.
  - intros (Hc & Hp & Hf). repeat apply Forall_app_2;
      [by apply careful_group_close|by constructor|by apply IHp
      |by constructor|by apply careful_Done].
Qed.

Lemma closes_close (s : State) (c : chan) :
  node_owned s → closes_in c (close s) = 0.
Proof.
  induction s as [|g _|g e d _|g w _|g l _|g l _|g k v _|g r _
                 |ch p f _ IHp|g a _] using State_tree_ind;
    cbn [close node_owned]; try (by apply closes_group_close); [done| |].
  - intros (Hg & _).
    change (closes_in c ([Go (group_close g); Recv (finished g)] ++ Done e) = 0).
    rewrite closes_in_app, closes_Done, !closes_in_cons. cbn [closes].
    fold (closes_in c (group_close g)). by rewrite closes_group_close.
  - intros (Hc & Hp & _). rewrite !closes_in_app.
    rewrite closes_group_close, IHp, closes_Done by done. done.
Qed.

(** The goroutines of the package and of its callers' jobs: a call of
    [close()], a watcher started by [merge], a call of [Done()], a job that
    waits for [End()] and calls [Done()], a call of [Wait()]. *)
Inductive package_goroutine : goroutine → Prop :=
| pg_close (s : State) : node_owned s → package_goroutine (close s)
| pg_watcher (d : chan) (s : State) :
    node_owned s → package_goroutine (addToCloseStream d s)
| pg_Done (d : chan) : owners !! d = None → package_goroutine (Done d)
| pg_job (e d : chan) :
    owners !! d = None → package_goroutine (Recv e :: Done d)
| pg_Wait (s : State) : package_goroutine (Wait s).

Lemma package_goroutine_careful (t : goroutine) :
  package_goroutine t → Forall careful t ∧ ∀ c, closes_in c t = 0.
Proof.
  intros [s Hs|d s Hs|d Hd|e d Hd|s].
  - split; [by apply careful_close|]. intros c. by apply closes_close.
  - split; [constructor; [done|by apply careful_close]|].
    intros c. unfold addToCloseStream. rewrite closes_in_cons.
    by rewrite closes_close.
  - split; [by apply careful_Done|]. intros c. apply closes_Done.
  - split; [constructor; [done|by apply careful_Done]|].
    intros c. rewrite closes_in_cons. by rewrite closes_Done.
  - rewrite Wait_waitgroups. split.
    + apply Forall_forall. intros i (wg & <- & _)%list_elem_of_In%in_map_iff.
      done.
    + intros c. unfold closes_in. rewrite map_map. cbn.
      induction (waitgroups s) as [|wg ws IH]; [done|]. done.
Qed.

Lemma package_pool_safe (cfg : config) :
  panicked cfg = None → closedchan ∈ closed (mem cfg) →
  (∀ c k, owners !! c = Some k → c ∈ closed (mem cfg) → k ∈ closed (mem cfg)) →
  Forall package_goroutine (pool cfg) → safe cfg.
Proof.
  intros Hp H0 Hk Hpool.
  assert (∀ c, closes_pool c (pool cfg) = 0) as Hz.
  { intros c. induction Hpool as [|t p Ht _ IH]; [done|].
    change (closes_pool c (t :: p)) with (closes_in c t + closes_pool c p).
    destruct (package_goroutine_careful t Ht) as [_ ->]. by rewrite IH. }
  split_and!; [done|done| |].
  - eapply Forall_impl; [exact Hpool|]. intros t Ht.
    by apply package_goroutine_careful.
  - intros c. unfold closed_once_only. rewrite Hz.
    destruct (owners !! c) as [k|] eqn:Hown; [|done]. split.
    + intros Hopen. split; [|done]. intros Hc. by apply Hopen, (Hk c).
    + destruct (decide _); lia.
Qed.

End ownership.

(** Without nil inputs the keys of [toClose] index the states of the group. *)
Lemma merge_in_range (ss : list State) (cfg : config) (i : nat) :
  i ∈ toClose (merge (Some <$> ss) cfg).1 →
  i < length (states (merge (Some <$> ss) cfg).1).
Proof.
  rewrite merge_states, omap_id_Some. intros (s & Hs & _)%merge_toClose.
  rewrite list_lookup_fmap in Hs.
  destruct (ss !! i) eqn:E; [|done]. by eapply lookup_lt_Some.
Qed.

(** The owners of [dependency_started]: the children group of [d]. *)
Definition dependency_owners : gmap chan chan :=
  match dependency_started.1 with
  | dependState c p f => <[closedchan := closedchan]> {[finished c := done c]}
  | _ => ∅
  end.

Lemma dependency_started_package :
  Forall (package_goroutine dependency_owners) (pool dependency_started.2).
Proof.
  set (p := two_jobs.1.1). set (a := two_jobs.1.2).
  set (c := (merge (Some <$> [a]) two_jobs.2).1).
  set (d := dependState c p 7).
  assert (dependency_started.1 = d) as Hd by reflexivity.
  assert (pool dependency_started.2 =
          [addToCloseStream (done c) a; Recv 2 :: Done 1; Recv 4 :: Done 3;
           close d]) as -> by reflexivity.
  assert (∀ ch, ch ≠ 0 → ch ≠ 6 → dependency_owners !! ch = None) as Hnone.
  { intros ch H0 H6. unfold dependency_owners. rewrite Hd. unfold d.
    rewrite lookup_insert_ne by done. by rewrite lookup_singleton_ne. }
  assert (dependency_owners !! 6 = Some 5) as H6.
  { unfold dependency_owners. rewrite Hd. unfold d.
    rewrite lookup_insert_ne by done. by rewrite lookup_singleton_eq. }
  assert (group_owned dependency_owners no_children) as Hempty.
  { split; [|by left]. intros i Hi. cbn in Hi. set_solver. }
  assert (node_owned dependency_owners p) as Hp.
  { split_and!; [exact Hempty|by apply Hnone..]. }
  assert (node_owned dependency_owners a) as Ha.
  { split_and!; [exact Hempty|by apply Hnone..]. }
  assert (node_owned dependency_owners d) as Hdo.
  { split_and!; [|done|by apply Hnone].
    split; [apply merge_in_range|]. right. split; [by apply Hnone|exact H6]. }
  repeat apply Forall_cons_2; [| | | |apply Forall_nil_2].
  - by apply pg_watcher.
  - apply pg_job. by apply Hnone.
  - apply pg_job. by apply Hnone.
  - by apply pg_close.
Qed.

(** A program made of the goroutines of the package, on nodes whose groups
    index their children within bounds (as [merge] builds them from inputs
    without nil) and whose channels [owners] tells apart, never panics,
    whatever the interleaving and however many goroutines call [close()]
    and [Done()] on the same nodes: no channel is closed twice and no index
    is out of range. *)
Theorem closing_never_panics (owners : gmap chan chan) (cfg0 cfg : config) :
  owners !! closedchan = Some closedchan →
  panicked cfg0 = None → closedchan ∈ closed (mem cfg0) →
  (∀ c k, owners !! c = Some k →
     c ∈ closed (mem cfg0) → k ∈ closed (mem cfg0)) →
  Forall (package_goroutine owners) (pool cfg0) →
  rtc step cfg0 cfg → panicked cfg = None.
Proof.
  intros H0 Hp Hc Hk Hpool Hsteps.
  by destruct (safe_rtc owners cfg0 cfg
                 (package_pool_safe owners H0 cfg0 Hp Hc Hk Hpool) Hsteps).
Qed.

(** On [dependency_started], however far it runs. *)
Lemma closing_never_panics_witness :
  panicked (run (round_robin 30 4) dependency_started.2) = None.
Proof.
  assert (∀ c k, dependency_owners !! c = Some k →
            c ∈ closed (mem dependency_started.2) →
            k ∈ closed (mem dependency_started.2)) as Hk.
  { intros c k Hown. change (closed (mem dependency_started.2))
      with ({[closedchan]} : gset chan).
    intros ->%elem_of_singleton.
    assert (dependency_owners !! closedchan = Some closedchan) as E
      by reflexivity.
    rewrite E in Hown. injection Hown as <-. set_solver. }
  assert (closedchan ∈ closed (mem dependency_started.2)) as Hc.
  { change (closed (mem dependency_started.2)) with ({[closedchan]} : gset chan).
    set_solver. }
  exact (closing_never_panics dependency_owners dependency_started.2
           (run (round_robin 30 4) dependency_started.2)
           eq_refl eq_refl Hc Hk dependency_started_package
           (run_rtc (round_robin 30 4) dependency_started.2)).
Defined.

(** * Readiness *)

(** [Ready()] works on fields the closing code does not touch: the lazily
    made channels [group.ready], [dependState.ready] and
    [readinessState.readyOut].  This part embeds the same structs with
    those fields: a node carries the address of its cell, and the heap maps
    a cell to its channel once [Ready()] has made it.  [emptyState] has no
    [Ready] method in the sources at hand and is left out. *)

Module readiness.

(** The nodes, as [Ready()] sees them.  Every variant that embeds [*group]
    and has no [Ready] method of its own (shutdown, wait, error, value and
    annotation states) answers with [group.Ready] of its group: it is a
    [group_node]. *)
Inductive node : Type :=
| group_node (ready_cell : loc) (states : list node)
| readiness_node (readyOut_cell : loc) (ready : chan)
    (group_cell : loc) (states : list node)
| depend_node (ready_cell : loc) (children_cell : loc) (children : list node)
    (parent : node).

(** Induction over the tree, with the children under [Forall]. *)
Section node_induction.
Variable P : node → Prop.
Hypothesis Hgroup : ∀ c l, Forall P l → P (group_node c l).
Hypothesis Hreadiness : ∀ c r gc l, Forall P l → P (readiness_node c r gc l).
Hypothesis Hdepend : ∀ c cc l p, Forall P l → P p → P (depend_node c cc l p).

Fixpoint node_tree_ind (n : node) : P n :=
  let all :=
    fix all (l : list node) : Forall P l :=
      match l with
      | [] => @List.Forall_nil _ P
      | x :: r => @List.Forall_cons _ P x r (node_tree_ind x) (all r)
      end in
  match n with
  | group_node c l => Hgroup c l (all l)
  | readiness_node c r gc l => Hreadiness c r gc l (all l)
  | depend_node c cc l p => Hdepend c cc l p (all l) (node_tree_ind p)
  end.
End node_induction.

(** The cell of the channel [Ready()] hands out. *)
Definition cell (n : node) : loc :=
  match n with
  | group_node c _ | readiness_node c _ _ _ | depend_node c _ _ _ => c
  end.

Record heap : Type := Heap {
  closed : gset chan;      (* the channels that have been closed *)
  ready_of : gmap loc chan; (* the cells that are not nil any more *)
  next : chan;             (* the next channel [make] returns *)
}.

Definition is_closed (h : heap) (c : chan) : bool := bool_decide (c ∈ closed h).

Definition set_closed (c : chan) (h : heap) : heap :=
  {| closed := {[c]} ∪ closed h; ready_of := ready_of h; next := next h |}.

(** The statements of the goroutines. *)
Inductive instr : Type :=
| RecvReady (n : node)   (* [<-n.Ready()]: the call; the receive follows *)
| Recv (c : chan)        (* [<-c] *)
| Close (c : chan)       (* [close(c)]: panics when [c] is closed already *)
| Ok (c : chan).         (* [readinessState.Ok()] on the node with [ready = c] *)

Abbreviation goroutine := (list instr).

(** The goroutine [Ready()] starts for the channel [out] it has made:
    [group.Ready] receives from [Ready()] of each state in turn,
    [readinessState.Ready] from that of its group and then from [ready],
    [dependState.Ready] from that of the children and of the parent; each
    then closes [out]. *)
Definition ready_body (n : node) (out : chan) : goroutine :=
  match n with
  | group_node _ states => map RecvReady states ++ [Close out]
  | readiness_node _ ready group_cell states =>
      [RecvReady (group_node group_cell states); Recv ready; Close out]
  | depend_node _ children_cell children parent =>
      [RecvReady (group_node children_cell children); RecvReady parent;
       Close out]
  end.

(** [n.Ready()], under the lock of [n]: the channel of the cell when there
    is one, else a new channel, stored in the cell, and the goroutine that
    will close it. *)
Definition Ready (n : node) (h : heap) : chan * heap * list goroutine :=
  match ready_of h !! cell n with
  | Some out => (out, h, [])
  | None =>
      let out := next h in
      (out,
       {| closed := closed h; ready_of := <[cell n := out]> (ready_of h);
          next := S (next h) |},
       [ready_body n out])
  end.

Inductive outcome : Type :=
| Stepped (h : heap) (rest : goroutine) (spawned : list goroutine)
| Blocked
| Exited
| Panicked (msg : string).

Definition exec (h : heap) (t : goroutine) : outcome :=
  match t with
  | [] => Exited
  | RecvReady n :: k =>
      let '(out, h', spawned) := Ready n h in Stepped h' (Recv out :: k) spawned
  | Recv c :: k => if is_closed h c then Stepped h k [] else Blocked
  | Close c :: k =>
      if is_closed h c then Panicked "close of closed channel"
      else Stepped (set_closed c h) k []
  | Ok c :: k =>
      if is_closed h c then Stepped h k [] else Stepped (set_closed c h) k []
  end.

Record config : Type := Config {
  mem : heap;
  pool : list goroutine;
  panicked : option string;
}.

Definition step_at (tid : nat) (cfg : config) : option config :=
  match panicked cfg, pool cfg !! tid with
  | None, Some t =>
      match exec (mem cfg) t with
      | Stepped h rest spawned =>
          Some (Config h (<[tid := rest]> (pool cfg) ++ spawned) None)
      | Panicked msg => Some (Config (mem cfg) (pool cfg) (Some msg))
      | Blocked | Exited => None
      end
  | _, _ => None
  end.

Definition step (cfg cfg' : config) : Prop := ∃ tid, step_at tid cfg = Some cfg'.

(** Runs a schedule; a goroutine that cannot move is skipped. *)
Definition run (schedule : list nat) (cfg : config) : config :=
  fold_left (λ c tid, default c (step_at tid c)) schedule cfg.

Lemma run_steps (schedule : list nat) (cfg : config) :
  rtc step cfg (run schedule cfg).
Proof.
  revert cfg. induction schedule as [|tid schedule IH]; intros cfg; [done|].
  cbn [run fold_left]. destruct (step_at tid cfg) as [cfg'|] eqn:E; cbn.
  - eapply rtc_l; [by exists tid|apply IH].
  - apply IH.
Qed.

(** ** What a ready channel waits for *)

(** What the goroutine of [Ready()] receives from, in order: the ready
    channel of a node, or a channel. *)
Inductive wait : Type :=
| WNode (m : node)
| WChan (c : chan).

Definition waits (n : node) : list wait :=
  match n with
  | group_node _ states => map WNode states
  | readiness_node _ ready group_cell states =>
      [WNode (group_node group_cell states); WChan ready]
  | depend_node _ children_cell children parent =>
      [WNode (group_node children_cell children); WNode parent]
  end.

Definition to_instr (w : wait) : instr :=
  match w with
  | WNode m => RecvReady m
  | WChan c => Recv c
  end.

Lemma ready_body_waits (n : node) (out : chan) :
  ready_body n out = map to_instr (waits n) ++ [Close out].
Proof. destruct n; cbn [ready_body waits map app]; by rewrite ?map_map. Qed.

(** The [ready] channels of the readiness nodes of a tree: what [Ok()] has
    to close for the tree to be ready. *)
Fixpoint needs (n : node) : gset chan :=
  match n with
  | group_node _ states => ⋃ (map needs states)
  | readiness_node _ ready _ states => {[ready]} ∪ ⋃ (map needs states)
  | depend_node _ _ children parent => ⋃ (map needs children) ∪ needs parent
  end.

(** The nodes of a tree, the groups embedded in its nodes included. *)
Fixpoint nodes (n : node) : list node :=
  n ::
  match n with
  | group_node _ states => flat_map nodes states
  | readiness_node _ _ group_cell states =>
      group_node group_cell states :: flat_map nodes states
  | depend_node _ children_cell children parent =>
      group_node children_cell children :: flat_map nodes children ++
      nodes parent
  end.

(** The wait is over: the readiness nodes below have all been sent [Ok()],
    or the channel is closed. *)
Definition sat (A : gset chan) (w : wait) : Prop :=
  match w with
  | WNode m => needs m ⊆ A
  | WChan c => c ∈ A
  end.

Lemma sat_weaken (A A' : gset chan) (w : wait) : A ⊆ A' → sat A w → sat A' w.
Proof. destruct w; cbn; set_solver. Qed.

Lemma needs_group (A : gset chan) (states : list node) :
  Forall (sat A) (map WNode states) → ⋃ (map needs states) ⊆ A.
Proof.
  induction states as [|m states IH]; cbn [map union_list];
    [set_solver|].
  intros [Hm Hs]%Forall_cons. specialize (IH Hs). cbn in Hm.
  change (foldr union ∅ (map needs states)) with (⋃ (map needs states)).
  set_solver.
Qed.

(** When every wait of [n] is over, all that [n] needs is closed. *)
Lemma needs_sat (A : gset chan) (n : node) :
  Forall (sat A) (waits n) → needs n ⊆ A.
Proof.
  destruct n as [c l|c r gc l|c cc l p]; cbn [waits needs].
  - apply needs_group.
  - intros [Hg [Hr _]%Forall_cons]%Forall_cons. cbn in Hg, Hr. set_solver.
  - intros [Hg [Hp _]%Forall_cons]%Forall_cons. cbn in Hg, Hp. set_solver.
Qed.

Lemma elem_of_flat_map_nodes (l : list node) (m : node) :
  m ∈ flat_map nodes l ↔ ∃ x, x ∈ l ∧ m ∈ nodes x.
Proof.
  rewrite list_elem_of_In, in_flat_map. by setoid_rewrite list_elem_of_In.
Qed.

Lemma nodes_self (n : node) : n ∈ nodes n.
Proof. destruct n; left. Qed.

(** A node a wait of [n] names is a node of [n]. *)
Lemma nodes_waits (n m : node) : WNode m ∈ waits n → m ∈ nodes n.
Proof.
  destruct n as [c l|c r gc l|c cc l p]; cbn [waits nodes].
  - intros (x & [= <-] & Hx)%list_elem_of_In%in_map_iff.
    right. apply elem_of_flat_map_nodes. exists x.
    split; [by apply list_elem_of_In|apply nodes_self].
  - intros [[= <-]|Hr%list_elem_of_singleton]%elem_of_cons; [|done].
    right. left.
  - intros [[= <-]|[= <-]%list_elem_of_singleton]%elem_of_cons.
    + right. left.
    + right. right. apply elem_of_app. right. apply nodes_self.
Qed.

(** The nodes of a node of the tree are nodes of the tree. *)
Lemma nodes_trans (root n : node) : n ∈ nodes root → nodes n ⊆ nodes root.
Proof.
  revert n.
  assert (∀ l, Forall (λ r, ∀ n, n ∈ nodes r → nodes n ⊆ nodes r) l →
               ∀ n, n ∈ flat_map nodes l → nodes n ⊆ flat_map nodes l) as Hflat.
  { intros l Hl n (x & Hx & Hn)%elem_of_flat_map_nodes m Hm.
    rewrite Forall_forall in Hl. apply elem_of_flat_map_nodes. exists x.
    split; [done|]. by apply (Hl x Hx n). }
  induction root as [c l IH|c r gc l IH|c cc l p IH IHp] using node_tree_ind;
    intros n; cbn [nodes].
  - intros [->|Hn]%elem_of_cons; [done|].
    intros m Hm. right. by apply (Hflat l IH n).
  - intros [->|[->|Hn]%elem_of_cons]%elem_of_cons; [done| |].
    + intros m. cbn [nodes]. intros Hm. by right.
    + intros m Hm. right. right. by apply (Hflat l IH n).
  - intros [->|[->|[Hn|Hn]%elem_of_app]%elem_of_cons]%elem_of_cons; [done| | |].
    + intros m. cbn [nodes]. intros [->|Hm]%elem_of_cons; [right; left|].
      right. right. apply elem_of_app. by left.
    + intros m Hm. right. right. apply elem_of_app. left.
      by apply (Hflat l IH n).
    + intros m Hm. right. right. apply elem_of_app. right.
      by apply (IHp n).
Qed.

(** ** The invariant of a program that asks for readiness *)

Definition closes (ch : chan) (i : instr) : nat :=
  match i with
  | Close c => if decide (c = ch) then 1 else 0
  | RecvReady _ | Recv _ | Ok _ => 0
  end.

Definition closes_in (ch : chan) (t : goroutine) : nat :=
  list_sum (map (closes ch) t).

Definition closes_pool (ch : chan) (p : list goroutine) : nat :=
  list_sum (map (closes_in ch) p).

Lemma ready_closes_in_app (ch : chan) (t1 t2 : goroutine) :
  closes_in ch (t1 ++ t2) = closes_in ch t1 + closes_in ch t2.
Proof. unfold closes_in. by rewrite map_app, list_sum_app. Qed.

Lemma ready_closes_waits (ch : chan) (ws : list wait) :
  closes_in ch (map to_instr ws) = 0.
Proof. induction ws as [|[m|c] ws IH]; [done|exact IH|exact IH]. Qed.

Lemma ready_closes_body (ch : chan) (n : node) (out : chan) :
  closes_in ch (ready_body n out) = if decide (out = ch) then 1 else 0.
Proof.
  rewrite ready_body_waits, ready_closes_in_app, ready_closes_waits.
  unfold closes_in. cbn. destruct (decide (out = ch)); lia.
Qed.

Lemma ready_closes_pool_app (ch : chan) (p1 p2 : list goroutine) :
  closes_pool ch (p1 ++ p2) = closes_pool ch p1 + closes_pool ch p2.
Proof. unfold closes_pool. by rewrite map_app, list_sum_app. Qed.

Lemma ready_closes_pool_insert (ch : chan) (p : list goroutine) (tid : nat)
    (t t' : goroutine) :
  p !! tid = Some t →
  closes_pool ch (<[tid := t']> p) + closes_in ch t =
  closes_pool ch p + closes_in ch t'.
Proof.
  revert tid. induction p as [|x p IH]; intros [|tid] Ht; try done.
  - injection Ht as ->.
    change (closes_pool ch (t' :: p) + closes_in ch t =
            closes_pool ch (t :: p) + closes_in ch t').
    unfold closes_pool. cbn [map list_sum fold_right]. lia.
  - specialize (IH tid Ht).
    change (closes_pool ch (x :: <[tid := t']> p) + closes_in ch t =
            closes_pool ch (x :: p) + closes_in ch t').
    unfold closes_pool, list_sum in *. cbn [map fold_right] in *. lia.
Qed.

Lemma ready_closes_pool_step (ch : chan) (p spawned : list goroutine)
    (tid : nat) (t t' : goroutine) :
  p !! tid = Some t →
  closes_pool ch (<[tid := t']> p ++ spawned) + closes_in ch t =
  closes_pool ch p + closes_in ch t' + closes_pool ch spawned.
Proof.
  intros Ht. rewrite ready_closes_pool_app.
  pose proof (ready_closes_pool_insert ch p tid t t' Ht). lia.
Qed.

Section invariant.

(** The tree the program is about, and the first channel [make] returned
    after the tree was built. *)
Variable root : node.
Variable base : chan.

(** The cells of different nodes are different. *)
Hypothesis cells_distinct :
  ∀ n m, n ∈ nodes root → m ∈ nodes root → cell n = cell m → n = m.

(** The statements of a caller of the package: [<-n.Ready()] on a node of
    the tree, a receive, [Ok()] on a channel made before [base]; a caller
    cannot close the channel [Ready()] returns, which is receive-only. *)
Definition caller_instr (i : instr) : Prop :=
  match i with
  | RecvReady n => n ∈ nodes root
  | Recv _ => True
  | Close _ => False
  | Ok c => c < base
  end.

(** The goroutine of [Ready()] for the channel [out] of [n]: some waits
    are over; it is about to go on with the others, or it has called
    [Ready()] on the next node and is about to receive. *)
Definition body_at (h : heap) (n : node) (out : chan) (t : goroutine) : Prop :=
  ∃ passed remaining,
    waits n = passed ++ remaining ∧ Forall (sat (closed h)) passed ∧
    (t = map to_instr remaining ++ [Close out] ∨
     ∃ m ch rest, remaining = WNode m :: rest ∧
       ready_of h !! cell m = Some ch ∧
       t = Recv ch :: map to_instr rest ++ [Close out]).

Definition known (h : heap) (t : goroutine) : Prop :=
  Forall caller_instr t ∨
  ∃ n out, n ∈ nodes root ∧ ready_of h !! cell n = Some out ∧ body_at h n out t.

Definition inv (cfg : config) : Prop :=
  panicked cfg = None ∧
  base ≤ next (mem cfg) ∧
  (∀ l ch, ready_of (mem cfg) !! l = Some ch → base ≤ ch < next (mem cfg)) ∧
  (∀ l l' ch, ready_of (mem cfg) !! l = Some ch →
     ready_of (mem cfg) !! l' = Some ch → l = l') ∧
  (∀ ch, next (mem cfg) ≤ ch →
     (ch ∉ closed (mem cfg)) ∧ closes_pool ch (pool cfg) = 0) ∧
  (∀ n out, n ∈ nodes root → ready_of (mem cfg) !! cell n = Some out →
     out ∈ closed (mem cfg) → needs n ⊆ closed (mem cfg)) ∧
  Forall (known (mem cfg)) (pool cfg) ∧
  (∀ ch, base ≤ ch →
     closes_pool ch (pool cfg) +
     (if decide (ch ∈ closed (mem cfg)) then 1 else 0) ≤ 1).

(** A heap with more channels closed and more cells set knows the same
    goroutines. *)
Lemma known_weaken (h h' : heap) (t : goroutine) :
  closed h ⊆ closed h' →
  (∀ l ch, ready_of h !! l = Some ch → ready_of h' !! l = Some ch) →
  known h t → known h' t.
Proof.
  intros Hc Hr [Hcaller|(n & out & Hn & Hout & Hbody)]; [by left|].
  right. exists n, out. split_and!; [done|by apply Hr|].
  destruct Hbody as (passed & remaining & Hw & Hp & Ht).
  exists passed, remaining. split_and!; [done| |].
  - eapply Forall_impl; [exact Hp|]. intros w. by apply sat_weaken.
  - destruct Ht as [->|(m & ch & rest & -> & Hm & ->)]; [by left|].
    right. exists m, ch, rest. split_and!; [done|by apply Hr|done].
Qed.

Lemma known_pool_weaken (h h' : heap) (p : list goroutine) :
  closed h ⊆ closed h' →
  (∀ l ch, ready_of h !! l = Some ch → ready_of h' !! l = Some ch) →
  Forall (known h) p → Forall (known h') p.
Proof.
  intros Hc Hr Hp. eapply Forall_impl; [exact Hp|].
  intros t. by apply known_weaken.
Qed.

Lemma ready_closes_in_le_pool (ch : chan) (p : list goroutine) (tid : nat)
    (t : goroutine) :
  p !! tid = Some t → closes_in ch t ≤ closes_pool ch p.
Proof.
  intros Ht. pose proof (ready_closes_pool_insert ch p tid t [] Ht) as H.
  change (closes_in ch []) with 0 in H. lia.
Qed.

Lemma ready_closes_in_cons (ch : chan) (i : instr) (t : goroutine) :
  closes_in ch (i :: t) = closes ch i + closes_in ch t.
Proof. done. Qed.

(** The goroutine that has called [Ready()] on [m] goes on to receive from
    the channel of [m]. *)
Lemma known_RecvReady (h : heap) (m : node) (ch : chan) (k : goroutine) :
  known h (RecvReady m :: k) → ready_of h !! cell m = Some ch →
  known h (Recv ch :: k).
Proof.
  intros [[_ Hk]%Forall_cons|(n & out & Hn & Hout & Hbody)] Hm.
  { left. by constructor. }
  right. exists n, out. split_and!; [done..|].
  destruct Hbody as (passed & remaining & Hw & Hp & Ht).
  exists passed, remaining. split_and!; [done..|].
  destruct Ht as [Ht|(m' & ch' & rest & _ & _ & Ht)]; [|done].
  destruct remaining as [|[m'|c'] rest]; [done| |done].
  injection Ht as <- ->. right. by exists m, ch, rest.
Qed.

Lemma known_RecvReady_node (h : heap) (m : node) (k : goroutine) :
  known h (RecvReady m :: k) → m ∈ nodes root.
Proof.
  intros [[Hm _]%Forall_cons|(n & out & Hn & Hout & Hbody)]; [done|].
  destruct Hbody as (passed & remaining & Hw & Hp & Ht).
  destruct Ht as [Ht|(m' & ch' & rest & _ & _ & Ht)]; [|done].
  destruct remaining as [|[m'|c'] rest]; [done| |done].
  injection Ht as -> _. apply (nodes_trans root n Hn), nodes_waits.
  rewrite Hw. apply elem_of_app. right. left.
Qed.

(** A receive that passes is one more wait that is over. *)
Lemma known_Recv (h : heap) (c : chan) (k : goroutine) :
  (∀ n out, n ∈ nodes root → ready_of h !! cell n = Some out →
     out ∈ closed h → needs n ⊆ closed h) →
  known h (Recv c :: k) → c ∈ closed h → known h k.
Proof.
  intros Hneeds [[_ Hk]%Forall_cons|(n & out & Hn & Hout & Hbody)] Hc;
    [by left|].
  right. exists n, out. split_and!; [done..|].
  destruct Hbody as (passed & remaining & Hw & Hp & Ht).
  destruct Ht as [Ht|(m & ch & rest & -> & Hm & Ht)].
  - destruct remaining as [|[m'|c'] rest]; [done|done|].
    injection Ht as <- ->.
    exists (passed ++ [WChan c]), rest. rewrite <- app_assoc.
    split_and!; [done| |by left].
    apply Forall_app. split; [done|]. by constructor.
  - injection Ht as <- ->.
    exists (passed ++ [WNode m]), rest. rewrite <- app_assoc.
    split_and!; [done| |by left].
    apply Forall_app. split; [done|]. constructor; [|done]. cbn.
    apply (Hneeds m c); [|done..].
    apply (nodes_trans root n Hn), nodes_waits.
    rewrite Hw. apply elem_of_app. right. left.
Qed.

(** Only the goroutine of [Ready()] closes, and it closes the channel of its
    node, last, when every wait is over. *)
Lemma known_Close (h : heap) (c : chan) (k : goroutine) :
  known h (Close c :: k) →
  k = [] ∧ ∃ n, n ∈ nodes root ∧ ready_of h !! cell n = Some c ∧
                needs n ⊆ closed h.
Proof.
  intros [[[] _]%Forall_cons|(n & out & Hn & Hout & Hbody)].
  destruct Hbody as (passed & remaining & Hw & Hp & Ht).
  destruct Ht as [Ht|(m & ch & rest & _ & _ & Ht)]; [|done].
  destruct remaining as [|[m'|c'] rest]; [|done|done].
  injection Ht as -> ->. split; [done|]. exists n. split_and!; [done..|].
  apply needs_sat. rewrite Hw. by rewrite app_nil_r.
Qed.

Lemma known_Ok (h : heap) (c : chan) (k : goroutine) :
  known h (Ok c :: k) → c < base ∧ Forall caller_instr k.
Proof.
  intros [[Hc Hk]%Forall_cons|(n & out & Hn & Hout & Hbody)]; [done|].
  destruct Hbody as (passed & remaining & Hw & Hp & Ht).
  destruct Ht as [Ht|(m & ch & rest & _ & _ & Ht)]; [|done].
  by destruct remaining as [|[m'|c'] rest].
Qed.

(** A step that leaves the heap as it is and moves no [close]. *)
Lemma inv_same_heap (cfg : config) (tid : nat) (t t' : goroutine) :
  inv cfg → pool cfg !! tid = Some t → known (mem cfg) t' →
  (∀ ch, closes_in ch t' = closes_in ch t) →
  inv (Config (mem cfg) (<[tid := t']> (pool cfg) ++ []) None).
Proof.
  intros (Hp & Hb & Hrange & Hinj & Hfresh & Hneeds & Hknown & Hcount)
    Ht Hk Hsame.
  assert (∀ ch, closes_pool ch (<[tid := t']> (pool cfg) ++ []) =
                closes_pool ch (pool cfg)) as Hcp.
  { intros ch. pose proof (ready_closes_pool_step ch (pool cfg) [] tid t t' Ht)
      as H. rewrite Hsame in H. change (closes_pool ch []) with 0 in H. lia. }
  split_and!; cbn [mem pool panicked]; try done.
  - intros ch Hch. rewrite Hcp. by apply Hfresh.
  - apply Forall_app. split; [|done]. by apply Forall_insert.
  - intros ch Hch. rewrite Hcp. by apply Hcount.
Qed.

(** A step that closes [c], a channel in use and open. *)
Lemma inv_close (cfg : config) (tid : nat) (t t' : goroutine) (c : chan) :
  inv cfg → pool cfg !! tid = Some t →
  c ∉ closed (mem cfg) → c < next (mem cfg) →
  known (set_closed c (mem cfg)) t' →
  (∀ ch, ch ≠ c → closes_in ch t' = closes_in ch t) →
  (base ≤ c → closes_in c t = 1 + closes_in c t') →
  (∀ n, n ∈ nodes root → ready_of (mem cfg) !! cell n = Some c →
     needs n ⊆ closed (mem cfg)) →
  inv (Config (set_closed c (mem cfg)) (<[tid := t']> (pool cfg) ++ []) None).
Proof.
  intros (Hp & Hb & Hrange & Hinj & Hfresh & Hneeds & Hknown & Hcount)
    Ht Hopen Hused Hk Hsame Hone Hc.
  assert (∀ ch, ch ≠ c → closes_pool ch (<[tid := t']> (pool cfg) ++ []) =
                         closes_pool ch (pool cfg)) as Hcp.
  { intros ch Hne.
    pose proof (ready_closes_pool_step ch (pool cfg) [] tid t t' Ht) as H.
    rewrite (Hsame ch Hne) in H. change (closes_pool ch []) with 0 in H. lia. }
  split_and!; cbn [mem pool panicked set_closed closed ready_of next];
    try done.
  - intros ch Hch. assert (ch ≠ c) as Hne by lia.
    rewrite (Hcp ch Hne). destruct (Hfresh ch Hch). split; [set_solver|done].
  - intros n out Hn Hout [->%elem_of_singleton|Hcl]%elem_of_union.
    + specialize (Hc n Hn Hout). set_solver.
    + specialize (Hneeds n out Hn Hout Hcl). set_solver.
  - apply Forall_app. split; [|done]. apply Forall_insert; [|done].
    eapply known_pool_weaken; [| |exact Hknown]; [cbn; set_solver|done].
  - intros ch Hch. destruct (decide (ch = c)) as [->|Hne].
    + rewrite decide_True by set_solver.
      pose proof (ready_closes_pool_step c (pool cfg) [] tid t t' Ht) as H.
      change (closes_pool c []) with 0 in H.
      pose proof (ready_closes_in_le_pool c _ _ _ Ht).
      specialize (Hcount c Hch). rewrite decide_False in Hcount by done.
      specialize (Hone Hch). lia.
    + rewrite (Hcp ch Hne). specialize (Hcount ch Hch).
      destruct (decide (ch ∈ closed (mem cfg))),
               (decide (ch ∈ {[c]} ∪ closed (mem cfg))); try lia; set_solver.
Qed.

(** A step keeps the invariant: in particular it does not panic. *)
Lemma inv_step (cfg cfg' : config) : inv cfg → step cfg cfg' → inv cfg'.
Proof.
  intros Hinv [tid Hstep].
  pose proof Hinv as
    (Hp & Hb & Hrange & Hinj & Hfresh & Hneeds & Hknown & Hcount).
  unfold step_at in Hstep. rewrite Hp in Hstep.
  destruct (pool cfg !! tid) as [t|] eqn:Ht; [|done].
  assert (known (mem cfg) t) as Hkt by (by eapply Forall_lookup_1).
  destruct t as [|i k]; [done|].
  destruct i as [m|c|c|c]; cbn [exec] in Hstep.
  - (* <-m.Ready() *)
    pose proof (known_RecvReady_node _ _ _ Hkt) as Hm.
    unfold Ready in Hstep.
    destruct (ready_of (mem cfg) !! cell m) as [out|] eqn:Hcell;
      injection Hstep as <-.
    + apply (inv_same_heap cfg tid (RecvReady m :: k)); [done..| |done].
      by apply (known_RecvReady _ m).
    + set (h' := {| closed := closed (mem cfg);
                    ready_of := <[cell m := next (mem cfg)]> (ready_of (mem cfg));
                    next := S (next (mem cfg)) |}).
      assert (∀ l ch, ready_of (mem cfg) !! l = Some ch →
                      ready_of h' !! l = Some ch) as Hkeep.
      { intros l ch Hl. cbn. rewrite lookup_insert_ne; [done|congruence]. }
      assert (ready_of h' !! cell m = Some (next (mem cfg))) as Hnew.
      { cbn. by rewrite lookup_insert_eq. }
      assert (∀ ch, closes_pool ch
                 (<[tid := Recv (next (mem cfg)) :: k]> (pool cfg) ++
                  [ready_body m (next (mem cfg))]) =
               closes_pool ch (pool cfg) +
               (if decide (next (mem cfg) = ch) then 1 else 0)) as Hcp.
      { intros ch.
        pose proof (ready_closes_pool_step ch (pool cfg)
                      [ready_body m (next (mem cfg))] tid _
                      (Recv (next (mem cfg)) :: k) Ht) as H.
        rewrite !ready_closes_in_cons in H. cbn [closes] in H.
        unfold closes_pool at 3 in H. cbn [map list_sum fold_right] in H.
        rewrite ready_closes_body in H. unfold list_sum in H.
        cbn [fold_right] in H. lia. }
      split_and!; cbn [mem pool panicked]; fold h'.
      * done.
      * cbn. lia.
      * intros l ch. cbn. destruct (decide (l = cell m)) as [->|Hne].
        -- rewrite lookup_insert_eq. intros [= <-]. lia.
        -- rewrite lookup_insert_ne by done. intros Hl.
           specialize (Hrange l ch Hl). lia.
      * intros l l' ch. cbn.
        destruct (decide (l = cell m)) as [->|Hne],
                 (decide (l' = cell m)) as [->|Hne']; [done| | |].
        -- rewrite lookup_insert_eq, lookup_insert_ne by done.
           intros [= <-] Hl'. specialize (Hrange _ _ Hl'). lia.
        -- rewrite lookup_insert_eq, lookup_insert_ne by done.
           intros Hl [= <-]. specialize (Hrange _ _ Hl). lia.
        -- rewrite !lookup_insert_ne by done. apply Hinj.
      * intros ch Hch. cbn in Hch. rewrite Hcp.
        destruct (Hfresh ch ltac:(lia)) as [Hopen Hz].
        split; [done|]. rewrite decide_False by lia. lia.
      * intros n out Hn Hout Hcl. cbn in Hout, Hcl.
        destruct (decide (cell n = cell m)) as [Heq|Hne].
        -- rewrite Heq, lookup_insert_eq in Hout. injection Hout as <-.
           by destruct (Hfresh (next (mem cfg)) ltac:(done)).
        -- rewrite lookup_insert_ne in Hout by done.
           by apply (Hneeds n out).
      * apply Forall_app. split.
        -- apply Forall_insert.
           ++ by apply (known_pool_weaken (mem cfg)).
           ++ apply (known_RecvReady _ m); [|done].
              by apply (known_weaken (mem cfg)).
        -- constructor; [|done]. right. exists m, (next (mem cfg)).
           split_and!; [done..|]. exists [], (waits m).
           split_and!; [done|done|]. left. apply ready_body_waits.
      * intros ch Hch. rewrite Hcp. cbn [closed h'].
        destruct (decide (next (mem cfg) = ch)) as [<-|Hne].
        -- destruct (Hfresh (next (mem cfg)) ltac:(done)) as [Hopen Hz].
           rewrite Hz, decide_False by done. lia.
        -- specialize (Hcount ch Hch). lia.
  - (* <-c *)
    destruct (is_closed (mem cfg) c) eqn:Hc; [|done]. injection Hstep as <-.
    apply bool_decide_eq_true in Hc.
    apply (inv_same_heap cfg tid (Recv c :: k)); [done..| |done].
    by apply (known_Recv (mem cfg) c).
  - (* close(c) *)
    destruct (known_Close _ _ _ Hkt) as (-> & n & Hn & Hout & Hall).
    destruct (Hrange _ _ Hout) as [Hlo Hhi].
    destruct (is_closed (mem cfg) c) eqn:Hc.
    { apply bool_decide_eq_true in Hc. specialize (Hcount c Hlo).
      rewrite decide_True in Hcount by done.
      pose proof (ready_closes_in_le_pool c _ _ _ Ht) as Hge.
      rewrite ready_closes_in_cons in Hge. cbn [closes] in Hge.
      rewrite decide_True in Hge by done. lia. }
    apply bool_decide_eq_false in Hc. injection Hstep as <-.
    apply (inv_close cfg tid [Close c]); [done..|by left| | |].
    + intros ch Hne. rewrite ready_closes_in_cons. cbn [closes].
      by rewrite decide_False.
    + intros _. rewrite ready_closes_in_cons. cbn [closes].
      by rewrite decide_True.
    + intros n' Hn' Hout'.
      assert (n' = n) as ->; [|done].
      apply cells_distinct; [done..|]. by apply (Hinj _ _ c).
  - (* Ok() *)
    destruct (known_Ok _ _ _ Hkt) as [Hc Hk].
    destruct (is_closed (mem cfg) c) eqn:Hcl; injection Hstep as <-.
    + apply (inv_same_heap cfg tid (Ok c :: k)); [done|done|by left|done].
    + apply bool_decide_eq_false in Hcl.
      apply (inv_close cfg tid (Ok c :: k)); [done..|lia|by left|done| |].
      * lia.
      * intros n Hn Hout. specialize (Hrange _ _ Hout). lia.
Qed.

Lemma inv_rtc (cfg cfg' : config) : inv cfg → rtc step cfg cfg' → inv cfg'.
Proof.
  intros Hs Hsteps. induction Hsteps as [|cfg1 cfg2 cfg3 Hst _ IH]; [done|].
  apply IH. by eapply inv_step.
Qed.

End invariant.

Lemma caller_closes (root : node) (base ch : chan) (t : goroutine) :
  Forall (caller_instr root base) t → closes_in ch t = 0.
Proof.
  induction 1 as [|i t Hi _ IH]; [done|].
  rewrite ready_closes_in_cons, IH. by destruct i.
Qed.

(** A program of callers that has not asked for readiness yet. *)
Lemma inv_start (root : node) (cfg : config) :
  panicked cfg = None → ready_of (mem cfg) = ∅ →
  (∀ c, c ∈ closed (mem cfg) → c < next (mem cfg)) →
  Forall (Forall (caller_instr root (next (mem cfg)))) (pool cfg) →
  inv root (next (mem cfg)) cfg.
Proof.
  intros Hp Hempty Hcl Hpool.
  assert (∀ ch, closes_pool ch (pool cfg) = 0) as Hz.
  { intros ch. induction Hpool as [|t p Ht _ IH]; [done|].
    change (closes_pool ch (t :: p)) with (closes_in ch t + closes_pool ch p).
    by rewrite (caller_closes _ _ _ _ Ht), IH. }
  split_and!; try done.
  - intros l ch. by rewrite Hempty.
  - intros l l' ch. by rewrite Hempty.
  - intros ch Hch. split; [|done]. intros Hc. specialize (Hcl ch Hc). lia.
  - intros n out _. by rewrite Hempty.
  - eapply Forall_impl; [exact Hpool|]. intros t Ht. by left.
  - intros ch _. rewrite Hz. destruct (decide _); lia.
Qed.

(** A step leaves the cells that are set as they are. *)
Lemma step_keeps_cells (cfg cfg' : config) (l : loc) (ch : chan) :
  step cfg cfg' → ready_of (mem cfg) !! l = Some ch →
  ready_of (mem cfg') !! l = Some ch.
Proof.
  intros [tid Hstep] Hl. unfold step_at in Hstep.
  destruct (panicked cfg); [done|].
  destruct (pool cfg !! tid) as [[|i k]|]; [done| |done].
  destruct i as [m|c|c|c]; cbn [exec] in Hstep.
  - unfold Ready in Hstep.
    destruct (ready_of (mem cfg) !! cell m) eqn:Hm; injection Hstep as <-;
      [done|]. cbn. rewrite lookup_insert_ne; [done|congruence].
  - destruct (is_closed (mem cfg) c); [|done]. by injection Hstep as <-.
  - destruct (is_closed (mem cfg) c); by injection Hstep as <-.
  - destruct (is_closed (mem cfg) c); by injection Hstep as <-.
Qed.

(** A readiness node [r] under a group, a caller that waits for the group
    to be ready, and the job of [r], which calls [Ok()]. *)
Definition one_job : node * config :=
  let r := readiness_node 1 1 2 [] in
  let root := group_node 3 [r] in
  (root, Config (Heap ∅ ∅ 2) [[RecvReady root]; [Ok 1]] None).

(** Ten turns for each of the first five goroutines. *)
Definition five_by_ten : list nat := flat_map (λ _, seq 0 5) (seq 0 10).

(** The channel [Ready()] returns for a node is closed only when [Ok()] has
    been called on every readiness node of its tree, and no [close] of a
    ready channel panics, whatever the interleaving and however many
    goroutines call [Ready()] and [Ok()]. *)
Theorem Ready_closed_after_every_Ok (root : node) (cfg0 cfg : config) :
  (∀ n m, n ∈ nodes root → m ∈ nodes root → cell n = cell m → n = m) →
  panicked cfg0 = None → ready_of (mem cfg0) = ∅ →
  (∀ c, c ∈ closed (mem cfg0) → c < next (mem cfg0)) →
  Forall (Forall (caller_instr root (next (mem cfg0)))) (pool cfg0) →
  rtc step cfg0 cfg →
  panicked cfg = None ∧
  ∀ n out, n ∈ nodes root → ready_of (mem cfg) !! cell n = Some out →
    is_closed (mem cfg) out = true → needs n ⊆ closed (mem cfg).
Proof.
  intros Hcells Hp Hempty Hcl Hpool Hsteps.
  pose proof (inv_rtc root (next (mem cfg0)) Hcells cfg0 cfg
                (inv_start root cfg0 Hp Hempty Hcl Hpool) Hsteps)
    as (Hp' & _ & _ & _ & _ & Hneeds & _).
  split; [done|]. intros n out Hn Hout Hc%bool_decide_eq_true.
  by apply (Hneeds n out).
Qed.

Lemma one_job_cells (n m : node) :
  n ∈ nodes one_job.1 → m ∈ nodes one_job.1 → cell n = cell m → n = m.
Proof.
  cbn. intros Hn Hm Hc. set_unfold.
  destruct Hn as [->|[->|[->|[]]]], Hm as [->|[->|[->|[]]]];
    cbn in Hc; congruence.
Qed.

(** On [one_job], run to its end: nothing has panicked, the group is ready,
    and [Ok()] has been called on [r]. *)
Lemma Ready_closed_after_every_Ok_witness :
  panicked (run five_by_ten one_job.2) = None ∧
  needs one_job.1 ⊆ closed (mem (run five_by_ten one_job.2)).
Proof.
  assert (∀ c, c ∈ closed (mem one_job.2) → c < next (mem one_job.2)) as Hcl.
  { intros c. cbn. set_solver. }
  assert (Forall (Forall (caller_instr one_job.1 (next (mem one_job.2))))
            (pool one_job.2)) as Hpool.
  { constructor; [|constructor; [|done]].
    - constructor; [apply nodes_self|done].
    - constructor; [cbn; lia|done]. }
  destruct (Ready_closed_after_every_Ok one_job.1 one_job.2
              (run five_by_ten one_job.2) one_job_cells eq_refl eq_refl
              Hcl Hpool (run_steps five_by_ten one_job.2)) as [Hp Hneeds].
  split; [exact Hp|].
  exact (Hneeds one_job.1 2 (nodes_self _) eq_refl eq_refl).
Defined.

(** Once [Ready()] has been called on a node, whatever the program does
    next, a later call returns the same channel, starts no goroutine and
    changes nothing: the channel is made once. *)
Theorem Ready_made_once (n : node) (h : heap) (p : list goroutine)
    (cfg : config) :
  rtc step (Config (Ready n h).1.2 (p ++ (Ready n h).2) None) cfg →
  Ready n (mem cfg) = ((Ready n h).1.1, mem cfg, []).
Proof.
  intros Hsteps.
  assert (ready_of (Ready n h).1.2 !! cell n = Some (Ready n h).1.1) as Hset.
  { unfold Ready. destruct (ready_of h !! cell n) eqn:E; cbn; [done|].
    by rewrite lookup_insert_eq. }
  assert (ready_of (mem cfg) !! cell n = Some (Ready n h).1.1) as Hcfg.
  { remember (Config (Ready n h).1.2 (p ++ (Ready n h).2) None) as cfg0.
    assert (ready_of (mem cfg0) !! cell n = Some (Ready n h).1.1) as H0
      by by subst cfg0.
    clear Heqcfg0. induction Hsteps as [|c1 c2 c3 Hs _ IH]; [done|].
    apply IH. by eapply step_keeps_cells. }
  unfold Ready at 1. by rewrite Hcfg.
Qed.

(** On [one_job]: the group is asked once, the program runs, and the
    second call returns the channel of the first. *)
Lemma Ready_made_once_witness :
  Ready one_job.1
    (mem (run five_by_ten
            (Config (Ready one_job.1 (mem one_job.2)).1.2
               ([[Ok 1]] ++ (Ready one_job.1 (mem one_job.2)).2) None))) =
  (2, mem (run five_by_ten
             (Config (Ready one_job.1 (mem one_job.2)).1.2
                ([[Ok 1]] ++ (Ready one_job.1 (mem one_job.2)).2) None)), []).
Proof.
  exact (Ready_made_once one_job.1 (mem one_job.2) [[Ok 1]] _
           (run_steps five_by_ten _)).
Defined.

(** ** Readiness is reached *)

(** A bound on the steps [<-n.Ready()] can cause: the receive, and the
    goroutine [Ready()] starts. *)
Fixpoint cost (n : node) : nat :=
  match n with
  | group_node _ states => 3 + list_sum (map cost states)
  | readiness_node _ _ _ states => 7 + list_sum (map cost states)
  | depend_node _ _ children parent =>
      6 + list_sum (map cost children) + cost parent
  end.

Definition weight_instr (i : instr) : nat :=
  match i with
  | RecvReady n => cost n
  | Recv _ | Close _ | Ok _ => 1
  end.

Definition weight (t : goroutine) : nat := list_sum (map weight_instr t).

Definition weight_pool (p : list goroutine) : nat := list_sum (map weight p).

Definition weight_config (cfg : config) : nat :=
  match panicked cfg with
  | Some _ => 0
  | None => S (weight_pool (pool cfg))
  end.

Lemma weight_waits (ws : list wait) :
  weight (map to_instr ws) =
  list_sum (map (λ w, match w with WNode m => cost m | WChan _ => 1 end) ws).
Proof.
  induction ws as [|[m|c] ws IH]; [done| |];
    unfold weight in *; cbn [map list_sum fold_right weight_instr to_instr];
    unfold list_sum in *; cbn [fold_right]; by rewrite IH.
Qed.

Lemma ready_weight_app (t1 t2 : goroutine) :
  weight (t1 ++ t2) = weight t1 + weight t2.
Proof. unfold weight. by rewrite map_app, list_sum_app. Qed.

Lemma weight_ready_body (n : node) (out : chan) :
  2 + weight (ready_body n out) ≤ cost n.
Proof.
  rewrite ready_body_waits, ready_weight_app, weight_waits.
  change (weight [Close out]) with 1.
  destruct n as [c l|c r gc l|c cc l p]; cbn [waits cost].
  - rewrite map_map. cbn beta iota.
    change (map (λ x, cost x) l) with (map cost l). lia.
  - cbn [map cost]. unfold list_sum. cbn [fold_right]. lia.
  - cbn [map cost]. unfold list_sum. cbn [fold_right]. lia.
Qed.

Lemma ready_weight_pool_insert (p : list goroutine) (tid : nat)
    (t t' : goroutine) :
  p !! tid = Some t →
  weight_pool (<[tid := t']> p) + weight t = weight_pool p + weight t'.
Proof.
  revert tid. induction p as [|x p IH]; intros [|tid] Ht; try done.
  - injection Ht as ->.
    change (weight_pool (t' :: p) + weight t = weight_pool (t :: p) + weight t').
    unfold weight_pool. cbn [map list_sum fold_right]. lia.
  - specialize (IH tid Ht).
    change (weight_pool (x :: <[tid := t']> p) + weight t =
            weight_pool (x :: p) + weight t').
    unfold weight_pool, list_sum in *. cbn [map fold_right] in *. lia.
Qed.

(** Every step takes at least one off the weight. *)
Lemma ready_step_weight (cfg cfg' : config) :
  step cfg cfg' → weight_config cfg' < weight_config cfg.
Proof.
  intros [tid Hstep]. unfold step_at in Hstep.
  destruct (panicked cfg) eqn:Hp; [done|].
  destruct (pool cfg !! tid) as [t|] eqn:Ht; [|done].
  unfold weight_config at 2. rewrite Hp.
  assert (∀ h r sp, weight r + weight_pool sp < weight t →
            weight_config (Config h (<[tid := r]> (pool cfg) ++ sp) None) <
            S (weight_pool (pool cfg))) as Hless.
  { intros h r sp Hlt. unfold weight_config. cbn [panicked pool].
    pose proof (ready_weight_pool_insert (pool cfg) tid t r Ht) as H.
    unfold weight_pool in *. rewrite map_app, list_sum_app. lia. }
  destruct t as [|i k]; [done|].
  assert (weight (i :: k) = weight_instr i + weight k) as Hw by done.
  destruct i as [m|c|c|c]; cbn [exec] in Hstep.
  - unfold Ready in Hstep.
    destruct (ready_of (mem cfg) !! cell m); injection Hstep as <-;
      apply Hless; rewrite Hw; cbn [weight_instr].
    + change (weight (Recv c :: k)) with (1 + weight k).
      change (weight_pool []) with 0.
      pose proof (weight_ready_body m 0). lia.
    + change (weight (Recv (next (mem cfg)) :: k)) with (1 + weight k).
      unfold weight_pool. cbn [map list_sum fold_right].
      unfold list_sum. cbn [fold_right].
      pose proof (weight_ready_body m (next (mem cfg))). lia.
  - destruct (is_closed (mem cfg) c); [|done]. injection Hstep as <-.
    apply Hless. rewrite Hw. cbn. change (weight_pool []) with 0. lia.
  - destruct (is_closed (mem cfg) c); injection Hstep as <-.
    + unfold weight_config. cbn. lia.
    + apply Hless. rewrite Hw. cbn. change (weight_pool []) with 0. lia.
  - destruct (is_closed (mem cfg) c); injection Hstep as <-;
      apply Hless; rewrite Hw; cbn; change (weight_pool []) with 0; lia.
Qed.

(** Every execution is finite: [n] steps take [n] off the weight. *)
Theorem Ready_terminates (n : nat) (cfg cfg' : config) :
  nsteps step n cfg cfg' → n + weight_config cfg' ≤ weight_config cfg.
Proof.
  induction 1 as [|n c1 c2 c3 Hs _ IH]; [lia|].
  apply ready_step_weight in Hs. lia.
Qed.

Lemma needs_elem (x : node) (l : list node) :
  x ∈ l → needs x ⊆ ⋃ (map needs l).
Proof.
  induction 1 as [x l|x y l _ IH]; cbn [map union_list]; set_solver.
Qed.

(** What a node of the tree needs, the tree needs. *)
Lemma needs_mono (root n : node) : n ∈ nodes root → needs n ⊆ needs root.
Proof.
  revert n.
  assert (∀ l, Forall (λ r, ∀ n, n ∈ nodes r → needs n ⊆ needs r) l →
               ∀ n, n ∈ flat_map nodes l → needs n ⊆ ⋃ (map needs l)) as Hflat.
  { intros l Hl n (x & Hx & Hn)%elem_of_flat_map_nodes.
    rewrite Forall_forall in Hl. etrans; [by apply (Hl x Hx)|].
    by apply needs_elem. }
  induction root as [c l IH|c r gc l IH|c cc l p IH IHp] using node_tree_ind;
    intros n; cbn [nodes].
  - intros [->|Hn]%elem_of_cons; [done|]. cbn [needs]. by apply Hflat.
  - intros [->|[->|Hn]%elem_of_cons]%elem_of_cons; [done| |]; cbn [needs].
    + set_solver.
    + specialize (Hflat l IH n Hn). set_solver.
  - intros [->|[->|[Hn|Hn]%elem_of_app]%elem_of_cons]%elem_of_cons;
      [done| | |]; cbn [needs].
    + set_solver.
    + specialize (Hflat l IH n Hn). set_solver.
    + specialize (IHp n Hn). set_solver.
Qed.

Lemma needs_WChan (n : node) (c : chan) : WChan c ∈ waits n → c ∈ needs n.
Proof.
  destruct n as [cl l|cl r gc l|cl cc l p]; cbn [waits needs].
  - intros (x & [=] & _)%list_elem_of_In%in_map_iff.
  - intros [[=]|[= <-]%list_elem_of_singleton]%elem_of_cons. set_solver.
  - intros [[=]|[=]%list_elem_of_singleton]%elem_of_cons.
Qed.

Lemma cost_elem (x : node) (l : list node) :
  x ∈ l → cost x ≤ list_sum (map cost l).
Proof.
  induction 1 as [x l|x y l _ IH]; cbn [map]; unfold list_sum in *;
    cbn [fold_right]; lia.
Qed.

(** The nodes a node waits for cost less. *)
Lemma cost_waits (n m : node) : WNode m ∈ waits n → cost m < cost n.
Proof.
  destruct n as [c l|c r gc l|c cc l p]; cbn [waits cost].
  - intros (x & [= <-] & Hx%list_elem_of_In)%list_elem_of_In%in_map_iff.
    pose proof (cost_elem x l Hx). lia.
  - intros [[= ->]|[=]%list_elem_of_singleton]%elem_of_cons. cbn [cost]. lia.
  - intros [[= ->]|[= ->]%list_elem_of_singleton]%elem_of_cons;
      cbn [cost]; lia.
Qed.

Lemma closes_pool_pos (ch : chan) (p : list goroutine) :
  1 ≤ closes_pool ch p → ∃ tid t, p !! tid = Some t ∧ 1 ≤ closes_in ch t.
Proof.
  induction p as [|t p IH].
  - unfold closes_pool. cbn. lia.
  - change (closes_pool ch (t :: p)) with (closes_in ch t + closes_pool ch p).
    intros Hpos. destruct (decide (1 ≤ closes_in ch t)) as [Ht|Ht].
    + by exists 0, t.
    + destruct IH as (tid & t' & Hl & Ht'); [lia|]. by exists (S tid), t'.
Qed.

(** What a goroutine that cannot move looks like. *)
Lemma stuck_exec (cfg : config) (tid : nat) (t : goroutine) :
  panicked cfg = None → pool cfg !! tid = Some t → step_at tid cfg = None →
  t = [] ∨ ∃ c k, t = Recv c :: k ∧ c ∉ closed (mem cfg).
Proof.
  intros Hp Ht Hstep. unfold step_at in Hstep. rewrite Hp, Ht in Hstep.
  destruct t as [|i k]; [by left|]. right.
  destruct i as [m|c|c|c]; cbn [exec] in Hstep.
  - by destruct (Ready m (mem cfg)) as [[out h'] sp].
  - destruct (is_closed (mem cfg) c) eqn:Hc; [done|].
    exists c, k. split; [done|]. by apply bool_decide_eq_false in Hc.
  - by destruct (is_closed (mem cfg) c).
  - by destruct (is_closed (mem cfg) c).
Qed.

Section liveness.

Variable root : node.
Variable base : chan.
Hypothesis cells_distinct :
  ∀ n m, n ∈ nodes root → m ∈ nodes root → cell n = cell m → n = m.

(** A caller that only asks for readiness and calls [Ok()]. *)
Definition strict_instr (i : instr) : Prop :=
  match i with
  | RecvReady n => n ∈ nodes root
  | Ok c => c < base
  | Recv _ | Close _ => False
  end.

(** Such a caller, maybe about to receive from a channel [Ready()] gave it. *)
Definition waiting (h : heap) (t : goroutine) : Prop :=
  Forall strict_instr t ∨
  ∃ ch k l, t = Recv ch :: k ∧ ready_of h !! l = Some ch ∧
            Forall strict_instr k.

Definition live (cfg : config) : Prop :=
  inv root base cfg ∧
  (∀ l ch, ready_of (mem cfg) !! l = Some ch →
     ∃ m, m ∈ nodes root ∧ cell m = l) ∧
  (∀ l ch, ready_of (mem cfg) !! l = Some ch → ch ∉ closed (mem cfg) →
     1 ≤ closes_pool ch (pool cfg)) ∧
  Forall (λ t, Forall (caller_instr root base) t → waiting (mem cfg) t)
    (pool cfg).

Lemma strict_caller (t : goroutine) :
  Forall strict_instr t → Forall (caller_instr root base) t.
Proof.
  intros H. eapply Forall_impl; [exact H|]. by intros [n|c|c|c].
Qed.

Lemma waiting_weaken (h h' : heap) (t : goroutine) :
  (∀ l ch, ready_of h !! l = Some ch → ready_of h' !! l = Some ch) →
  waiting h t → waiting h' t.
Proof.
  intros Hr [Hs|(ch & k & l & -> & Hl & Hk)]; [by left|].
  right. exists ch, k, l. split_and!; [done|by apply Hr|done].
Qed.

Lemma waiting_pool_weaken (h h' : heap) (p : list goroutine) :
  (∀ l ch, ready_of h !! l = Some ch → ready_of h' !! l = Some ch) →
  Forall (λ t, Forall (caller_instr root base) t → waiting h t) p →
  Forall (λ t, Forall (caller_instr root base) t → waiting h' t) p.
Proof.
  intros Hr Hp. eapply Forall_impl; [exact Hp|].
  intros t Ht Hc. by apply (waiting_weaken h), Ht.
Qed.

Lemma ready_body_no_caller (n : node) (out : chan) :
  ¬ Forall (caller_instr root base) (ready_body n out).
Proof.
  rewrite ready_body_waits. intros [_ H]%Forall_app.
  by apply Forall_cons in H as [[] _].
Qed.

Lemma closes_pool_same (ch : chan) (p sp : list goroutine) (tid : nat)
    (t t' : goroutine) :
  p !! tid = Some t → closes_in ch t' = closes_in ch t →
  closes_pool ch (<[tid := t']> p ++ sp) = closes_pool ch p + closes_pool ch sp.
Proof.
  intros Ht Hsame.
  pose proof (ready_closes_pool_step ch p sp tid t t' Ht) as H. lia.
Qed.

Lemma live_step (cfg cfg' : config) : live cfg → step cfg cfg' → live cfg'.
Proof.
  intros (Hinv & Hcells & Hlow & Hwait) Hstep.
  split; [by apply (inv_step root base cells_distinct cfg)|].
  destruct Hstep as [tid Hstep].
  pose proof Hinv as
    (Hp & Hb & Hrange & Hinj & Hfresh & Hneeds & Hknown & Hcount).
  unfold step_at in Hstep. rewrite Hp in Hstep.
  destruct (pool cfg !! tid) as [t|] eqn:Ht; [|done].
  assert (known root base (mem cfg) t) as Hkt by (by eapply Forall_lookup_1).
  assert (Forall (caller_instr root base) t → waiting (mem cfg) t) as Hwt
    by (by eapply (Forall_lookup_1 _ _ _ _ Hwait)).
  destruct t as [|i k]; [done|].
  destruct i as [m|c|c|c]; cbn [exec] in Hstep.
  - (* <-m.Ready() *)
    pose proof (known_RecvReady_node _ _ _ _ _ Hkt) as Hm.
    assert (Forall (caller_instr root base) k → Forall strict_instr k) as Hk.
    { intros Hck. destruct Hwt as [[_ Hs]%Forall_cons|(? & ? & ? & [=] & _)];
        [|done]. by constructor. }
    unfold Ready in Hstep.
    destruct (ready_of (mem cfg) !! cell m) as [out|] eqn:Hcell;
      injection Hstep as <-; cbn [mem pool].
    + split_and!; [done| |].
      * intros l ch Hl Hopen.
        rewrite (closes_pool_same ch _ _ _ (RecvReady m :: k)) by done.
        change (closes_pool ch []) with 0. specialize (Hlow l ch Hl Hopen). lia.
      * apply Forall_app. split; [|done]. apply Forall_insert; [done|].
        intros [_ Hck]%Forall_cons. right. exists out, k, (cell m).
        split_and!; [done..|by apply Hk].
    + assert (∀ l ch, ready_of (mem cfg) !! l = Some ch →
                <[cell m := next (mem cfg)]> (ready_of (mem cfg)) !! l = Some ch)
        as Hkeep.
      { intros l ch Hl. rewrite lookup_insert_ne; [done|congruence]. }
      split_and!; cbn [ready_of closed].
      * intros l ch. destruct (decide (l = cell m)) as [->|Hne].
        -- intros _. by exists m.
        -- rewrite lookup_insert_ne by done. apply Hcells.
      * intros l ch Hl Hopen.
        rewrite (closes_pool_same ch _ _ _ (RecvReady m :: k)) by done.
        unfold closes_pool at 2. cbn [map list_sum fold_right].
        rewrite ready_closes_body. unfold list_sum. cbn [fold_right].
        destruct (decide (l = cell m)) as [->|Hne].
        -- rewrite lookup_insert_eq in Hl. injection Hl as <-.
           rewrite decide_True by done. lia.
        -- rewrite lookup_insert_ne in Hl by done.
           specialize (Hlow l ch Hl Hopen). lia.
      * apply Forall_app. split.
        -- apply Forall_insert.
           ++ by apply (waiting_pool_weaken (mem cfg)).
           ++ intros [_ Hck]%Forall_cons. right.
              exists (next (mem cfg)), k, (cell m).
              split_and!; [done| |by apply Hk]. cbn.
              by rewrite lookup_insert_eq.
        -- constructor; [|done]. intros Hc.
           by apply ready_body_no_caller in Hc.
  - (* <-c *)
    destruct (is_closed (mem cfg) c) eqn:Hc; [|done]. injection Hstep as <-.
    cbn [mem pool]. split_and!; [done| |].
    + intros l ch Hl Hopen.
      rewrite (closes_pool_same ch _ _ _ (Recv c :: k)) by done.
      change (closes_pool ch []) with 0. specialize (Hlow l ch Hl Hopen). lia.
    + apply Forall_app. split; [|done]. apply Forall_insert; [done|].
      intros Hck. left.
      destruct Hwt as [[[] _]%Forall_cons|(? & ? & ? & [= <- <-] & _ & Hs)];
        [by constructor|done].
  - (* close(c) *)
    destruct (known_Close _ _ _ _ _ Hkt) as (-> & n & Hn & Hout & Hall).
    destruct (is_closed (mem cfg) c) eqn:Hc; injection Hstep as <-.
    { cbn [mem pool]. done. }
    cbn [mem pool set_closed ready_of closed]. split_and!; [done| |].
    + intros l ch Hl Hopen.
      assert (ch ≠ c) as Hne by set_solver.
      rewrite (closes_pool_same ch _ _ _ [Close c]); [| done |].
      * change (closes_pool ch []) with 0.
        specialize (Hlow l ch Hl ltac:(set_solver)). lia.
      * unfold closes_in. cbn. by rewrite decide_False.
    + apply Forall_app. split; [|done]. apply Forall_insert.
      * by apply (waiting_pool_weaken (mem cfg)).
      * intros _. by left.
  - (* Ok() *)
    destruct (known_Ok _ _ _ _ _ Hkt) as [Hcb Hk].
    assert (Forall strict_instr k) as Hs.
    { destruct Hwt as [[_ Hs]%Forall_cons|(? & ? & ? & [=] & _)]; [|done].
      by constructor. }
    destruct (is_closed (mem cfg) c) eqn:Hc; injection Hstep as <-;
      cbn [mem pool set_closed ready_of closed]; (split_and!; [done| |]).
    + intros l ch Hl Hopen.
      rewrite (closes_pool_same ch _ _ _ (Ok c :: k)) by done.
      change (closes_pool ch []) with 0. specialize (Hlow l ch Hl Hopen). lia.
    + apply Forall_app. split; [|done]. apply Forall_insert; [done|].
      intros _. by left.
    + intros l ch Hl Hopen.
      rewrite (closes_pool_same ch _ _ _ (Ok c :: k)) by done.
      change (closes_pool ch []) with 0.
      specialize (Hlow l ch Hl ltac:(set_solver)). lia.
    + apply Forall_app. split; [|done]. apply Forall_insert.
      * by apply (waiting_pool_weaken (mem cfg)).
      * intros _. by left.
Qed.

Lemma live_rtc (cfg cfg' : config) : live cfg → rtc step cfg cfg' → live cfg'.
Proof.
  intros Hs Hsteps. induction Hsteps as [|cfg1 cfg2 cfg3 Hst _ IH]; [done|].
  apply IH. by eapply live_step.
Qed.

End liveness.

(** In a program that cannot move, with [Ok()] called on every readiness
    node of the tree, no ready channel handed out is still open: by
    induction on the cost of its node. *)
Lemma no_pending (root : node) (base : chan) (cfg : config) :
  (∀ n m, n ∈ nodes root → m ∈ nodes root → cell n = cell m → n = m) →
  live root base cfg → (∀ tid, step_at tid cfg = None) →
  needs root ⊆ closed (mem cfg) →
  ∀ w m ch, cost m < w → m ∈ nodes root →
    ready_of (mem cfg) !! cell m = Some ch → ch ∈ closed (mem cfg).
Proof.
  intros Hdistinct (Hinv & Hcells & Hlow & Hwait) Hstuck Hok.
  pose proof Hinv as
    (Hp & Hb & Hrange & Hinj & Hfresh & Hneeds & Hknown & Hcount).
  induction w as [|w IH]; intros m ch Hw Hm Hch; [lia|].
  destruct (decide (ch ∈ closed (mem cfg))) as [|Hopen]; [done|]. exfalso.
  destruct (closes_pool_pos ch (pool cfg) (Hlow _ _ Hch Hopen))
    as (tid & t & Ht & Hpos).
  assert (known root base (mem cfg) t) as Hkt by (by eapply Forall_lookup_1).
  destruct Hkt as [Hcaller|(n & out & Hn & Hout & Hbody)].
  { rewrite (caller_closes _ _ _ _ Hcaller) in Hpos. lia. }
  destruct Hbody as (passed & remaining & Hw' & Hpassed & Hshape).
  assert (out = ch) as ->.
  { destruct Hshape as [->|(m' & ch' & rest & _ & _ & ->)].
    - rewrite ready_closes_in_app, ready_closes_waits in Hpos.
      unfold closes_in in Hpos. cbn in Hpos.
      destruct (decide (out = ch)); [done|lia].
    - rewrite ready_closes_in_cons, ready_closes_in_app, ready_closes_waits
        in Hpos. unfold closes_in in Hpos. cbn in Hpos.
      destruct (decide (out = ch)); [done|lia]. }
  assert (n = m) as ->.
  { apply Hdistinct; [done..|]. by apply (Hinj _ _ ch). }
  destruct (stuck_exec cfg tid t Hp Ht (Hstuck tid))
    as [->|(c & k & -> & Hc)].
  { destruct Hshape as [Hnil|(? & ? & ? & _ & _ & [=])].
    by destruct remaining. }
  destruct Hshape as [Heq|(m' & ch' & rest & -> & Hm' & [= -> _])].
  - destruct remaining as [|[m'|c'] rest]; [done|done|].
    injection Heq as -> _. apply Hc, Hok, (needs_mono root m Hm), needs_WChan.
    rewrite Hw'. apply elem_of_app. right. left.
  - assert (WNode m' ∈ waits m) as Hin.
    { rewrite Hw'. apply elem_of_app. right. left. }
    apply Hc, (IH m' ch'); [|by apply (nodes_trans root m Hm), nodes_waits|done].
    pose proof (cost_waits m m' Hin). lia.
Qed.

(** A program of callers that only ask for readiness and call [Ok()], and
    have not started yet, is live. *)
Lemma live_start (root : node) (cfg : config) :
  panicked cfg = None → ready_of (mem cfg) = ∅ →
  (∀ c, c ∈ closed (mem cfg) → c < next (mem cfg)) →
  Forall (Forall (strict_instr root (next (mem cfg)))) (pool cfg) →
  live root (next (mem cfg)) cfg.
Proof.
  intros Hp Hempty Hcl Hpool. split_and!.
  - apply inv_start; [done..|]. eapply Forall_impl; [exact Hpool|].
    apply strict_caller.
  - intros l ch. by rewrite Hempty.
  - intros l ch. by rewrite Hempty.
  - eapply Forall_impl; [exact Hpool|]. intros t Ht _. by left.
Qed.

(** No deadlock on the way to readiness: a program of goroutines that call
    [Ready()] and [Ok()] on the nodes of a tree, once [Ok()] has been called
    on every readiness node of the tree, cannot stop before every goroutine
    has ended, every ready channel handed out being closed; and it has not
    panicked. *)
Theorem Ready_not_stuck (root : node) (cfg0 cfg : config) :
  (∀ n m, n ∈ nodes root → m ∈ nodes root → cell n = cell m → n = m) →
  panicked cfg0 = None → ready_of (mem cfg0) = ∅ →
  (∀ c, c ∈ closed (mem cfg0) → c < next (mem cfg0)) →
  Forall (Forall (strict_instr root (next (mem cfg0)))) (pool cfg0) →
  rtc step cfg0 cfg →
  (∀ tid, step_at tid cfg = None) →
  needs root ⊆ closed (mem cfg) →
  panicked cfg = None ∧ Forall (λ t, t = []) (pool cfg) ∧
  ∀ n out, n ∈ nodes root → ready_of (mem cfg) !! cell n = Some out →
    is_closed (mem cfg) out = true.
Proof.
  intros Hdistinct Hp Hempty Hcl Hpool Hsteps Hstuck Hok.
  pose proof (live_rtc root (next (mem cfg0)) Hdistinct cfg0 cfg
                (live_start root cfg0 Hp Hempty Hcl Hpool) Hsteps) as Hlive.
  pose proof (no_pending root _ cfg Hdistinct Hlive Hstuck Hok) as Hnone.
  destruct Hlive as (Hinv & Hcells & Hlow & Hwait).
  pose proof Hinv as (Hp' & _ & _ & _ & _ & _ & Hknown & _).
  split_and!; [done| |].
  - apply Forall_lookup_2. intros tid t Ht.
    destruct (stuck_exec cfg tid t Hp' Ht (Hstuck tid))
      as [->|(c & k & -> & Hc)]; [done|]. exfalso.
    assert (known root (next (mem cfg0)) (mem cfg) (Recv c :: k)) as Hkt
      by (by eapply Forall_lookup_1).
    destruct Hkt as [Hcaller|(n & out & Hn & Hout & Hbody)].
    + pose proof (Forall_lookup_1 _ _ _ _ Hwait Ht Hcaller)
        as [[[] _]%Forall_cons|(ch & k' & l & [= <- <-] & Hl & _)].
      destruct (Hcells l c Hl) as (m & Hm & <-).
      apply Hc, (Hnone (S (cost m)) m c); [lia|done|done].
    + destruct Hbody as (passed & remaining & Hw & Hpassed & Hshape).
      destruct Hshape as [Heq|(m' & ch' & rest & -> & Hm' & [= -> _])].
      * destruct remaining as [|[m'|c'] rest]; [done|done|].
        injection Heq as -> _.
        apply Hc, Hok, (needs_mono root n Hn), needs_WChan.
        rewrite Hw. apply elem_of_app. right. left.
      * apply Hc, (Hnone (S (cost m')) m' ch'); [lia| |done].
        apply (nodes_trans root n Hn), nodes_waits.
        rewrite Hw. apply elem_of_app. right. left.
  - intros n out Hn Hout. apply bool_decide_eq_true.
    apply (Hnone (S (cost n)) n out); [lia|done|done].
Qed.

Lemma five_by_ten_final (tid : nat) :
  step_at tid (run five_by_ten one_job.2) = None.
Proof.
  destruct tid as [|[|[|[|[|tid]]]]]; reflexivity.
Qed.

(** On [one_job], run until it can go no further: every goroutine has
    ended and the ready channel of the group is closed. *)
Lemma Ready_not_stuck_witness :
  Forall (λ t, t = []) (pool (run five_by_ten one_job.2)) ∧
  is_closed (mem (run five_by_ten one_job.2)) 2 = true.
Proof.
  assert (∀ c, c ∈ closed (mem one_job.2) → c < next (mem one_job.2)) as Hcl.
  { intros c. cbn. set_solver. }
  assert (Forall (Forall (strict_instr one_job.1 (next (mem one_job.2))))
            (pool one_job.2)) as Hpool.
  { constructor; [|constructor; [|done]].
    - constructor; [apply nodes_self|done].
    - constructor; [cbn; lia|done]. }
  assert (needs one_job.1 ⊆ closed (mem (run five_by_ten one_job.2))) as Hok.
  { intros c Hc. assert (c = 1) as -> by (cbn in Hc; set_solver).
    by apply (bool_decide_eq_true_1 (1 ∈ closed (mem (run five_by_ten one_job.2)))). }
  destruct (Ready_not_stuck one_job.1 one_job.2
              (run five_by_ten one_job.2) one_job_cells eq_refl eq_refl
              Hcl Hpool (run_steps five_by_ten one_job.2)
              five_by_ten_final Hok) as (_ & Hdone & Hclosed).
  split; [exact Hdone|].
  exact (Hclosed one_job.1 2 (nodes_self _) eq_refl).
Defined.

(** One step of [one_job] takes at least one off its weight. *)
Lemma Ready_terminates_witness :
  1 + weight_config (run [0] one_job.2) ≤ weight_config one_job.2.
Proof.
  apply (Ready_terminates 1 one_job.2 (run [0] one_job.2)).
  apply nsteps_once. by exists 0.
Defined.

End readiness.

(** ** Shutdown of a group *)


